(** * Lost-in-the-Mix: the dataset-building scripts, embedded and verified

    The repository consists of four code-switching scripts
    ([2.code_switching.py] in four experiment directories) and one
    dataset-preparation script ([1.prepare_datasets.py]).  This file embeds
    the Python code of those scripts in Rocq and proves the properties the
    specification states about them.

    Conventions of the embedding:
    - a Python [str] is a list of Unicode code points ([list N]);
    - a Python exception is a value of [result];
    - calls to the text-generation service, calls of [random.sample] and
      the call of [to_csv] at the end are effects of a small
      state-and-error monad [M] whose state records them in a trace;
    - functions of the libraries (pandas, [random], [os.path], [ast],
      [datasets]) are embedded by what their documentation says of them;
      the sort of positions behind [sort_values] is a parameter, used
      through its contract;
    - the log file of a script is left out: nothing is read from it. *)

From Stdlib Require Import ZArith NArith Ascii String Lia.
From stdpp Require Import base decidable option list numbers sorting.

Local Open Scope Z_scope.

(** ** Python strings *)

Module Py.

(** A string is the list of its code points. *)
Abbreviation str := (list N).

(** [Py_UNICODE_ISSPACE]: the code points [str.split()] and [str.strip()]
    treat as whitespace. *)
Definition isspace (c : N) : bool :=
  ((9 <=? c) && (c <=? 13) || (28 <=? c) && (c <=? 32)
   || (c =? 133) || (c =? 160) || (c =? 5760)
   || (8192 <=? c) && (c <=? 8202)
   || (c =? 8232) || (c =? 8233) || (c =? 8239) || (c =? 8287)
   || (c =? 12288))%N.

(** The word collected so far, if any, is emitted. *)
Definition emit (acc : str) : list str :=
  match acc with [] => [] | _ => [acc] end.

(** [text.split()]: the maximal runs of non-whitespace characters. *)
Fixpoint split_go (acc : str) (s : str) : list str :=
  match s with
  | [] => emit acc
  | c :: s' =>
      if isspace c then emit acc ++ split_go [] s'
      else split_go (acc ++ [c]) s'
  end.

Definition split (s : str) : list str := split_go [] s.

(** [sep.join(words)] *)
Fixpoint join (sep : str) (ws : list str) : str :=
  match ws with
  | [] => []
  | [w] => w
  | w :: ws' => w ++ sep ++ join sep ws'
  end.

(** [s.split(sep)] for a one-character separator: every occurrence cuts,
    empty pieces are kept. *)
Fixpoint split_on_go (sep : N) (acc : str) (s : str) : list str :=
  match s with
  | [] => [acc]
  | c :: s' =>
      if (c =? sep)%N then acc :: split_on_go sep [] s'
      else split_on_go sep (acc ++ [c]) s'
  end.

Definition split_on (sep : N) (s : str) : list str := split_on_go sep [] s.

Fixpoint lstrip (s : str) : str :=
  match s with
  | [] => []
  | c :: s' => if isspace c then lstrip s' else s
  end.

Definition rstrip (s : str) : str := reverse (lstrip (reverse s)).

(** [s.strip()] *)
Definition strip (s : str) : str := rstrip (lstrip s).

(** [s.startswith(p)] *)
Fixpoint startswith (p s : str) : bool :=
  match p, s with
  | [], _ => true
  | a :: p', b :: s' => (a =? b)%N && startswith p' s'
  | _ :: _, [] => false
  end.

(** Literals of the source are written as Rocq strings, which are byte
    sequences; [utf8_decode] turns the UTF-8 bytes into code points. *)
Definition cont (b : N) : N := (b - 128)%N.

Fixpoint utf8_decode (bs : list N) : str :=
  match bs with
  | [] => []
  | b :: r =>
      if (b <? 128)%N then b :: utf8_decode r
      else if (b <? 224)%N then
        match r with
        | b1 :: r' => ((b - 192) * 64 + cont b1)%N :: utf8_decode r'
        | _ => []
        end
      else if (b <? 240)%N then
        match r with
        | b1 :: b2 :: r' =>
            ((b - 224) * 4096 + cont b1 * 64 + cont b2)%N :: utf8_decode r'
        | _ => []
        end
      else
        match r with
        | b1 :: b2 :: b3 :: r' =>
            ((b - 240) * 262144 + cont b1 * 4096 + cont b2 * 64 + cont b3)%N
              :: utf8_decode r'
        | _ => []
        end
  end.

Definition lit (s : string) : str :=
  utf8_decode (map N_of_ascii (list_ascii_of_string s)).

(** The double quote, which the literals below cannot contain. *)
Definition dquote : str := [34%N].

(** The placeholder every script uses. *)
Definition placeholder : str := lit "#######".

End Py.

Import Py.

(** ** Binary64 arithmetic of [int(len(words) * rate)]

    A non-negative double is a pair [(m, e)] standing for [m * 2^e]; it is
    kept with a significand of at most 53 bits by rounding to nearest, ties
    to even, as IEEE 754 multiplication and Python's int-to-float
    conversion do. *)

Module Float.

Definition float : Type := Z * Z.

(** [m / 2^sh] rounded to nearest, ties to even ([0 < sh]). *)
Definition round_half_even (m sh : Z) : Z :=
  let q := m / 2 ^ sh in
  let r := m mod 2 ^ sh in
  let h := 2 ^ (sh - 1) in
  if (h <? r) || ((r =? h) && Z.odd q) then q + 1 else q.

(** The nearest double to [m * 2^e], for [0 <= m]. *)
Definition round53 (m e : Z) : float :=
  let sh := Z.log2 m + 1 - 53 in
  if sh <=? 0 then (m, e) else (round_half_even m sh, e + sh).

(** [float(n)] *)
Definition of_int (n : Z) : float := round53 n 0.

(** [x * y] *)
Definition mul (x y : float) : float :=
  round53 (fst x * fst y) (snd x + snd y).

(** [int(x)]: truncation. *)
Definition to_int (x : float) : Z :=
  let (m, e) := x in
  if 0 <=? e then m * 2 ^ e else m / 2 ^ (- e).

(** The literal [0.2], that is [0x1.999999999999ap-3]. *)
Definition rate_0_2 : float := (3602879701896397, -54).

End Float.

(** ** Exceptions *)

Inductive exn :=
  | ValueError
  | KeyError
  | AttributeError
  | TypeError
  | IndexError
  | OSError
  | ServiceError (code : nat).

Inductive result (A : Type) :=
  | Ok (a : A)
  | Raise (e : exn).
Arguments Ok {A} a.
Arguments Raise {A} e.

(** Code without effects uses [result] alone. *)
Definition and_then {A B} (r : result A) (k : A -> result B) : result B :=
  match r with
  | Ok a => k a
  | Raise e => Raise e
  end.

Notation "'do' x <- r ; k" := (and_then r (fun x => k))
  (at level 10, x name, r at level 100, k at level 200).

(** ** Data frames *)

(** A cell read from a CSV file: a string, a number (kept with the text
    [str()] gives for it) or the missing value. *)
Inductive cell :=
  | CStr (s : str)
  | CNum (shown : str)
  | CNaN.

#[global] Instance cell_eq_dec : EqDecision cell.
Proof. solve_decision. Defined.

(** [f"{x}"] *)
Definition format (c : cell) : str :=
  match c with
  | CStr s => s
  | CNum shown => shown
  | CNaN => lit "nan"
  end.

Module DataFrame.

(** The columns in order, each with its name and its values; every column
    has one value per row. *)
Definition frame (C : Type) : Type := list (str * list C).

(** A frame read from a CSV file. *)
Definition t : Type := frame cell.

Definition names {C} (df : frame C) : list str := map fst df.

(** [name in df.columns] *)
Definition has_column {C} (name : str) (df : frame C) : bool :=
  bool_decide (name ∈ names df).

Fixpoint find {C} (name : str) (df : frame C) : option (list C) :=
  match df with
  | [] => None
  | (n, v) :: df' => if decide (n = name) then Some v else find name df'
  end.

(** [df[name]] *)
Definition get {C} (name : str) (df : frame C) : result (list C) :=
  match find name df with
  | Some v => Ok v
  | None => Raise KeyError
  end.

(** [df[name] = values]: an existing column is overwritten where it
    stands, a new one is appended. *)
Fixpoint set {C} (name : str) (values : list C) (df : frame C) : frame C :=
  match df with
  | [] => [(name, values)]
  | (n, v) :: df' =>
      if decide (n = name) then (n, values) :: df'
      else (n, v) :: set name values df'
  end.

(** [len(df)] *)
Definition nrows (df : t) : nat :=
  match df with
  | [] => 0%nat
  | (_, v) :: _ => length v
  end.

(** Every column has one value per row. *)
Definition rectangular (df : t) : Prop :=
  Forall (fun c => length c.2 = nrows df) df.

(** A row, as [apply(..., axis=1)] hands it to its function: [row[name]]. *)
Definition row : Type := str -> result cell.

Definition get_row (df : t) (i : nat) : row :=
  fun name =>
    match find name df with
    | Some v =>
        match v !! i with
        | Some c => Ok c
        | None => Raise KeyError
        end
    | None => Raise KeyError
    end.

Definition rows (df : t) : list row := map (get_row df) (seq 0 (nrows df)).

(** [df.head(n)]: the first [n] rows, or all but the last [-n] rows when
    [n] is negative. *)
Definition head (n : Z) (df : t) : t :=
  let keep :=
    if 0 <=? n then Z.to_nat n
    else Z.to_nat (Z.of_nat (nrows df) + n) in
  map (fun '(name, v) => (name, take keep v)) df.

(** The positions whose key has not occurred at an earlier position. *)
Fixpoint first_occurrences (seen : list cell) (keys : list cell) : list bool :=
  match keys with
  | [] => []
  | k :: keys' =>
      if decide (k ∈ seen) then false :: first_occurrences seen keys'
      else true :: first_occurrences (k :: seen) keys'
  end.

Fixpoint select {A} (mask : list bool) (v : list A) : list A :=
  match mask, v with
  | b :: mask', x :: v' => if b then x :: select mask' v' else select mask' v'
  | _, _ => []
  end.

(** [df.drop_duplicates(subset=name)]: of the rows with equal values in
    the column, the first is kept. *)
Definition drop_duplicates (name : str) (df : t) : result t :=
  match find name df with
  | Some keys =>
      let mask := first_occurrences [] keys in
      Ok (map (fun '(n, v) => (n, select mask v)) df)
  | None => Raise KeyError
  end.

(** [df[[name1, name2, ...]]]: the listed columns, in the listed order. *)
Fixpoint select_columns (wanted : list str) (df : t) : result t :=
  match wanted with
  | [] => Ok []
  | n :: wanted' =>
      match find n df with
      | Some v =>
          match select_columns wanted' df with
          | Ok rest => Ok ((n, v) :: rest)
          | Raise e => Raise e
          end
      | None => Raise KeyError
      end
  end.

(** [df.drop(columns=dropped)]: every listed column must exist. *)
Definition drop_columns (dropped : list str) (df : t) : result t :=
  if forallb (fun n => has_column n df) dropped
  then Ok (filter (fun c => c.1 ∉ dropped) df)
  else Raise KeyError.

(** A column extended to [n] rows with missing values. *)
Definition pad (n : nat) (v : list cell) : list cell :=
  v ++ replicate (n - length v) CNaN.

(** [pd.concat([a, b], axis=1)] for two frames indexed [0, 1, ...]: the
    columns of [a], then those of [b]; the shorter frame is filled up with
    missing values. *)
Definition concat_columns (a b : t) : t :=
  let n := Nat.max (nrows a) (nrows b) in
  map (fun '(name, v) => (name, pad n v)) (a ++ b).

End DataFrame.

(** ** Effects *)

(** What a run leaves behind, in order: the calls of [random.sample], the
    requests sent to the text-generation service, each with its outcome,
    and the calls of [to_csv], each with its path and its frame. *)
Inductive event :=
  | ESample (n : nat) (k : Z)
  | EInvoke (prompt : str) (outcome : result str)
  | EWrite (path : str) (df : DataFrame.t).

Record world := World {
  trace : list event;
  draws : nat;
  calls : nat
}.

Definition world0 : world := World [] 0 0.

(** What a run depends on: the random generator, the text-generation
    service (its answer may depend on how many requests came before), the
    CSV files that can be read and the calls of [to_csv] that raise. *)
Record env := Env {
  randbits : nat -> nat;
  claude : nat -> str -> result str;
  csv : str -> result DataFrame.t;
  write_error : str -> DataFrame.t -> option exn
}.

Definition M (A : Type) : Type := env -> world -> world * result A.

Definition ret {A} (a : A) : M A := fun _ w => (w, Ok a).

Definition raise {A} (e : exn) : M A := fun _ w => (w, Raise e).

Definition bind {A B} (m : M A) (k : A -> M B) : M B :=
  fun e w =>
    match m e w with
    | (w', Ok a) => k a e w'
    | (w', Raise x) => (w', Raise x)
    end.

Definition lift {A} (r : result A) : M A := fun _ w => (w, r).

Declare Scope py_scope.
Delimit Scope py_scope with py.
Notation "x <- m ;; k" := (bind m (fun x => k))
  (at level 100, m at next level, right associativity) : py_scope.
Local Open Scope py_scope.

Fixpoint mapM {A B} (f : A -> M B) (l : list A) : M (list B) :=
  match l with
  | [] => ret []
  | x :: l' => y <- f x ;; ys <- mapM f l' ;; ret (y :: ys)
  end.

Definition log (w : world) (ev : event) : world :=
  World (trace w ++ [ev]) (draws w) (calls w).

(** [invoke_claude(prompt)], imported from the [claude] module: one
    request to the service, which answers or raises. *)
Definition invoke_claude (prompt : str) : M str :=
  fun e w =>
    let outcome := claude e (calls w) prompt in
    (World (trace w ++ [EInvoke prompt outcome]) (draws w) (S (calls w)),
     outcome).

(** [pd.read_csv(path)] *)
Definition read_csv (path : str) : M DataFrame.t :=
  fun e w => (w, csv e path).

(** [df.to_csv(path, index=False)].  The call is in the trace whether it
    returns or raises: when it returns, the file holds the frame; when it
    raises, the file may have been created or emptied, and may hold some of
    the rows.  A file is untouched only when no call is in the trace. *)
Definition to_csv (df : DataFrame.t) (path : str) : M unit :=
  fun e w =>
    (log w (EWrite path df),
     match write_error e path df with
     | Some x => Raise x
     | None => Ok tt
     end).

(** [series.progress_apply(f)]: [f] on every element, once, in the order
    of the rows; an exception of [f] ends the traversal.  On a series
    without elements [f] is not called. *)
Definition series_apply {B} (f : cell -> M B) (v : list cell) : M (list B) :=
  mapM f v.

(** [df.progress_apply(f, axis=1)] on a frame with rows: [f] on every
    row, once, in the order of the rows; an exception of [f] ends the
    traversal.  A frame without rows is outside of what [frame_apply]
    describes: there pandas calls [f] once on a row of missing values, to
    find the shape of the result, and drops what the call raises.  What is
    proved below of the requests of stage 2, and of how a run ends, is
    stated for frames with rows. *)
Definition frame_apply {B} (f : DataFrame.row -> M B) (df : DataFrame.t)
  : M (list B) :=
  mapM f (DataFrame.rows df).

(** ** [random.sample] *)

Module Random.

(** One draw below [m]. *)
Definition randbelow (m : nat) : M nat :=
  fun e w =>
    (World (trace w) (S (draws w)) (calls w),
     Ok (randbits e (draws w) mod m)%nat).

(** The selection loop of [random.sample] over a pool: the drawn element
    is taken and the last live element moves into its place.  (CPython
    selects through a set of chosen indices when the population is large;
    both loops return [k] distinct elements.) *)
Fixpoint sample_loop (k : nat) (pool : list nat) : M (list nat) :=
  match k with
  | O => ret []
  | S k' =>
      j <- randbelow (length pool) ;;
      match pool !! j, last pool with
      | Some x, Some y =>
          rest <- sample_loop k' (take (length pool - 1) (<[j:=y]> pool)) ;;
          ret (x :: rest)
      | _, _ => raise IndexError
      end
  end.

(** [random.sample(range(n), k)]: [k] distinct elements of [range(n)], or
    [ValueError] when [k] is negative or larger than [n]. *)
Definition sample (n : nat) (k : Z) : M (list nat) :=
  fun e w =>
    let w1 := log w (ESample n k) in
    if (k <? 0) || (Z.of_nat n <? k) then (w1, Raise ValueError)
    else sample_loop (Z.to_nat k) (seq 0 n) e w1.

End Random.

(** ** The randomized script: [insert_placeholders_random] *)

(** [text.split()] on a cell: only a string has the method. *)
Definition cell_split (text : cell) : result (list str) :=
  match text with
  | CStr s => Ok (split s)
  | _ => Raise AttributeError
  end.

(** [for i in indices: words[i] = '#######'] *)
Definition mask_words (words : list str) (indices : list nat) : list str :=
  foldl (fun ws i => <[i:=placeholder]> ws) words indices.

(** [max(1, int(len(words) * rate))] *)
Definition sample_count (n : nat) (rate : Float.float) : Z :=
  Z.max 1 (Float.to_int (Float.mul (Float.of_int (Z.of_nat n)) rate)).

Definition insert_placeholders_random (text : cell) (rate : Float.float)
  : M str :=
  words <- lift (cell_split text) ;;
  let count := sample_count (length words) rate in
  indices <- Random.sample (length words) count ;;
  ret (join (lit " ") (mask_words words indices)).

(** ** [os.path] on POSIX paths *)

Module OsPath.

Definition sep : N := 47%N.
Definition extsep : N := 46%N.

(** [s.rfind(c)]: the last index of [c], or [-1]. *)
Fixpoint rfind_go (c : N) (s : str) (i : Z) (found : Z) : Z :=
  match s with
  | [] => found
  | x :: s' => rfind_go c s' (i + 1) (if (x =? c)%N then i else found)
  end.

Definition rfind (c : N) (s : str) : Z := rfind_go c s 0 (-1).

(** [os.path.basename(p)] *)
Definition basename (p : str) : str :=
  drop (Z.to_nat (rfind sep p + 1)) p.

(** [os.path.splitext(p)]: the extension starts at the last dot of the
    last component, unless only dots precede it there. *)
Definition splitext (p : str) : str * str :=
  let sepIndex := rfind sep p in
  let dotIndex := rfind extsep p in
  if sepIndex <? dotIndex then
    let name :=
      take (Z.to_nat (dotIndex - (sepIndex + 1)))
           (drop (Z.to_nat (sepIndex + 1)) p) in
    if existsb (fun x => negb (x =? extsep)%N) name
    then (take (Z.to_nat dotIndex) p, drop (Z.to_nat dotIndex) p)
    else (p, [])
  else (p, []).

(** [os.path.join(a, b)] *)
Definition join (a b : str) : str :=
  if startswith [sep] b then b
  else
    match last a with
    | None => a ++ b
    | Some c => if (c =? sep)%N then a ++ b else a ++ [sep] ++ b
    end.

End OsPath.

(** ** Command lines *)

(** The arguments of the three single-language scripts. *)
Record args := Args {
  input_csv : str;
  source_column : str;
  target_column : str;
  target_language : str;
  csw_column_name : str;
  output_dir : str;
  sample_size : option Z
}.

(** [if args.sample_size:] is taken for an integer other than [0]. *)
Definition truthy (n : option Z) : option Z :=
  match n with
  | Some k => if k =? 0 then None else Some k
  | None => None
  end.

(** [f"{base}{infix}{csw}.csv"] under [output_dir]. *)
Definition output_path (dir input infix csw : str) : str :=
  let base := fst (OsPath.splitext (OsPath.basename input)) in
  OsPath.join dir (base ++ infix ++ csw ++ lit ".csv").

(** ** Linguistically motivated code-switching *)

Module Linguistic.

Definition get_switching_points_prompt (text : str) : str :=
  concat
    [ lit "
You are an expert linguist and code‑switching analyst. Based on the Equivalence Constraint Theory and the Matrix Language Frame model, identify nouns in the input English sentence that would serve as appropriate code‑switching points.

– Input variable: text (a single English sentence)  
– Task: Find every noun (as a free content morpheme) that can be switched under the theories above.  
– Transformation: Replace each identified noun in the sentence with ";
      dquote;
      lit "#######";
      dquote;
      lit ".  
– Output: Return only the transformed sentence with nouns replaced by ";
      dquote;
      lit "#######";
      dquote;
      lit ".
- The substituted words blend seamlessly into the text, following natural bilingual speech patterns.
- Adjust the target language words as needed (e.g., inflection, gender, number) so that the text remains syntactically correct.
- Ensure that nouns in common expressions are not code-switched.
- Don't return any summary or introduction, just the processed text

[English text]
";
      text;
      lit "
" ].

Definition get_switching_points (text : cell) : M str :=
  response <- invoke_claude (get_switching_points_prompt (format text)) ;;
  ret (strip response).

Definition code_switch_text_prompt
  (placeholder_text target_text target_language : str) : str :=
  concat
    [ lit "
You will be given a pair of parallel texts in English and ";
      target_language;
      lit ".

Your goal is to produce a code-switched version of the English text by replacing each of the hashtag-sequences (#######) in the English text with their ";
      target_language;
      lit " counterparts from the ";
      target_language;
      lit " text, ensuring that:
- The substituted words blend seamlessly into the text, following natural bilingual speech patterns.
- The text should be grounded with the principles of the Equivalence Constraint Theory and the Matrix Language Frame model.
- Adjust the target language words as needed (e.g., inflection, gender, number) so that the text remains syntactically correct.
- The original meaning and flow of the text are maintained.
- All the hashtag-sequences (#######) have to be replaced with text from the ";
      target_language;
      lit " text.
- Use only the words from the ";
      target_language;
      lit " text.
- Return only the code-switched text, without any additions or explanations.

[English text with placeholders]
";
      placeholder_text;
      lit "

[";
      target_language;
      lit " text]
";
      target_text;
      lit "

[Code-switched English and ";
      target_language;
      lit "]
" ].

Definition code_switch_text (placeholder_text target_text : cell)
  (target_language : str) : M str :=
  response <- invoke_claude
    (code_switch_text_prompt (format placeholder_text) (format target_text)
       target_language) ;;
  ret (strip response).

Definition sample (a : args) (df : DataFrame.t) : result DataFrame.t :=
  match truthy (sample_size a) with
  | Some n =>
      match DataFrame.drop_duplicates (source_column a) df with
      | Ok d => Ok (DataFrame.head n d)
      | Raise e => Raise e
      end
  | None => Ok df
  end.

Definition stage1 (a : args) (df : DataFrame.t) : M DataFrame.t :=
  src <- lift (DataFrame.get (source_column a) df) ;;
  ph <- series_apply (fun txt => get_switching_points txt) src ;;
  ret (DataFrame.set (lit "placeholder_text") (map CStr ph) df).

Definition stage2 (a : args) (df : DataFrame.t) : M DataFrame.t :=
  out <- frame_apply
    (fun row =>
       p <- lift (row (lit "placeholder_text")) ;;
       t <- lift (row (target_column a)) ;;
       code_switch_text p t (target_language a)) df ;;
  ret (DataFrame.set (csw_column_name a) (map CStr out) df).

Definition main (a : args) : M unit :=
  df <- read_csv (input_csv a) ;;
  df <- lift (sample a df) ;;
  df <- stage1 a df ;;
  df <- stage2 a df ;;
  to_csv df
    (output_path (output_dir a) (input_csv a) (lit "_with_")
       (csw_column_name a)).

End Linguistic.

(** ** English as the embedded language (reverse code-switching) *)

Module Reverse.

Definition mask_target_points_prompt (text target_language : str) : str :=
  concat
    [ lit "
You are an expert linguist and code‑switching analyst. Based on the Equivalence Constraint Theory and the Matrix Language Frame model, identify nouns in the input ";
      target_language;
      lit " sentence that would serve as appropriate code‑switching points.

– Input variable: text (a single ";
      target_language;
      lit " sentence)
– Task: Find every noun (as a free content morpheme) that can be switched under the theories above.
– Transformation: Replace each identified noun in the sentence with ";
      dquote;
      lit "#######";
      dquote;
      lit ".
– Output: Return only the transformed sentence with nouns replaced by ";
      dquote;
      lit "#######";
      dquote;
      lit ".
- The substituted words blend seamlessly into the text, following natural bilingual speech patterns.
- Adjust the English words as needed so that the text remains syntactically correct when inserted later.
- Ensure that nouns in common expressions are not code-switched.
- Don't return any summary or introduction, just the processed text

[";
      target_language;
      lit " text]
";
      text;
      lit "
" ].

Definition mask_target_points (text : cell) (target_language : str) : M str :=
  response <- invoke_claude
    (mask_target_points_prompt (format text) target_language) ;;
  ret (strip response).

Definition insert_english_words_prompt
  (placeholder_text english_text target_language : str) : str :=
  concat
    [ lit "
You will be given parallel texts in ";
      target_language;
      lit " and English.

Your goal is to produce a reverse code-switched version of the ";
      target_language;
      lit " text by replacing each of the hashtag-sequences (#######) in the ";
      target_language;
      lit " placeholder text with their English counterparts from the English text, ensuring that:
- The substituted English words fit naturally into the ";
      target_language;
      lit " sentence structure.
- The text should be grounded with the principles of the Equivalence Constraint Theory and the Matrix Language Frame model.
- Inflect English words if needed to maintain grammatical correctness.
- The original meaning and flow of the ";
      target_language;
      lit " text are preserved.
- All the hashtag-sequences (#######) have to be replaced with text from the English text.
- Use only the words from the English text.
- Return only the final mixed sentence, without any additions or explanations.

[";
      target_language;
      lit " text with placeholders]
";
      placeholder_text;
      lit "

[English text]
";
      english_text;
      lit "

[Reverse code-switched ";
      target_language;
      lit " and English]
" ].

Definition insert_english_words (placeholder_text english_text : cell)
  (target_language : str) : M str :=
  response <- invoke_claude
    (insert_english_words_prompt (format placeholder_text)
       (format english_text) target_language) ;;
  ret (strip response).

Definition sample (a : args) (df : DataFrame.t) : result DataFrame.t :=
  match truthy (sample_size a) with
  | Some n =>
      match DataFrame.drop_duplicates (target_column a) df with
      | Ok d => Ok (DataFrame.head n d)
      | Raise e => Raise e
      end
  | None => Ok df
  end.

Definition stage1 (a : args) (df : DataFrame.t) : M DataFrame.t :=
  tgt <- lift (DataFrame.get (target_column a) df) ;;
  masked <- series_apply
    (fun txt => mask_target_points txt (target_language a)) tgt ;;
  ret (DataFrame.set (lit "masked_target") (map CStr masked) df).

Definition stage2 (a : args) (df : DataFrame.t) : M DataFrame.t :=
  out <- frame_apply
    (fun row =>
       p <- lift (row (lit "masked_target")) ;;
       t <- lift (row (source_column a)) ;;
       insert_english_words p t (target_language a)) df ;;
  ret (DataFrame.set (csw_column_name a) (map CStr out) df).

Definition main (a : args) : M unit :=
  df <- read_csv (input_csv a) ;;
  df <- lift (sample a df) ;;
  df <- stage1 a df ;;
  df <- stage2 a df ;;
  to_csv df
    (output_path (output_dir a) (input_csv a) (lit "_reverse_")
       (csw_column_name a)).

End Reverse.

(** ** Code-switching into several languages at once *)

Module Extreme.

Record args := Args {
  input_csv : str;
  source_column : str;
  target_columns : str;
  target_languages : str;
  csw_column_name : str;
  output_dir : str;
  sample_size : option Z
}.

Definition get_switching_points_prompt (text : str) : str :=
  concat
    [ lit "
You are an expert linguist and code-switching analyst. Based on the Equivalence Constraint Theory, identify nouns in the input English sentence that would serve as appropriate code-switching points.

– Input variable: text (a single English sentence)
– Task: Find every noun (as a free content morpheme) that can be switched under the theories above.
– Transformation: Replace each identified noun in the sentence with ";
      dquote;
      lit "#######";
      dquote;
      lit ".
– Output: Return only the transformed sentence with nouns replaced by ";
      dquote;
      lit "#######";
      dquote;
      lit ".
- Do not include any summary or extra commentary.

[English text]
";
      text;
      lit "
" ].

Definition get_switching_points (text : cell) : M str :=
  response <- invoke_claude (get_switching_points_prompt (format text)) ;;
  ret (strip response).

(** ["\n".join([f"[{lang} text]\n{text}" for lang, text in zip(...)])] *)
Definition parallel_section (target_texts : list cell) (languages : list str)
  : str :=
  Py.join [10%N]
    (map (fun '(lang, text) =>
            lit "[" ++ lang ++ lit " text]" ++ [10%N] ++ format text)
         (zip languages target_texts)).

Definition code_switch_multi_prompt (placeholder_text parallel_section : str)
  : str :=
  concat
    [ lit "
You are a code-switching specialist. Given an English sentence with placeholder markers (#######) and parallel sentences in multiple target languages, produce a single mixed-language code-switched English sentence by replacing each placeholder with the appropriate word or phrase from one of the target-language sentences.

Guidelines:
- Replace each ####### with text from exactly one of the provided target-language sentences.
- The text should be grounded with the principles of the Equivalence Constraint Theory and the Matrix Language Frame model.
- Distribute replacements as evenly as possible across the set of languages; do not use any language more often than the others.
- Maintain the original meaning and grammatical flow.
- Use the exact form (including inflections) from the parallel text.
- Return only the final code-switched sentence without any additional commentary.

[English text with placeholders]
";
      placeholder_text;
      lit "

";
      parallel_section;
      lit "

[Mixed-language code-switched sentence]
" ].

Definition code_switch_multi (placeholder_text : cell)
  (target_texts : list cell) (languages : list str) : M str :=
  response <- invoke_claude
    (code_switch_multi_prompt (format placeholder_text)
       (parallel_section target_texts languages)) ;;
  ret (strip response).

(** [[c.strip() for c in s.split(',')]] *)
Definition parse_list (s : str) : list str :=
  map strip (split_on 44%N s).

Definition sample (a : args) (df : DataFrame.t) : result DataFrame.t :=
  match truthy (sample_size a) with
  | Some n =>
      match DataFrame.drop_duplicates (source_column a) df with
      | Ok d => Ok (DataFrame.head n d)
      | Raise e => Raise e
      end
  | None => Ok df
  end.

(** Placeholders are generated unless the input brings them. *)
Definition stage1 (a : args) (df : DataFrame.t) : M DataFrame.t :=
  if DataFrame.has_column (lit "placeholder_text") df then ret df
  else
    src <- lift (DataFrame.get (source_column a) df) ;;
    ph <- series_apply (fun txt => get_switching_points txt) src ;;
    ret (DataFrame.set (lit "placeholder_text") (map CStr ph) df).

Fixpoint lookups (row : DataFrame.row) (cols : list str)
  : result (list cell) :=
  match cols with
  | [] => Ok []
  | c :: cols' =>
      match row c with
      | Ok v =>
          match lookups row cols' with
          | Ok vs => Ok (v :: vs)
          | Raise e => Raise e
          end
      | Raise e => Raise e
      end
  end.

Definition stage2 (a : args) (target_cols languages : list str)
  (df : DataFrame.t) : M DataFrame.t :=
  out <- frame_apply
    (fun row =>
       p <- lift (row (lit "placeholder_text")) ;;
       ts <- lift (lookups row target_cols) ;;
       code_switch_multi p ts languages) df ;;
  ret (DataFrame.set (csw_column_name a) (map CStr out) df).

Definition main (a : args) : M unit :=
  let target_cols := parse_list (target_columns a) in
  let languages := parse_list (target_languages a) in
  if negb (length target_cols =? length languages)%nat then raise ValueError
  else
    df <- read_csv (input_csv a) ;;
    df <- lift (sample a df) ;;
    df <- stage1 a df ;;
    df <- stage2 a target_cols languages df ;;
    to_csv df
      (output_path (output_dir a) (input_csv a) (lit "_with_")
         (csw_column_name a)).

End Extreme.

(** ** Non-linguistically motivated (randomized) code-switching *)

Module Randomized.

Definition code_switch_text_prompt
  (placeholder_text target_text target_language : str) : str :=
  concat
    [ lit "
You will be given an English sentence with placeholders (#######) and its parallel sentence in ";
      target_language;
      lit ".
Replace each placeholder with the corresponding segment from the ";
      target_language;
      lit " text, ensuring:
- The inserted text matches the target-language phrasing (inflections, gender, number).
- The final sentence reads naturally as mixed English and ";
      target_language;
      lit ".
- Preserve the original sentence order.
Return only the filled sentence, no extra comments.

[English with placeholders]
";
      placeholder_text;
      lit "

[";
      target_language;
      lit " parallel text]
";
      target_text;
      lit "

[Mixed code-switched result]
" ].

Definition code_switch_text (placeholder_text target_text : cell)
  (target_language : str) : M str :=
  response <- invoke_claude
    (code_switch_text_prompt (format placeholder_text) (format target_text)
       target_language) ;;
  ret (strip response).

Definition sample (a : args) (df : DataFrame.t) : result DataFrame.t :=
  match truthy (sample_size a) with
  | Some n => Ok (DataFrame.head n df)
  | None => Ok df
  end.

Definition stage1 (a : args) (df : DataFrame.t) : M DataFrame.t :=
  src <- lift (DataFrame.get (source_column a) df) ;;
  ph <- series_apply
    (fun txt => insert_placeholders_random txt Float.rate_0_2) src ;;
  ret (DataFrame.set (lit "placeholder_text") (map CStr ph) df).

Definition stage2 (a : args) (df : DataFrame.t) : M DataFrame.t :=
  out <- frame_apply
    (fun row =>
       p <- lift (row (lit "placeholder_text")) ;;
       t <- lift (row (target_column a)) ;;
       code_switch_text p t (target_language a)) df ;;
  ret (DataFrame.set (csw_column_name a) (map CStr out) df).

Definition main (a : args) : M unit :=
  df <- read_csv (input_csv a) ;;
  df <- lift (sample a df) ;;
  df <- stage1 a df ;;
  df <- stage2 a df ;;
  to_csv df
    (output_path (output_dir a) (input_csv a) (lit "_rnd_")
       (csw_column_name a)).

End Randomized.

(** ** The two-stage pipeline of the specification

    The specification describes the scripts as one mask-then-fill pipeline
    that varies in its prompts.  [Pipeline.run] is that description: what
    varies from script to script is a field of [Pipeline.t]. *)

Module Pipeline.

(** How stage 1 masks a text: by a request to the service, as the
    specification says, or locally at random. *)
Inductive masker :=
  | ByService (prompt : str -> str)
  | AtRandom (rate : Float.float).

(** [text -> strip(invoke_claude(prompt(text)))] *)
Definition mask_stage (prompt : str -> str) (text : cell) : M str :=
  response <- invoke_claude (prompt (format text)) ;;
  ret (strip response).

(** [row -> strip(invoke_claude(prompt'(placeholder_text, parallel_text)))],
    the prompt being computed from the row. *)
Definition fill_stage (prompt' : DataFrame.row -> result str)
  (row : DataFrame.row) : M str :=
  prompt <- lift (prompt' row) ;;
  response <- invoke_claude prompt ;;
  ret (strip response).

Definition mask (m : masker) (text : cell) : M str :=
  match m with
  | ByService prompt => mask_stage prompt text
  | AtRandom rate => insert_placeholders_random text rate
  end.

Record t := Make {
  input : str;
  size : option Z;
  dedup : option str;
  reuse : bool;
  key : str;
  masking : masker;
  intermediate : str;
  fill : DataFrame.row -> result str;
  output_column : str;
  path : str
}.

Definition sample (p : t) (df : DataFrame.t) : result DataFrame.t :=
  match truthy (size p) with
  | Some n =>
      do d <- match dedup p with
              | Some column => DataFrame.drop_duplicates column df
              | None => Ok df
              end;
      Ok (DataFrame.head n d)
  | None => Ok df
  end.

(** Stage 1 is skipped when the script reuses placeholders the input
    brings. *)
Definition skips (p : t) (df : DataFrame.t) : bool :=
  reuse p && DataFrame.has_column (intermediate p) df.

Definition stage1 (p : t) (df : DataFrame.t) : M DataFrame.t :=
  if skips p df then ret df
  else
    src <- lift (DataFrame.get (key p) df) ;;
    masked <- series_apply (mask (masking p)) src ;;
    ret (DataFrame.set (intermediate p) (map CStr masked) df).

Definition stage2 (p : t) (df : DataFrame.t) : M DataFrame.t :=
  out <- frame_apply (fill_stage (fill p)) df ;;
  ret (DataFrame.set (output_column p) (map CStr out) df).

Definition run (p : t) : M unit :=
  df <- read_csv (input p) ;;
  df <- lift (sample p df) ;;
  df <- stage1 p df ;;
  df <- stage2 p df ;;
  to_csv df (path p).

(** The pipeline as the specification has it for every script: both
    stages go through the service, stage 1 is never skipped, and nothing
    varies but the input, the sample size, the prompts, the columns and
    the path. *)
Definition plain (input : str) (size : option Z) (key : str)
  (prompt : str -> str) (intermediate : str)
  (fill : DataFrame.row -> result str) (output_column path : str)
  : M unit :=
  run (Make input size (Some key) false key (ByService prompt) intermediate
         fill output_column path).

End Pipeline.

(** ** The four scripts together *)

Inductive script :=
  | Linguistically (a : args)
  | Reversed (a : args)
  | Extremely (a : Extreme.args)
  | Randomly (a : args).

Definition main_of (s : script) : M unit :=
  match s with
  | Linguistically a => Linguistic.main a
  | Reversed a => Reverse.main a
  | Extremely a => Extreme.main a
  | Randomly a => Randomized.main a
  end.

(** The CSV file a script reads. *)
Definition input_of (s : script) : str :=
  match s with
  | Linguistically a | Reversed a | Randomly a => input_csv a
  | Extremely a => Extreme.input_csv a
  end.

(** The column stage 1 adds. *)
Definition intermediate_of (s : script) : str :=
  match s with
  | Reversed _ => lit "masked_target"
  | _ => lit "placeholder_text"
  end.

(** The column stage 2 adds. *)
Definition csw_of (s : script) : str :=
  match s with
  | Linguistically a | Reversed a | Randomly a => csw_column_name a
  | Extremely a => Extreme.csw_column_name a
  end.

(** The rows a script retains of the frame it read. *)
Definition sample_of (s : script) (df : DataFrame.t) : result DataFrame.t :=
  match s with
  | Linguistically a => Linguistic.sample a df
  | Reversed a => Reverse.sample a df
  | Extremely a => Extreme.sample a df
  | Randomly a => Randomized.sample a df
  end.

(** The prompt of stage 2 for a row. *)
Definition fill_of (s : script) (row : DataFrame.row) : result str :=
  match s with
  | Linguistically a =>
      do p <- row (lit "placeholder_text");
      do t <- row (target_column a);
      Ok (Linguistic.code_switch_text_prompt (format p) (format t)
            (target_language a))
  | Reversed a =>
      do p <- row (lit "masked_target");
      do t <- row (source_column a);
      Ok (Reverse.insert_english_words_prompt (format p) (format t)
            (target_language a))
  | Extremely a =>
      do p <- row (lit "placeholder_text");
      do ts <- Extreme.lookups row
                 (Extreme.parse_list (Extreme.target_columns a));
      Ok (Extreme.code_switch_multi_prompt (format p)
            (Extreme.parallel_section ts
               (Extreme.parse_list (Extreme.target_languages a))))
  | Randomly a =>
      do p <- row (lit "placeholder_text");
      do t <- row (target_column a);
      Ok (Randomized.code_switch_text_prompt (format p) (format t)
            (target_language a))
  end.

(** Each script as an instance of the pipeline. *)
Definition pipeline_of (s : script) : Pipeline.t :=
  match s with
  | Linguistically a =>
      Pipeline.Make (input_csv a) (sample_size a) (Some (source_column a))
        false (source_column a)
        (Pipeline.ByService Linguistic.get_switching_points_prompt)
        (lit "placeholder_text") (fill_of s) (csw_column_name a)
        (output_path (output_dir a) (input_csv a) (lit "_with_")
           (csw_column_name a))
  | Reversed a =>
      Pipeline.Make (input_csv a) (sample_size a) (Some (target_column a))
        false (target_column a)
        (Pipeline.ByService
           (fun text =>
              Reverse.mask_target_points_prompt text (target_language a)))
        (lit "masked_target") (fill_of s) (csw_column_name a)
        (output_path (output_dir a) (input_csv a) (lit "_reverse_")
           (csw_column_name a))
  | Extremely a =>
      Pipeline.Make (Extreme.input_csv a) (Extreme.sample_size a)
        (Some (Extreme.source_column a)) true (Extreme.source_column a)
        (Pipeline.ByService Extreme.get_switching_points_prompt)
        (lit "placeholder_text") (fill_of s) (Extreme.csw_column_name a)
        (output_path (Extreme.output_dir a) (Extreme.input_csv a)
           (lit "_with_") (Extreme.csw_column_name a))
  | Randomly a =>
      Pipeline.Make (input_csv a) (sample_size a) None
        false (source_column a) (Pipeline.AtRandom Float.rate_0_2)
        (lit "placeholder_text") (fill_of s) (csw_column_name a)
        (output_path (output_dir a) (input_csv a) (lit "_rnd_")
           (csw_column_name a))
  end.

(** A script stops before it reads anything when its command line is
    rejected. *)
Definition rejected (s : script) : bool :=
  match s with
  | Extremely a =>
      negb (length (Extreme.parse_list (Extreme.target_columns a))
            =? length (Extreme.parse_list (Extreme.target_languages a)))%nat
  | _ => false
  end.

(** ** Reading traces *)

Definition is_invoke (ev : event) : bool :=
  match ev with EInvoke _ _ => true | _ => false end.

Definition is_write (ev : event) : bool :=
  match ev with EWrite _ _ => true | _ => false end.

(** The prompts sent to the service, in order. *)
Fixpoint prompts (tr : list event) : list str :=
  match tr with
  | [] => []
  | EInvoke q _ :: tr' => q :: prompts tr'
  | _ :: tr' => prompts tr'
  end.

(** ** The dataset-preparation script *)

Module Prepare.

Fixpoint map_result {A B} (f : A -> result B) (l : list A)
  : result (list B) :=
  match l with
  | [] => Ok []
  | x :: l' => do y <- f x; do ys <- map_result f l'; Ok (y :: ys)
  end.

(** *** Belebele *)

(** A record of the Belebele test split, with the features of the
    dataset. *)
Record passage := Passage {
  link : str;
  question_number : Z;
  flores_passage : str;
  question : str;
  mc_answer1 : str;
  mc_answer2 : str;
  mc_answer3 : str;
  mc_answer4 : str;
  correct_answer_num : str;
  dialect : str;
  ds : str
}.

(** [a <= b] on strings: code points compared from the left. *)
Fixpoint str_leb (a b : str) : bool :=
  match a, b with
  | [], _ => true
  | _ :: _, [] => false
  | x :: a', y :: b' =>
      if (x <? y)%N then true
      else if (y <? x)%N then false
      else str_leb a' b'
  end.

Definition link_le (a b : passage) : Prop := str_leb (link a) (link b).

#[global] Instance link_le_dec : RelDecision link_le.
Proof. intros a b. unfold link_le. apply _. Defined.

(** [.sort_values(by='link').reset_index(drop=True)]: pandas sorts the
    positions of the rows by the column of the links and takes the rows in
    that order.  [argsort] is that sort of the positions, numpy's; its
    default kind is not stable, so the order it gives to rows with the
    same link is fixed by the column of the links, and by nothing that is
    documented.  What is used of [argsort] below is the contract
    [sorts]. *)
Definition sort_values_by_link (argsort : list str -> list nat)
  (test : list passage) : list passage :=
  omap (fun i => test !! i) (argsort (map link test)).

(** The decimal digits of a natural number, most significant first. *)
Fixpoint digits (fuel : nat) (n : N) (acc : str) : str :=
  match fuel with
  | O => acc
  | S fuel' =>
      let acc' := (48 + n mod 10)%N :: acc in
      if (n <? 10)%N then acc' else digits fuel' (n / 10)%N acc'
  end.

(** [str(z)] for an integer. *)
Definition show_int (z : Z) : str :=
  let n := Z.abs_N z in
  let ds := digits (S (N.to_nat (N.log2 n))) n [] in
  if z <? 0 then 45%N :: ds else ds.

(** [pd.DataFrame(dataset['test'])] *)
Definition to_frame (test : list passage) : DataFrame.t :=
  [ (lit "link", map (fun r => CStr (link r)) test);
    (lit "question_number",
       map (fun r => CNum (show_int (question_number r))) test);
    (lit "flores_passage", map (fun r => CStr (flores_passage r)) test);
    (lit "question", map (fun r => CStr (question r)) test);
    (lit "mc_answer1", map (fun r => CStr (mc_answer1 r)) test);
    (lit "mc_answer2", map (fun r => CStr (mc_answer2 r)) test);
    (lit "mc_answer3", map (fun r => CStr (mc_answer3 r)) test);
    (lit "mc_answer4", map (fun r => CStr (mc_answer4 r)) test);
    (lit "correct_answer_num",
       map (fun r => CStr (correct_answer_num r)) test);
    (lit "dialect", map (fun r => CStr (dialect r)) test);
    (lit "ds", map (fun r => CStr (ds r)) test) ].

Definition subsets : list str :=
  [ lit "eng_Latn"; lit "fra_Latn"; lit "deu_Latn"; lit "arb_Arab";
    lit "zho_Hans" ].

(** [subset.split('_')[0]] *)
Definition prefix_of (subset : str) : str :=
  match split_on 95%N subset with
  | p :: _ => p
  | [] => []
  end.

Definition english_columns : list str :=
  [ lit "flores_passage"; lit "question"; lit "mc_answer1";
    lit "mc_answer2"; lit "mc_answer3"; lit "mc_answer4";
    lit "correct_answer_num" ].

Definition other_columns : list str :=
  [ lit "flores_passage"; lit "question" ].

(** The body of the loop over the subsets, up to the concatenation. *)
Definition subset_frame (argsort : list str -> list nat) (subset : str)
  (test : list passage) : result DataFrame.t :=
  let sorted := to_frame (sort_values_by_link argsort test) in
  do df <- DataFrame.select_columns
     (if decide (subset = lit "eng_Latn") then english_columns
      else other_columns) sorted;
  do passages <- DataFrame.get (lit "flores_passage") df;
  let df :=
    DataFrame.set (prefix_of subset ++ lit "_flores_passage") passages df in
  do questions <- DataFrame.get (lit "question") df;
  let df :=
    DataFrame.set (prefix_of subset ++ lit "_question") questions df in
  DataFrame.drop_columns [lit "flores_passage"; lit "question"] df.

Fixpoint combine (argsort : list str -> list nat)
  (load_test : str -> list passage) (todo : list str)
  (combined_df : DataFrame.t) : result DataFrame.t :=
  match todo with
  | [] => Ok combined_df
  | subset :: todo' =>
      do df <- subset_frame argsort subset (load_test subset);
      combine argsort load_test todo'
        (DataFrame.concat_columns combined_df df)
  end.

(** The frame written to [datasets/belebele.csv]; [load_test subset] is
    [load_dataset("facebook/belebele", subset)['test']]. *)
Definition belebele (argsort : list str -> list nat)
  (load_test : str -> list passage) : result DataFrame.t :=
  combine argsort load_test
    (filter (fun subset => subset ≠ lit "All") subsets) [].

(** *** MMLU *)

(** [combined[name] = series] for a series indexed [0, 1, ...].  A frame
    without rows takes the rows of a series that has some, and its columns
    are filled with missing values; otherwise the series is aligned with
    the rows of the frame: cut where it is longer, filled with missing
    values where it is shorter. *)
Definition assign_series (name : str) (series : list cell)
  (df : DataFrame.t) : DataFrame.t :=
  if (DataFrame.nrows df =? 0)%nat && negb (length series =? 0)%nat then
    DataFrame.set name series
      (map (fun '(n, v) => (n, DataFrame.pad (length series) v)) df)
  else
    DataFrame.set name
      (take (DataFrame.nrows df)
         (DataFrame.pad (DataFrame.nrows df) series)) df.

(** The frame written to [datasets/mmlu.csv], from the test splits of MMLU
    and of its four translations. *)
Definition mmlu (eng_mmlu fra_mmlu deu_mmlu arb_mmlu zho_mmlu : DataFrame.t)
  : result DataFrame.t :=
  let combined_mmlu := [] in
  do q <- DataFrame.get (lit "question") eng_mmlu;
  let combined_mmlu :=
    assign_series (lit "eng_mmlu_question") q combined_mmlu in
  do q <- DataFrame.get (lit "Question") fra_mmlu;
  let combined_mmlu :=
    assign_series (lit "fra_mmlu_question") q combined_mmlu in
  do q <- DataFrame.get (lit "Question") deu_mmlu;
  let combined_mmlu :=
    assign_series (lit "deu_mmlu_question") q combined_mmlu in
  do q <- DataFrame.get (lit "Question") arb_mmlu;
  let combined_mmlu :=
    assign_series (lit "arb_mmlu_question") q combined_mmlu in
  do q <- DataFrame.get (lit "Question") zho_mmlu;
  let combined_mmlu :=
    assign_series (lit "zho_mmlu_question") q combined_mmlu in
  Ok combined_mmlu.

(** *** XNLI *)

(** The keys a dictionary can have. *)
Inductive key :=
  | KNone
  | KStr (s : str)
  | KInt (z : Z).

#[global] Instance key_eq_dec : EqDecision key.
Proof. solve_decision. Defined.

(** The Python values a field of the XNLI frame can hold. *)
Inductive value :=
  | VNone
  | VStr (s : str)
  | VInt (z : Z)
  | VList (items : list value)
  | VDict (items : list (key * value)).

Definition isinstance_dict (x : value) : bool :=
  match x with VDict _ => true | _ => false end.

(** [hash(x)]: lists and dictionaries cannot be keys. *)
Definition as_key (x : value) : result key :=
  match x with
  | VNone => Ok KNone
  | VStr s => Ok (KStr s)
  | VInt z => Ok (KInt z)
  | VList _ | VDict _ => Raise TypeError
  end.

Definition of_key (k : key) : value :=
  match k with
  | KNone => VNone
  | KStr s => VStr s
  | KInt z => VInt z
  end.

Fixpoint lookup_key (k : key) (items : list (key * value)) : option value :=
  match items with
  | [] => None
  | (k', v) :: items' =>
      if decide (k' = k) then Some v else lookup_key k items'
  end.

(** [d[k] = v] on the items of a dictionary. *)
Fixpoint store_key (k : key) (v : value) (items : list (key * value))
  : list (key * value) :=
  match items with
  | [] => [(k, v)]
  | (k', v') :: items' =>
      if decide (k' = k) then (k', v) :: items'
      else (k', v') :: store_key k v items'
  end.

(** [d.get(k, default)] *)
Definition dict_get (d : value) (k default : value) : result value :=
  match d with
  | VDict items =>
      do k' <- as_key k;
      match lookup_key k' items with
      | Some v => Ok v
      | None => Ok default
      end
  | _ => Raise AttributeError
  end.

(** [iter(x)]: the elements of a list, the characters of a string, the
    keys of a dictionary. *)
Definition iterate (x : value) : result (list value) :=
  match x with
  | VList items => Ok items
  | VStr s => Ok (map (fun c => VStr [c]) s)
  | VDict items => Ok (map (fun kv => of_key kv.1) items)
  | VNone | VInt _ => Raise TypeError
  end.

(** [dict(pairs)] *)
Fixpoint dict_of (pairs : list (value * value)) (items : list (key * value))
  : result (list (key * value)) :=
  match pairs with
  | [] => Ok items
  | (k, v) :: pairs' =>
      do k' <- as_key k;
      dict_of pairs' (store_key k' v items)
  end.

(** A dictionary with the keys ['language'] and ['translation'] becomes
    [dict(zip(d['language'], d['translation']))]. *)
Definition process_translation (d : value) : result value :=
  match d with
  | VDict items =>
      match lookup_key (KStr (lit "language")) items,
            lookup_key (KStr (lit "translation")) items with
      | Some languages, Some translations =>
          do ls <- iterate languages;
          do ts <- iterate translations;
          do zipped <- dict_of (zip ls ts) [];
          Ok (VDict zipped)
      | _, _ => Ok d
      end
  | _ => Ok d
  end.

(** [lambda x: ast.literal_eval(x) if isinstance(x, str) else x] *)
Definition parse (literal_eval : str -> result value) (x : value)
  : result value :=
  match x with
  | VStr s => literal_eval s
  | _ => Ok x
  end.

(** [lambda d: d.get(lang, None) if isinstance(d, dict) else None] *)
Definition extract (lang : str) (d : value) : result value :=
  if isinstance_dict d then dict_get d (VStr lang) VNone else Ok VNone.

Definition language_map : list (str * str) :=
  [ (lit "en", lit "eng"); (lit "fr", lit "fra"); (lit "de", lit "deu");
    (lit "ar", lit "arb"); (lit "zh", lit "zho") ].

(** [xnli[name] = xnli[name].apply(f)] *)
Definition apply_column (name : str) (f : value -> result value)
  (into : str) (xnli : DataFrame.frame value)
  : result (DataFrame.frame value) :=
  do column <- DataFrame.get name xnli;
  do values <- map_result f column;
  Ok (DataFrame.set into values xnli).

(** The loop over the language map. *)
Fixpoint extract_languages (todo : list (str * str))
  (xnli : DataFrame.frame value) : result (DataFrame.frame value) :=
  match todo with
  | [] => Ok xnli
  | (lang, prefix) :: todo' =>
      do xnli <- apply_column (lit "premise") (extract lang)
                   (prefix ++ lit "_premise") xnli;
      do xnli <- apply_column (lit "hypothesis") (extract lang)
                   (prefix ++ lit "_hypothesis") xnli;
      extract_languages todo' xnli
  end.

(** The fields are parsed where they are strings, and the hypothesis is
    brought to the form of the premise. *)
Definition parse_fields (literal_eval : str -> result value)
  (xnli : DataFrame.frame value) : result (DataFrame.frame value) :=
  do xnli <- apply_column (lit "premise") (parse literal_eval)
               (lit "premise") xnli;
  do xnli <- apply_column (lit "hypothesis") (parse literal_eval)
               (lit "hypothesis") xnli;
  apply_column (lit "hypothesis") process_translation
    (lit "hypothesis") xnli.

(** The frame written to [datasets/xnli.csv]. *)
Definition xnli_frame (literal_eval : str -> result value)
  (xnli : DataFrame.frame value) : result (DataFrame.frame value) :=
  do xnli <- parse_fields literal_eval xnli;
  extract_languages language_map xnli.

End Prepare.

(** ** What the properties are stated with *)

(** A word has at least one character and no whitespace. *)
Definition word (w : str) : Prop :=
  w ≠ [] ∧ Forall (fun c => isspace c = false) w.

(** An event after which the run goes on, and one with which it stops on
    the exception [z]. *)
Definition succeeds (ev : event) : Prop :=
  match ev with
  | ESample _ _ => True
  | EInvoke _ (Ok _) => True
  | EInvoke _ (Raise _) => False
  | EWrite _ _ => False
  end.

Definition fails (ev : event) (z : exn) : Prop :=
  match ev with
  | ESample _ _ => z = ValueError
  | EInvoke _ (Ok _) => False
  | EInvoke _ (Raise z') => z' = z
  | EWrite _ _ => False
  end.

(** The exception of a result, if any. *)
Definition err {A} (r : result A) : option exn :=
  match r with
  | Ok _ => None
  | Raise z => Some z
  end.

(** [Run P l T o]: the events [T] of a stage over the rows [l], one event
    per row and in the order of the rows, each related to its row by [P];
    the stage went through all rows ([o = None]) or stopped at a row with
    the exception [z] ([o = Some z]), with or without an event for that
    row. *)
Inductive Run {A} (P : A -> event -> Prop)
  : list A -> list event -> option exn -> Prop :=
  | Run_done : Run P [] [] None
  | Run_step x l ev T o :
      P x ev -> succeeds ev -> Run P l T o -> Run P (x :: l) (ev :: T) o
  | Run_fail x l ev z :
      P x ev -> fails ev z -> Run P (x :: l) [ev] (Some z)
  | Run_stop x l z : Run P (x :: l) [] (Some z).

(** The event stage 1 leaves for the text of a row. *)
Definition masked_by (m : Pipeline.masker) (c : cell) (ev : event) : Prop :=
  match m with
  | Pipeline.ByService prompt => ∃ o, ev = EInvoke (prompt (format c)) o
  | Pipeline.AtRandom rate =>
      ∃ s, c = CStr s ∧
           ev = ESample (length (split s))
                  (sample_count (length (split s)) rate)
  end.

(** The event stage 2 leaves for a row. *)
Definition filled_by (fill : DataFrame.row -> result str)
  (row : DataFrame.row) (ev : event) : Prop :=
  ∃ q o, fill row = Ok q ∧ ev = EInvoke q o.

(** Stage 1 went through all rows of [df] with the events [T1] and left
    the frame [df1], or was skipped. *)
Definition stage1_done (p : Pipeline.t) (df : DataFrame.t)
  (T1 : list event) (df1 : DataFrame.t) : Prop :=
  (Pipeline.skips p df = true ∧ T1 = [] ∧ df1 = df) ∨
  (Pipeline.skips p df = false ∧
   ∃ src masked,
     DataFrame.find (Pipeline.key p) df = Some src ∧
     Run (masked_by (Pipeline.masking p)) src T1 None ∧
     length masked = length src ∧
     df1 = DataFrame.set (Pipeline.intermediate p) (map CStr masked) df).

(** The ways a run of the pipeline on the retained rows [df] can end, with
    the events it leaves. *)
Inductive outcome (p : Pipeline.t) (e : env) (df : DataFrame.t)
  : list event -> result unit -> Prop :=
  | no_key :
      Pipeline.skips p df = false ->
      DataFrame.find (Pipeline.key p) df = None ->
      outcome p e df [] (Raise KeyError)
  | stage1_stops src T1 z :
      Pipeline.skips p df = false ->
      DataFrame.find (Pipeline.key p) df = Some src ->
      Run (masked_by (Pipeline.masking p)) src T1 (Some z) ->
      outcome p e df T1 (Raise z)
  | stage2_stops df1 T1 T2 z :
      stage1_done p df T1 df1 ->
      Run (filled_by (Pipeline.fill p)) (DataFrame.rows df1) T2 (Some z) ->
      outcome p e df (T1 ++ T2) (Raise z)
  | write_stops df1 T1 T2 out z :
      stage1_done p df T1 df1 ->
      Run (filled_by (Pipeline.fill p)) (DataFrame.rows df1) T2 None ->
      length out = DataFrame.nrows df1 ->
      write_error e (Pipeline.path p)
        (DataFrame.set (Pipeline.output_column p) (map CStr out) df1)
        = Some z ->
      outcome p e df
        (T1 ++ T2
         ++ [EWrite (Pipeline.path p)
               (DataFrame.set (Pipeline.output_column p) (map CStr out) df1)])
        (Raise z)
  | written df1 T1 T2 out :
      stage1_done p df T1 df1 ->
      Run (filled_by (Pipeline.fill p)) (DataFrame.rows df1) T2 None ->
      length out = DataFrame.nrows df1 ->
      write_error e (Pipeline.path p)
        (DataFrame.set (Pipeline.output_column p) (map CStr out) df1)
        = None ->
      outcome p e df
        (T1 ++ T2
         ++ [EWrite (Pipeline.path p)
               (DataFrame.set (Pipeline.output_column p) (map CStr out) df1)])
        (Ok tt).

(** [f] leaves at most one event per element, related to the element by
    [P]: none only when it raises, and one that fits its result. *)
Definition emits {A B} (f : A -> M B) (P : A -> event -> Prop) : Prop :=
  ∀ x e w,
    (trace (f x e w).1 = trace w ∧ is_Some (err (f x e w).2)) ∨
    (∃ ev, trace (f x e w).1 = trace w ++ [ev] ∧ P x ev ∧
           match (f x e w).2 with
           | Ok _ => succeeds ev
           | Raise z => fails ev z
           end).

(** Whether stage 1 of a script sends requests to the service: the
    randomized script masks locally, and the multi-language script skips
    the stage when the input has the placeholders. *)
Definition masks_by_service (s : script) (df : DataFrame.t) : bool :=
  match s with
  | Randomly _ => false
  | Extremely _ =>
      negb (DataFrame.has_column (lit "placeholder_text") df)
  | _ => true
  end.

(** How every masking prompt starts, and no filling prompt. *)
Definition mask_prefix : str := 10%N :: lit "You are an".

(** The cells stage 1 reads. *)
Definition key_cells (s : script) (df : DataFrame.t) : list cell :=
  default [] (DataFrame.find (Pipeline.key (pipeline_of s)) df).

(** A column holds the values [v] in its first rows. *)
Definition holds (df : DataFrame.t) (name : str) (v : list cell) : Prop :=
  ∀ i x, v !! i = Some x -> DataFrame.find name df ≫= (.!! i) = Some x.

(** [a <= b] on strings, as a relation. *)
Definition str_le (a b : str) : Prop := Prepare.str_leb a b.

(** What is known of the sort of the positions: for every list of keys it
    gives the positions of the list, each once, in an order in which the
    keys ascend.  Nothing is said of the order of equal keys. *)
Definition sorts (argsort : list str -> list nat) : Prop :=
  ∀ keys,
    argsort keys ≡ₚ seq 0 (length keys) ∧
    Sorted str_le (omap (fun i => keys !! i) (argsort keys)).

(** The translation a field holds for a language: the value under the
    key when the field is a dictionary that has the key, [None]
    otherwise. *)
Definition translation (lang : str) (d : Prepare.value) : Prepare.value :=
  match d with
  | Prepare.VDict items =>
      default Prepare.VNone (Prepare.lookup_key (Prepare.KStr lang) items)
  | _ => Prepare.VNone
  end.

(** The [--sample_size] a script was given, and the column whose
    duplicates it drops before it takes the sample. *)
Definition size_of (s : script) : option Z :=
  match s with
  | Linguistically a | Reversed a | Randomly a => sample_size a
  | Extremely a => Extreme.sample_size a
  end.

Definition dedup_of (s : script) : option str :=
  match s with
  | Linguistically a => Some (source_column a)
  | Reversed a => Some (target_column a)
  | Extremely a => Some (Extreme.source_column a)
  | Randomly _ => None
  end.

(** The prompts stage 1 sends for the cells [cells]: one for each cell
    when the script masks by the service, none when it masks at random. *)
Definition mask_prompts (s : script) (cells : list cell) : list str :=
  match Pipeline.masking (pipeline_of s) with
  | Pipeline.ByService prompt => map (fun c => prompt (format c)) cells
  | Pipeline.AtRandom _ => []
  end.

(** A text the random masking accepts: a string with at least one word
    (and fewer than [2^50]: the count is computed in binary64). *)
Definition maskable (c : cell) : Prop :=
  ∃ text,
    c = CStr text ∧ (1 <= length (split text))%nat ∧
    Z.of_nat (length (split text)) < 2 ^ 50.

(** The rows of a frame that a mask selects. *)
Definition rows_where (mask : list bool) (df : DataFrame.t) : DataFrame.t :=
  map (fun '(name, v) => (name, DataFrame.select mask v)) df.

(** ** What the further properties are stated with *)

(** The directory a script writes to, and what it puts between the stem of
    the input and the name of the result column. *)
Definition output_dir_of (s : script) : str :=
  match s with
  | Linguistically a | Reversed a | Randomly a => output_dir a
  | Extremely a => Extreme.output_dir a
  end.

Definition infix_of (s : script) : str :=
  match s with
  | Linguistically _ | Extremely _ => lit "_with_"
  | Reversed _ => lit "_reverse_"
  | Randomly _ => lit "_rnd_"
  end.

(** The directory part of a path is empty or ends with the separator. *)
Definition directory (d : str) : Prop := d = [] ∨ last d = Some OsPath.sep.

(** An extension is empty, or a dot followed by characters other than the
    dot. *)
Definition extension (ext : str) : Prop :=
  ext = [] ∨ ∃ rest, ext = OsPath.extsep :: rest ∧ OsPath.extsep ∉ rest.

(** The number of commas of a string. *)
Definition commas (s : str) : nat := length (filter (fun c => c = 44%N) s).

(** A string that neither starts nor ends with whitespace. *)
Definition stripped (s : str) : Prop :=
  (∀ c, head s = Some c -> isspace c = false) ∧
  (∀ c, last s = Some c -> isspace c = false).

(** The answers the service gave, in order. *)
Fixpoint answers (tr : list event) : list str :=
  match tr with
  | [] => []
  | EInvoke _ (Ok a) :: tr' => a :: answers tr'
  | _ :: tr' => answers tr'
  end.

(** What a row of a stage leaves when it goes well: the event and the
    value for the new column. *)
Definition masked_to (m : Pipeline.masker) (c : cell) (ev : event)
  (y : str) : Prop :=
  match m with
  | Pipeline.ByService prompt =>
      ∃ a, ev = EInvoke (prompt (format c)) (Ok a) ∧ y = strip a
  | Pipeline.AtRandom rate =>
      ∃ text indices,
        c = CStr text ∧
        ev = ESample (length (split text))
               (sample_count (length (split text)) rate) ∧
        y = join (lit " ") (mask_words (split text) indices) ∧
        indices ≠ [] ∧ NoDup indices ∧
        ∀ i, i ∈ indices -> (i < length (split text))%nat
  end.

Definition filled_to (fill : DataFrame.row -> result str)
  (row : DataFrame.row) (ev : event) (y : str) : Prop :=
  ∃ q a, fill row = Ok q ∧ ev = EInvoke q (Ok a) ∧ y = strip a.

(** The columns stage 2 reads besides the intermediate one. *)
Definition parallel_columns_of (s : script) : list str :=
  match s with
  | Linguistically a | Randomly a => [target_column a]
  | Reversed a => [source_column a]
  | Extremely a => Extreme.parse_list (Extreme.target_columns a)
  end.

(** [names] with [name] added at the end unless it is there. *)
Definition with_column (names : list str) (name : str) : list str :=
  if decide (name ∈ names) then names else names ++ [name].

(** The columns the loop over the language map adds to the XNLI frame. *)
Definition xnli_columns : list str :=
  flat_map (fun '(_, prefix) =>
              [prefix ++ lit "_premise"; prefix ++ lit "_hypothesis"])
    Prepare.language_map.

(** A column that holds only missing values from row [m] on. *)
Definition missing_from (m : nat) (v : list cell) : Prop :=
  ∀ i, (m <= i)%nat -> (i < length v)%nat -> v !! i = Some CNaN.

(** A column of a frame that continues the values [v] with missing
    values. *)
Definition continues (df : DataFrame.t) (name : str) (v : list cell)
  : Prop :=
  ∃ column, DataFrame.find name df = Some column ∧
            missing_from (length v) column.

(** [isinstance(x, str)] *)
Definition isinstance_str (x : Prepare.value) : bool :=
  match x with Prepare.VStr _ => true | _ => false end.

(** ** Small inputs on which the scripts are run *)

Module Demo.

Definition frame : DataFrame.t :=
  [ (lit "en", [ CStr (lit "the cat sat on the mat");
                 CStr (lit "a dog barked") ]);
    (lit "fr", [ CStr (lit "le chat est assis sur le tapis");
                 CStr (lit "un chien a aboye") ]) ].

(** The same rows with the placeholders already in the input. *)
Definition masked_frame : DataFrame.t :=
  frame ++
  [ (lit "placeholder_text", [ CStr (lit "the ####### sat on the #######");
                               CStr (lit "a ####### barked") ]) ].

(** A service that answers every request. *)
Definition service (i : nat) (prompt : str) : result str :=
  Ok (lit "  the chat sat on the tapis
").

(** A service that is overloaded from its second request on. *)
Definition overloaded (i : nat) (prompt : str) : result str :=
  if (i =? 0)%nat then Ok (lit "the ####### sat on the #######")
  else Raise (ServiceError 529).

Definition env_of (claude : nat -> str -> result str) (df : DataFrame.t)
  : env :=
  Env (fun i => (7 * i + 3)%nat) claude (fun _ => Ok df) (fun _ _ => None).

Definition arguments (size : option Z) : args :=
  Args (lit "data/parallel.csv") (lit "en") (lit "fr") (lit "French")
    (lit "csw") (lit "out") size.

Definition extreme_arguments : Extreme.args :=
  Extreme.Args (lit "data/parallel.csv") (lit "en") (lit "fr")
    (lit "French") (lit "csw") (lit "out") None.

(** A frame of XNLI with one row. *)
Definition xnli : DataFrame.frame Prepare.value :=
  [ (lit "premise",
       [ Prepare.VDict
           [ (Prepare.KStr (lit "en"), Prepare.VStr (lit "It rains."));
             (Prepare.KStr (lit "fr"), Prepare.VStr (lit "Il pleut.")) ] ]);
    (lit "hypothesis",
       [ Prepare.VDict
           [ (Prepare.KStr (lit "language"),
                Prepare.VList
                  [ Prepare.VStr (lit "en"); Prepare.VStr (lit "fr") ]);
             (Prepare.KStr (lit "translation"),
                Prepare.VList
                  [ Prepare.VStr (lit "It is wet.");
                    Prepare.VStr (lit "C'est mouille.") ]) ] ]) ].

Definition literal_eval (s : str) : result Prepare.value := Raise ValueError.

Definition parsed_xnli : DataFrame.frame Prepare.value :=
  match Prepare.parse_fields literal_eval xnli with
  | Ok parsed => parsed
  | Raise _ => []
  end.

(** The scripts on these inputs. *)
Definition linguistic : script := Linguistically (arguments None).
Definition randomized : script := Randomly (arguments None).
Definition extreme : script := Extremely extreme_arguments.
Definition negative : script := Linguistically (arguments (Some (-1))).

Definition plain_env : env := env_of service frame.
Definition masked_env : env := env_of service masked_frame.
Definition overloaded_env : env := env_of overloaded frame.

(** What the linguistically motivated script writes. *)
Definition written : str * DataFrame.t :=
  match last (trace (main_of linguistic plain_env world0).1) with
  | Some (EWrite path out) => (path, out)
  | _ => ([], [])
  end.

End Demo.

(** ** Further small inputs *)

Module Cases.

(** A script whose parallel column is not in the frame, and one whose
    source column is not. *)
Definition german : script :=
  Linguistically
    (Args (lit "data/parallel.csv") (lit "en") (lit "de") (lit "German")
       (lit "csw") (lit "out") None).

Definition spanish : script :=
  Linguistically
    (Args (lit "data/parallel.csv") (lit "es") (lit "fr") (lit "French")
       (lit "csw") (lit "out") None).

(** A script that takes one row. *)
Definition first_row : script := Linguistically (Demo.arguments (Some 1)).

(** A frame with a source cell without a word. *)
Definition blank_frame : DataFrame.t :=
  [ (lit "en", [ CStr (lit "the cat sat on the mat"); CStr (lit "   ") ]);
    (lit "fr", [ CStr (lit "le chat est assis sur le tapis");
                 CStr (lit "un chien a aboye") ]) ].

Definition blank_env : env := Demo.env_of Demo.service blank_frame.

(** What the scripts leave on the small inputs. *)
Definition left_by (s : script) (e : env) : world := (main_of s e world0).1.

Definition result_of (s : script) (e : env) : result unit :=
  (main_of s e world0).2.

(** A sentence masked at random. *)
Definition masked : world * result str :=
  insert_placeholders_random (CStr (lit "the cat sat on the mat"))
    Float.rate_0_2 Demo.plain_env world0.

Definition masked_text : str :=
  match masked.2 with Ok out => out | Raise _ => [] end.

(** The prompt of the multi-language script for the first row. *)
Definition multi_prompt : str :=
  match fill_of Demo.extreme (DataFrame.get_row Demo.masked_frame 0) with
  | Ok q => q
  | Raise _ => []
  end.

(** Test splits of MMLU: the French one has a row less. *)
Definition eng_mmlu : DataFrame.t :=
  [ (lit "question", [ CStr (lit "What is 2 + 2?");
                       CStr (lit "What is 3 + 3?") ]);
    (lit "answer", [ CNum (lit "1"); CNum (lit "2") ]) ].

Definition fra_mmlu : DataFrame.t :=
  [ (lit "Question", [ CStr (lit "Combien font 2 + 2 ?") ]) ].

Definition deu_mmlu : DataFrame.t :=
  [ (lit "Question", [ CStr (lit "Was ist 2 + 2?");
                       CStr (lit "Was ist 3 + 3?");
                       CStr (lit "Was ist 4 + 4?") ]) ].

(** A sort of the positions by their keys: a merge sort of the keys
    paired with their positions. *)
Definition key_le (a b : nat * str) : Prop := Prepare.str_leb a.2 b.2.

#[global] Instance key_le_dec : RelDecision key_le.
Proof. intros a b. unfold key_le. apply _. Defined.

Definition argsort (keys : list str) : list nat :=
  map fst (merge_sort key_le (zip (seq 0 (length keys)) keys)).

(** Test splits of Belebele: two questions on one passage and one on
    another, in every subset in the same order. *)
Definition question_of (subset : str) (link : str) (n : Z)
  : Prepare.passage :=
  Prepare.Passage link n (subset ++ lit " passage of " ++ link)
    (subset ++ lit " question " ++ Prepare.show_int n)
    (lit "a") (lit "b") (lit "c") (lit "d") (lit "1") subset (lit "2023").

Definition splits (subset : str) : list Prepare.passage :=
  [ question_of subset (lit "wiki/b") 1;
    question_of subset (lit "wiki/a") 1;
    question_of subset (lit "wiki/b") 2 ].

(** A hypothesis of XNLI as two parallel lists. *)
Definition hypothesis_items : list (Prepare.key * Prepare.value) :=
  [ (Prepare.KStr (lit "language"),
       Prepare.VList [ Prepare.VStr (lit "en"); Prepare.VStr (lit "fr") ]);
    (Prepare.KStr (lit "translation"),
       Prepare.VList [ Prepare.VStr (lit "It is wet.");
                       Prepare.VStr (lit "C'est mouille.") ]) ].

End Cases.

(** * Properties *)

(** ** [int(n * 0.2)] is [n // 5] *)

Section float_facts.

Import Float.

Lemma round53_exact m e : 0 <= m < 2 ^ 53 -> round53 m e = (m, e).
Proof.
  intros [Hm0 Hm]. unfold round53.
  destruct (Z.eq_dec m 0) as [->|Hne]; [reflexivity|].
  assert (Z.log2 m < 53) by (apply Z.log2_lt_pow2; lia).
  destruct (Z.leb_spec (Z.log2 m + 1 - 53) 0); [reflexivity | lia].
Qed.

Lemma round_half_even_bounds m sh :
  0 <= m -> 0 < sh ->
  m / 2 ^ sh <= round_half_even m sh /\
  round_half_even m sh * 2 ^ sh <= m + 2 ^ (sh - 1).
Proof.
  intros Hm Hsh. unfold round_half_even.
  assert (HD : 2 ^ sh = 2 * 2 ^ (sh - 1)).
  { replace sh with (Z.succ (sh - 1)) at 1 by lia.
    rewrite Z.pow_succ_r by lia. reflexivity. }
  assert (Hh : 0 < 2 ^ (sh - 1)) by (apply Z.pow_pos_nonneg; lia).
  pose proof (Z.div_mod m (2 ^ sh) ltac:(lia)) as Hdm.
  pose proof (Z.mod_pos_bound m (2 ^ sh) ltac:(lia)) as Hmod.
  set (q := m / 2 ^ sh) in *. set (r := m mod 2 ^ sh) in *.
  set (h := 2 ^ (sh - 1)) in *.
  destruct ((h <? r) || ((r =? h) && Z.odd q)) eqn:Hc.
  - split; [lia|].
    assert (h <= r).
    { apply orb_true_iff in Hc as [Hc|Hc].
      - apply Z.ltb_lt in Hc. lia.
      - apply andb_true_iff in Hc as [Hc _]. apply Z.eqb_eq in Hc. lia. }
    nia.
  - split; [lia|]. nia.
Qed.

(** For every word count a machine can hold, the count of placeholders
    computed in binary64 is the exact fifth, rounded down. *)
Lemma int_mul_rate (n : Z) :
  0 <= n < 2 ^ 50 ->
  to_int (mul (of_int n) rate_0_2) = n / 5.
Proof.
  intros Hn.
  assert (H250 : 2 ^ 50 = 1125899906842624) by reflexivity.
  assert (H253 : 2 ^ 53 = 9007199254740992) by reflexivity.
  assert (H254 : 2 ^ 54 = 18014398509481984) by reflexivity.
  unfold of_int. rewrite round53_exact by lia.
  unfold mul, rate_0_2. cbn [fst snd].
  set (p := n * 3602879701896397).
  pose proof (Z.div_mod n 5 ltac:(lia)) as Hn5.
  pose proof (Z.mod_pos_bound n 5 ltac:(lia)) as Hr5.
  set (k := n / 5) in *. set (r := n mod 5) in *.
  unfold round53.
  destruct (Z.leb_spec (Z.log2 p + 1 - 53) 0) as [Hsh|Hsh].
  - (* the product is exact *)
    assert (Hp : p < 2 ^ 53).
    { destruct (Z.eq_dec p 0) as [->|Hp0]; [lia|].
      apply Z.log2_lt_pow2; lia. }
    cbn [to_int]. change (0 <=? 0 + -54) with false. cbv iota.
    change (- (0 + -54)) with 54.
    rewrite Z.div_small by lia. lia.
  - (* the product is rounded *)
    set (sh := Z.log2 p + 1 - 53) in *.
    assert (Hp0 : 0 < p).
    { destruct (Z.le_gt_cases p 0) as [Hle|]; [|lia].
      exfalso. pose proof (Z.log2_nonpos p Hle). unfold sh in Hsh. lia. }
    assert (Hsh49 : sh <= 49).
    { assert (Z.log2 p < 102); [|lia].
      apply Z.log2_lt_pow2; [lia|].
      assert (2 ^ 102 = 2 ^ 50 * 4503599627370496) by reflexivity. nia. }
    destruct (round_half_even_bounds p sh ltac:(lia) ltac:(lia)) as [Hlo Hhi].
    set (q' := round_half_even p sh) in *.
    cbn [to_int].
    destruct (Z.leb_spec 0 (0 + -54 + sh)) as [?|_]; [lia|].
    replace (- (0 + -54 + sh)) with (54 - sh) by lia.
    assert (HD : 2 ^ sh = 2 * 2 ^ (sh - 1)).
    { replace sh with (Z.succ (sh - 1)) at 1 by lia.
      rewrite Z.pow_succ_r by lia. reflexivity. }
    assert (HDE : 2 ^ sh * 2 ^ (54 - sh) = 2 ^ 54).
    { rewrite <- Z.pow_add_r by lia. f_equal. lia. }
    assert (Hhp : 2 ^ (sh - 1) * 2 ^ 53 <= p).
    { rewrite <- Z.pow_add_r by lia.
      replace (sh - 1 + 53) with (Z.log2 p) by lia.
      apply Z.log2_spec. lia. }
    assert (Hh : 0 < 2 ^ (sh - 1)) by (apply Z.pow_pos_nonneg; lia).
    assert (HE : 0 < 2 ^ (54 - sh)) by (apply Z.pow_pos_nonneg; lia).
    pose proof (Z.div_mod p (2 ^ sh) ltac:(lia)) as Hdm.
    pose proof (Z.mod_pos_bound p (2 ^ sh) ltac:(lia)) as Hmod.
    set (D := 2 ^ sh) in *. set (E := 2 ^ (54 - sh)) in *.
    set (h := 2 ^ (sh - 1)) in *.
    assert (Hpk : k * 2 ^ 54 <= p) by (unfold p; lia).
    assert (Hpk' : p + h < (k + 1) * 2 ^ 54) by (unfold p; lia).
    symmetry. apply (Z.div_unique q' E k (q' - E * k)); [|lia].
    left. split.
    + assert (k * E <= p / D); [|lia].
      apply Z.div_le_lower_bound; [lia|]. nia.
    + assert (q' * D < (k + 1) * E * D) by nia.
      nia.
Qed.

End float_facts.

(** ** Words: [split] and [join] *)

Section words.

Local Open Scope nat_scope.

Lemma split_go_words s acc :
  Forall (fun c => isspace c = false) acc ->
  Forall word (split_go acc s).
Proof.
  revert acc. induction s as [|c s IH]; intros acc Hacc; cbn [split_go].
  - destruct acc; constructor; [|constructor]. split; [done|done].
  - destruct (isspace c) eqn:Hc.
    + apply Forall_app. split; [|by apply IH].
      destruct acc; constructor; [|constructor]. split; done.
    + apply IH. apply Forall_app. split; [done|]. by constructor.
Qed.

Lemma split_words s : Forall word (split s).
Proof. apply split_go_words. constructor. Qed.

Lemma split_go_app w acc rest :
  Forall (fun c => isspace c = false) w ->
  split_go acc (w ++ rest) = split_go (acc ++ w) rest.
Proof.
  revert acc. induction w as [|c w IH]; intros acc Hw; cbn [app split_go].
  - by rewrite app_nil_r.
  - inversion Hw as [|? ? Hc Hw']; subst. rewrite Hc.
    rewrite IH by done. by rewrite <- app_assoc.
Qed.

Lemma emit_word w : word w -> emit w = [w].
Proof. intros [Hne _]. by destruct w. Qed.

(** Joining words with a space and splitting again gives the words
    back. *)
Lemma split_join ws : Forall word ws -> split (join (lit " ") ws) = ws.
Proof.
  change (lit " ") with [32%N]. unfold split.
  induction ws as [|w ws IH]; intros Hws; [reflexivity|].
  inversion Hws as [|? ? Hw Hws']; subst.
  destruct ws as [|w2 ws].
  - cbn [join]. rewrite <- (app_nil_r w) at 1.
    rewrite split_go_app by apply Hw. cbn [app split_go].
    by apply emit_word.
  - change (join [32%N] (w :: w2 :: ws))
      with (w ++ 32%N :: join [32%N] (w2 :: ws)).
    rewrite split_go_app by apply Hw. cbn [app split_go].
    change (isspace 32) with true. cbv iota.
    rewrite emit_word by done. rewrite IH by done. reflexivity.
Qed.

Lemma placeholder_word : word placeholder.
Proof.
  split; [done|]. unfold placeholder.
  repeat (constructor; [reflexivity|]). constructor.
Qed.

(** A text has no word exactly when it is empty or all whitespace. *)
Lemma split_go_nil s acc :
  split_go acc s = [] ↔ acc = [] ∧ forallb isspace s = true.
Proof.
  revert acc. induction s as [|c s IH]; intros acc; cbn [split_go forallb].
  - destruct acc; cbn; intuition congruence.
  - destruct (isspace c); cbn [andb].
    + rewrite app_nil. rewrite IH. destruct acc; cbn; intuition congruence.
    + rewrite IH. split; [|intros [_ ?]; done].
      intros [Hacc _]. by destruct acc.
Qed.

Lemma split_nil s : split s = [] ↔ forallb isspace s = true.
Proof. unfold split. rewrite split_go_nil. intuition. Qed.

(** *** Masking words *)

Lemma length_mask_words ws indices :
  length (mask_words ws indices) = length ws.
Proof.
  unfold mask_words. revert ws.
  induction indices as [|j indices IH]; intros ws; cbn [foldl]; [done|].
  rewrite IH. apply length_insert.
Qed.

Lemma lookup_mask_words ws indices i :
  mask_words ws indices !! i =
    if decide (i ∈ indices) then (fun _ => placeholder) <$> ws !! i
    else ws !! i.
Proof.
  unfold mask_words. revert ws.
  induction indices as [|j indices IH]; intros ws; cbn [foldl].
  - rewrite decide_False; [done|]. apply not_elem_of_nil.
  - rewrite IH. destruct (decide (j = i)) as [->|Hne].
    + rewrite (decide_True _ _ (list_elem_of_here i indices)).
      destruct (decide (i < length ws)) as [Hlt|Hge].
      * rewrite list_lookup_insert_eq by done.
        destruct (lookup_lt_is_Some_2 ws i Hlt) as [x ->].
        destruct (decide (i ∈ indices)); reflexivity.
      * rewrite list_insert_ge by lia.
        rewrite (lookup_ge_None_2 ws i) by lia.
        destruct (decide (i ∈ indices)); reflexivity.
    + rewrite list_lookup_insert_ne by done.
      destruct (decide (i ∈ indices)) as [Hin|Hnin].
      * rewrite decide_True; [done|]. by apply list_elem_of_further.
      * rewrite decide_False; [done|].
        rewrite elem_of_cons. intuition congruence.
Qed.

Lemma mask_words_words ws indices :
  Forall word ws -> Forall word (mask_words ws indices).
Proof.
  unfold mask_words. revert ws.
  induction indices as [|j indices IH]; intros ws Hws; cbn [foldl]; [done|].
  apply IH. apply Forall_insert; [done|]. apply placeholder_word.
Qed.

End words.

(** ** [random.sample] returns distinct elements of the population *)

Section sampling.

Local Open Scope nat_scope.

(** Taking the element at [j] and moving the last element into its place
    leaves the other elements of the pool. *)
Lemma pool_step (pool : list nat) j x y :
  pool !! j = Some x -> last pool = Some y ->
  x :: take (length pool - 1) (<[j:=y]> pool) ≡ₚ pool.
Proof.
  intros Hj Hlast. apply last_Some in Hlast as [init ->].
  rewrite length_app. cbn [length].
  replace (length init + 1 - 1) with (length init) by lia.
  destruct (decide (j < length init)) as [Hlt|Hge].
  - rewrite insert_app_l by done.
    rewrite take_app_length' by (by rewrite length_insert).
    rewrite lookup_app_l in Hj by done.
    rewrite insert_take_drop by done.
    rewrite <- (take_drop_middle init j x Hj) at 3.
    rewrite (Permutation_app_comm _ [y]). cbn [app].
    rewrite <- !Permutation_middle. apply perm_swap.
  - assert (j = length init) as ->.
    { apply lookup_lt_Some in Hj. rewrite length_app in Hj.
      cbn [length] in Hj. lia. }
    rewrite list_lookup_middle in Hj by done. injection Hj as <-.
    rewrite list_insert_id by (by rewrite list_lookup_middle).
    rewrite take_app_length.
    by rewrite Permutation_app_comm.
Qed.

Lemma sample_loop_spec k (pool : list nat) e w :
  k <= length pool ->
  ∃ l rest,
    Random.sample_loop k pool e w
      = (World (trace w) (draws w + k) (calls w), Ok l) ∧
    length l = k ∧ l ++ rest ≡ₚ pool.
Proof.
  revert pool w. induction k as [|k IH]; intros pool w Hk.
  - exists [], pool. cbn. rewrite Nat.add_0_r. by destruct w.
  - cbn [Random.sample_loop]. unfold bind at 1, Random.randbelow.
    set (j := randbits e (draws w) mod length pool).
    assert (Hj : j < length pool) by (apply Nat.mod_upper_bound; lia).
    destruct (lookup_lt_is_Some_2 pool j Hj) as [x Hx].
    assert (is_Some (last pool)) as [y Hy].
    { apply last_is_Some. intros ->. cbn in Hk. lia. }
    rewrite Hx, Hy.
    set (pool' := take (length pool - 1) (<[j:=y]> pool)).
    assert (Hperm : x :: pool' ≡ₚ pool) by by apply pool_step.
    assert (Hlen : length pool' = length pool - 1).
    { apply Permutation_length in Hperm. cbn in Hperm. lia. }
    destruct (IH pool' (World (trace w) (S (draws w)) (calls w)))
      as (l & rest & Hrun & Hl & Hlr); [lia|].
    exists (x :: l), rest. unfold bind. rewrite Hrun. cbn.
    split; [by replace (draws w + S k) with (S (draws w) + k) by lia|].
    split; [lia|].
    by rewrite Hlr.
Qed.

(** The contract of [random.sample(range(n), k)]. *)
Lemma sample_spec n (k : Z) e w :
  (0 <= k <= Z.of_nat n)%Z ->
  ∃ l,
    Random.sample n k e w
      = (World (trace w ++ [ESample n k]) (draws w + Z.to_nat k) (calls w),
         Ok l) ∧
    length l = Z.to_nat k ∧ NoDup l ∧ ∀ i, i ∈ l -> i < n.
Proof.
  intros Hk. unfold Random.sample.
  destruct (Z.ltb_spec k 0); [lia|].
  destruct (Z.ltb_spec (Z.of_nat n) k); [lia|].
  cbn [orb].
  destruct (sample_loop_spec (Z.to_nat k) (seq 0 n) e (log w (ESample n k)))
    as (l & rest & Hrun & Hl & Hperm); [rewrite length_seq; lia|].
  exists l. rewrite Hrun. split; [done|]. split; [done|].
  assert (Hnd : NoDup (l ++ rest)) by (rewrite Hperm; apply NoDup_seq).
  apply NoDup_app in Hnd as (Hnd & _ & _). split; [done|].
  intros i Hi.
  assert (i ∈ seq 0 n) as Hin.
  { rewrite <- Hperm. apply elem_of_app. by left. }
  apply elem_of_seq in Hin. lia.
Qed.

Lemma sample_too_large n (k : Z) e w :
  (Z.of_nat n < k)%Z ->
  Random.sample n k e w = (log w (ESample n k), Raise ValueError).
Proof.
  intros Hk. unfold Random.sample.
  destruct (Z.ltb_spec (Z.of_nat n) k); [|lia].
  by rewrite orb_true_r.
Qed.

End sampling.

(** ** The random masking of a sentence *)

Section random_masking.

Local Open Scope nat_scope.

Lemma sample_count_fifth n :
  (Z.of_nat n < 2 ^ 50)%Z ->
  sample_count n Float.rate_0_2 = Z.max 1 (Z.of_nat n / 5).
Proof.
  intros Hn. unfold sample_count. rewrite int_mul_rate by lia. reflexivity.
Qed.

Lemma fifth_in_range n :
  1 <= n -> (0 <= Z.max 1 (Z.of_nat n / 5) <= Z.of_nat n)%Z.
Proof.
  intros Hn. split; [lia|].
  assert (Z.of_nat n / 5 <= Z.of_nat n)%Z
    by (apply Z.div_le_upper_bound; lia).
  lia.
Qed.

(** What [insert_placeholders_random] does on a text with words: the
    sampled positions, and the masked words joined by spaces. *)
Lemma insert_placeholders_random_run e w text :
  1 <= length (split text) ->
  (Z.of_nat (length (split text)) < 2 ^ 50)%Z ->
  ∃ indices,
    insert_placeholders_random (CStr text) Float.rate_0_2 e w
      = (World (trace w
                ++ [ESample (length (split text))
                      (sample_count (length (split text)) Float.rate_0_2)])
               (draws w + length indices) (calls w),
         Ok (join (lit " ") (mask_words (split text) indices))) ∧
    Z.of_nat (length indices) = Z.max 1 (Z.of_nat (length (split text)) / 5) ∧
    NoDup indices ∧ ∀ i, i ∈ indices -> i < length (split text).
Proof.
  intros Hne Hsize.
  unfold insert_placeholders_random, bind, lift, cell_split.
  destruct (sample_spec (length (split text))
              (sample_count (length (split text)) Float.rate_0_2) e w)
    as (l & Hrun & Hlen & Hnd & Hin).
  { rewrite sample_count_fifth by done. by apply fifth_in_range. }
  exists l. rewrite Hrun. unfold ret. rewrite Hlen.
  split; [done|]. split; [|done].
  rewrite sample_count_fifth by done.
  pose proof (fifth_in_range _ Hne). lia.
Qed.

(** C1. For a sentence of [n >= 1] words, [insert_placeholders_random]
    with rate 0.2 returns a sentence with the same number of words in
    which exactly [max(1, n // 5)] distinct positions, drawn by
    [random.sample], hold the placeholder and every other position holds
    the word it held before.  ([n < 2^50]: the count is computed in
    binary64.) *)
Theorem insert_placeholders_random_masks (e : env) (w : world) (text : str) :
  1 <= length (split text) ->
  (Z.of_nat (length (split text)) < 2 ^ 50)%Z ->
  ∃ out indices w',
    insert_placeholders_random (CStr text) Float.rate_0_2 e w = (w', Ok out) ∧
    length (split out) = length (split text) ∧
    NoDup indices ∧
    Z.of_nat (length indices)
      = Z.max 1 (Z.of_nat (length (split text)) / 5) ∧
    (∀ i, i ∈ indices ->
       i < length (split text) ∧ split out !! i = Some placeholder) ∧
    (∀ i, i ∉ indices -> split out !! i = split text !! i).
Proof.
  intros Hne Hsize.
  destruct (insert_placeholders_random_run e w text Hne Hsize)
    as (indices & Hrun & Hlen & Hnd & Hin).
  eexists _, indices, _. split; [exact Hrun|].
  rewrite split_join
    by (apply mask_words_words, split_words).
  split; [apply length_mask_words|]. split; [done|]. split; [done|].
  split.
  - intros i Hi. split; [by apply Hin|].
    rewrite lookup_mask_words, decide_True by done.
    destruct (lookup_lt_is_Some_2 (split text) i (Hin i Hi)) as [x ->].
    reflexivity.
  - intros i Hi. by rewrite lookup_mask_words, decide_False.
Qed.

(** C8. On a text without a word, [insert_placeholders_random] asks
    [random.sample] for one element of an empty range and [ValueError] is
    raised; on a text with at least one word nothing is raised. *)
Theorem insert_placeholders_random_total (e : env) (w : world) (text : str) :
  (Z.of_nat (length (split text)) < 2 ^ 50)%Z ->
  (split text = [] ↔ forallb isspace text = true) ∧
  (forallb isspace text = true ->
     sample_count (length (split text)) Float.rate_0_2 = 1%Z ∧
     ∃ w', insert_placeholders_random (CStr text) Float.rate_0_2 e w
             = (w', Raise ValueError)) ∧
  (forallb isspace text = false ->
     ∃ w' out, insert_placeholders_random (CStr text) Float.rate_0_2 e w
                 = (w', Ok out)).
Proof.
  intros Hsize. split; [apply split_nil|]. split.
  - intros Hsp. apply split_nil in Hsp.
    unfold insert_placeholders_random, bind, lift, cell_split.
    rewrite Hsp. cbn [length]. split; [reflexivity|].
    rewrite sample_too_large by (vm_compute; reflexivity).
    by eexists.
  - intros Hsp.
    assert (1 <= length (split text)) as Hne.
    { destruct (split text) eqn:Hs; [|cbn; lia].
      apply split_nil in Hs. congruence. }
    destruct (insert_placeholders_random_run e w text Hne Hsize)
      as (indices & Hrun & _).
    by eexists _, _.
Qed.

End random_masking.

(** ** Data frames *)

Section frames.

Local Open Scope nat_scope.

Context {C : Type}.
Implicit Types df : DataFrame.frame C.

Lemma find_set_eq name v df :
  DataFrame.find name (DataFrame.set name v df) = Some v.
Proof.
  induction df as [|[n c] df IH]; cbn.
  - by rewrite decide_True.
  - destruct (decide (n = name)) as [->|Hne]; cbn.
    + by rewrite decide_True.
    + by rewrite decide_False.
Qed.

Lemma find_set_ne name name' v df :
  name ≠ name' ->
  DataFrame.find name' (DataFrame.set name v df) = DataFrame.find name' df.
Proof.
  intros Hne. induction df as [|[n c] df IH]; cbn.
  - by rewrite decide_False.
  - destruct (decide (n = name)) as [->|Hn]; cbn.
    + by rewrite !decide_False.
    + by rewrite IH.
Qed.

Lemma find_None name df :
  DataFrame.find name df = None ↔ name ∉ DataFrame.names df.
Proof.
  unfold DataFrame.names. induction df as [|[n c] df IH]; cbn.
  - split; [intros _; apply not_elem_of_nil|done].
  - rewrite not_elem_of_cons. destruct (decide (n = name)) as [->|Hne].
    + split; [done|]. intros [? _]. done.
    + rewrite IH. intuition congruence.
Qed.

Lemma has_column_find name df :
  DataFrame.has_column name df = false ↔ DataFrame.find name df = None.
Proof.
  unfold DataFrame.has_column. rewrite bool_decide_eq_false.
  symmetry. apply find_None.
Qed.

(** A new column is appended. *)
Lemma set_new name v df :
  name ∉ DataFrame.names df -> DataFrame.set name v df = df ++ [(name, v)].
Proof.
  unfold DataFrame.names. induction df as [|[n c] df IH]; cbn; [done|].
  rewrite not_elem_of_cons. intros [Hne Hnin].
  rewrite decide_False by done. by rewrite IH.
Qed.

Lemma names_set name v df :
  DataFrame.names (DataFrame.set name v df) =
    if decide (name ∈ DataFrame.names df) then DataFrame.names df
    else DataFrame.names df ++ [name].
Proof.
  unfold DataFrame.names. induction df as [|[n c] df IH]; cbn.
  - rewrite decide_False; [done|apply not_elem_of_nil].
  - destruct (decide (n = name)) as [->|Hne]; cbn.
    + rewrite decide_True; [done|]. apply list_elem_of_here.
    + rewrite IH. destruct (decide (name ∈ map fst df)) as [Hin|Hnin].
      * rewrite decide_True; [done|]. by apply list_elem_of_further.
      * rewrite decide_False; [done|].
        rewrite not_elem_of_cons. done.
Qed.

End frames.

Section rectangles.

Local Open Scope nat_scope.

Implicit Types df : DataFrame.t.

Lemma rectangular_find df name v :
  DataFrame.rectangular df -> DataFrame.find name df = Some v ->
  length v = DataFrame.nrows df.
Proof.
  unfold DataFrame.rectangular. generalize (DataFrame.nrows df) as k.
  induction df as [|[n c] df IH]; intros k Hrect; cbn; [done|].
  inversion Hrect as [|? ? Hc Hrest]; subst.
  destruct (decide (n = name)); [|by apply IH].
  intros [= <-]. done.
Qed.

Lemma nrows_set_old name v df :
  df ≠ [] -> length v = DataFrame.nrows df ->
  DataFrame.nrows (DataFrame.set name v df) = DataFrame.nrows df.
Proof.
  destruct df as [|[n c] df]; [done|]. intros _ Hv. cbn.
  destruct (decide (n = name)); cbn; done.
Qed.

Lemma rectangular_set name v df :
  df ≠ [] -> DataFrame.rectangular df -> length v = DataFrame.nrows df ->
  DataFrame.rectangular (DataFrame.set name v df).
Proof.
  intros Hne Hrect Hv. unfold DataFrame.rectangular.
  rewrite nrows_set_old by done. revert Hrect. unfold DataFrame.rectangular.
  generalize (DataFrame.nrows df) at 1 2 as k. intros k Hrect.
  assert (length v = k) as Hvk.
  { destruct df as [|[n c] df]; [done|].
    inversion Hrect; subst. cbn in *. congruence. }
  clear Hv Hne. induction Hrect as [|[n c] df Hc Hrest IH]; cbn.
  - constructor; [done|constructor].
  - destruct (decide (n = name)); constructor; done.
Qed.

Lemma rectangular_map (f : list cell -> list cell) df :
  (∀ v w, length v = length w -> length (f v) = length (f w)) ->
  DataFrame.rectangular df ->
  DataFrame.rectangular (map (fun '(n, v) => (n, f v)) df).
Proof.
  intros Hf. unfold DataFrame.rectangular.
  destruct df as [|[n c] df]; [constructor|]. cbn.
  intros Hrect. apply Forall_cons. split; [done|].
  inversion Hrect as [|? ? _ Hrest]; subst.
  apply Forall_fmap. eapply Forall_impl; [exact Hrest|].
  intros [n' c'] Hc'. cbn in *. by apply Hf.
Qed.

Lemma names_map (f : list cell -> list cell) df :
  DataFrame.names (map (fun '(n, v) => (n, f v)) df) = DataFrame.names df.
Proof.
  unfold DataFrame.names. rewrite map_map. apply map_ext. by intros [n v].
Qed.

Lemma find_map (f : list cell -> list cell) name df :
  DataFrame.find name (map (fun '(n, v) => (n, f v)) df)
    = f <$> DataFrame.find name df.
Proof.
  induction df as [|[n c] df IH]; cbn; [done|].
  destruct (decide (n = name)); [done|apply IH].
Qed.

Lemma length_select {A B} (mask : list bool) (v : list A) (w : list B) :
  length v = length w ->
  length (DataFrame.select mask v) = length (DataFrame.select mask w).
Proof.
  revert v w. induction mask as [|b mask IH]; intros [|x v] [|y w]; cbn;
    try done.
  intros [= Hlen]. destruct b; cbn; auto.
Qed.

Lemma rectangular_head n df :
  DataFrame.rectangular df -> DataFrame.rectangular (DataFrame.head n df).
Proof.
  apply rectangular_map. intros v w Hvw. by rewrite !length_take, Hvw.
Qed.

Lemma rectangular_drop_duplicates name df df' :
  DataFrame.rectangular df ->
  DataFrame.drop_duplicates name df = Ok df' ->
  DataFrame.rectangular df'.
Proof.
  unfold DataFrame.drop_duplicates. intros Hrect.
  destruct (DataFrame.find name df); [|done]. intros [= <-].
  apply rectangular_map; [|done]. intros v w. apply length_select.
Qed.

Lemma length_rows df : length (DataFrame.rows df) = DataFrame.nrows df.
Proof. unfold DataFrame.rows. by rewrite length_map, length_seq. Qed.

End rectangles.

(** ** Runs of the stages *)

Section stages.

Local Open Scope nat_scope.

Lemma mapM_ext {A B} (f g : A -> M B) l e w :
  (∀ x e w, f x e w = g x e w) -> mapM f l e w = mapM g l e w.
Proof.
  intros Hfg. revert w. induction l as [|x l IH]; intros w; [done|].
  cbn [mapM]. unfold bind. rewrite Hfg.
  destruct (g x e w) as [w1 [y|z]]; [|done]. by rewrite IH.
Qed.

(** A stage applies its function to the rows one after the other, and
    stops at the first row that raises. *)
Lemma mapM_Run {A B} (f : A -> M B) P l e w :
  emits f P ->
  ∃ T,
    trace (mapM f l e w).1 = trace w ++ T ∧
    Run P l T (err (mapM f l e w).2) ∧
    ∀ ys, (mapM f l e w).2 = Ok ys -> length ys = length l.
Proof.
  intros Hf. revert w. induction l as [|x l IH]; intros w.
  - exists []. cbn. rewrite app_nil_r. split; [done|]. split; [constructor|].
    by intros ys [= <-].
  - cbn [mapM]. unfold bind.
    specialize (Hf x e w). destruct (f x e w) as [w1 [y|z]]; cbn in Hf.
    + destruct Hf as [[_ [? [=]]]|(ev & Htr & HP & Hev)].
      destruct (IH w1) as (T & HT & Hrun & Hlen).
      destruct (mapM f l e w1) as [w2 [ys|z]]; cbn in *.
      * exists (ev :: T). rewrite HT, Htr, <- app_assoc.
        split; [done|]. split; [by constructor|].
        intros ys' [= <-]. cbn. f_equal. by apply Hlen.
      * exists (ev :: T). rewrite HT, Htr, <- app_assoc.
        split; [done|]. split; [by constructor|]. done.
    + destruct Hf as [[Htr _]|(ev & Htr & HP & Hev)]; cbn.
      * exists []. rewrite app_nil_r. split; [done|].
        split; [constructor|done].
      * exists [ev]. split; [done|]. split; [by constructor|done].
Qed.

Lemma sample_trace n k e w :
  trace (Random.sample n k e w).1 = trace w ++ [ESample n k] ∧
  ∀ z, (Random.sample n k e w).2 = Raise z -> z = ValueError.
Proof.
  destruct (decide (0 <= k <= Z.of_nat n)%Z) as [Hk|Hk].
  - destruct (sample_spec n k e w Hk) as (l & -> & _). by cbn.
  - unfold Random.sample.
    destruct ((k <? 0)%Z || (Z.of_nat n <? k)%Z) eqn:Hb.
    + cbn. split; [done|]. by intros z [= <-].
    + apply orb_false_iff in Hb as [H1 H2].
      apply Z.ltb_ge in H1, H2. lia.
Qed.

Lemma mask_emits m : emits (Pipeline.mask m) (masked_by m).
Proof.
  intros c e w. destruct m as [prompt|rate]; cbn [Pipeline.mask].
  - right. unfold Pipeline.mask_stage, bind, invoke_claude, ret.
    destruct (claude e (calls w) (prompt (format c))) as [s|z] eqn:Ho;
      cbn; eexists; (split; [done|]); (split; [by eexists|]); done.
  - unfold insert_placeholders_random, bind, lift.
    destruct c as [s| |]; cbn [cell_split];
      [|left; split; [done|by eexists]..].
    right.
    destruct (sample_trace (length (split s))
                (sample_count (length (split s)) rate) e w) as [Htr Hz].
    destruct (Random.sample _ _ e w) as [w1 [l|z]]; cbn in *.
    + eexists. split; [exact Htr|]. split; [by eexists|done].
    + eexists. split; [exact Htr|]. split; [by eexists|].
      cbn. by apply Hz.
Qed.

Lemma fill_emits fill :
  emits (Pipeline.fill_stage fill) (filled_by fill).
Proof.
  intros row e w. unfold Pipeline.fill_stage, bind, lift.
  destruct (fill row) as [q|z] eqn:Hq; cbn; [|left; split; [done|by eexists]].
  right. unfold invoke_claude, ret.
  destruct (claude e (calls w) q) as [s|z] eqn:Ho; cbn;
    eexists; (split; [done|]); (split; [by eexists _, _|]); done.
Qed.

(** Every run of the pipeline on a frame that was read and sampled ends
    in one of the ways of [outcome]. *)
Lemma stage2_outcome p e w0 df T1 df1 w1 w r :
  stage1_done p df T1 df1 -> trace w1 = trace w0 ++ T1 ->
  bind (Pipeline.stage2 p df1)
    (fun df2 => to_csv df2 (Pipeline.path p)) e w1 = (w, r) ->
  ∃ T, trace w = trace w0 ++ T ∧ outcome p e df T r.
Proof.
  intros Hdone Hw1.
  unfold Pipeline.stage2, frame_apply, bind.
  destruct (mapM_Run (Pipeline.fill_stage (Pipeline.fill p))
              (filled_by (Pipeline.fill p)) (DataFrame.rows df1) e w1
              (fill_emits _)) as (T2 & HT2 & Hrun & Hlen).
  destruct (mapM _ (DataFrame.rows df1) e w1) as [w2 [out|z]];
    cbn in HT2, Hrun, Hlen.
  - unfold ret, to_csv.
    assert (length out = DataFrame.nrows df1) as Hout
      by (rewrite (Hlen out eq_refl); apply length_rows).
    destruct (write_error e (Pipeline.path p) _) as [z|] eqn:Hwe.
    + intros [= <- <-]. eexists. cbn. rewrite HT2, Hw1, <- !app_assoc.
      split; [done|]. by eapply write_stops.
    + intros [= <- <-]. eexists. cbn. rewrite HT2, Hw1, <- !app_assoc.
      split; [done|]. by eapply written.
  - intros [= <- <-]. exists (T1 ++ T2). rewrite HT2, Hw1, <- app_assoc.
    split; [done|]. by eapply stage2_stops.
Qed.

Lemma run_outcome p e w0 df0 df w r :
  csv e (Pipeline.input p) = Ok df0 ->
  Pipeline.sample p df0 = Ok df ->
  Pipeline.run p e w0 = (w, r) ->
  ∃ T, trace w = trace w0 ++ T ∧ outcome p e df T r.
Proof.
  intros Hcsv Hsample.
  unfold Pipeline.run, bind at 1, read_csv. rewrite Hcsv.
  unfold bind at 1, lift. rewrite Hsample.
  unfold bind at 1, Pipeline.stage1.
  destruct (Pipeline.skips p df) eqn:Hskip.
  - unfold ret. apply (stage2_outcome p e w0 df []); [by left|].
    by rewrite app_nil_r.
  - unfold bind at 1, lift, DataFrame.get.
    destruct (DataFrame.find (Pipeline.key p) df) as [src|] eqn:Hsrc.
    + unfold series_apply, bind at 1.
      destruct (mapM_Run (Pipeline.mask (Pipeline.masking p))
                  (masked_by (Pipeline.masking p)) src e w0
                  (mask_emits _)) as (T1 & HT1 & Hrun & Hlen).
      destruct (mapM _ src e w0) as [w1 [masked|z]];
        cbn in HT1, Hrun, Hlen.
      * unfold ret. apply (stage2_outcome p e w0 df T1); [|done].
        right. split; [done|]. exists src, masked.
        split; [done|]. split; [done|]. split; [by apply Hlen|done].
      * intros [= <- <-]. exists T1. split; [done|].
        by eapply stage1_stops.
    + intros [= <- <-]. exists []. rewrite app_nil_r. split; [done|].
      by apply no_key.
Qed.

Lemma run_unread p e w0 z :
  csv e (Pipeline.input p) = Raise z ->
  Pipeline.run p e w0 = (w0, Raise z).
Proof.
  intros Hcsv. unfold Pipeline.run, bind, read_csv. by rewrite Hcsv.
Qed.

Lemma run_unsampled p e w0 df0 z :
  csv e (Pipeline.input p) = Ok df0 ->
  Pipeline.sample p df0 = Raise z ->
  Pipeline.run p e w0 = (w0, Raise z).
Proof.
  intros Hcsv Hs. unfold Pipeline.run, bind, read_csv, lift.
  by rewrite Hcsv, Hs.
Qed.

End stages.

(** ** Every script is an instance of the pipeline *)

Section instances.

Local Open Scope nat_scope.


Lemma bind_ext {A B} (m m' : M A) (k k' : A -> M B) e w :
  m e w = m' e w -> (∀ a w', k a e w' = k' a e w') ->
  bind m k e w = bind m' k' e w.
Proof.
  intros Hm Hk. unfold bind. rewrite Hm.
  destruct (m' e w) as [w' [a|z]]; [apply Hk|done].
Qed.

Lemma sample_pipeline s df :
  sample_of s df = Pipeline.sample (pipeline_of s) df.
Proof.
  destruct s as [a|a|a|a]; cbn [sample_of pipeline_of];
    unfold Linguistic.sample, Reverse.sample, Extreme.sample,
      Randomized.sample, Pipeline.sample.
  all: cbn [Pipeline.size Pipeline.dedup].
  all: destruct (truthy _); try reflexivity.
  all: unfold and_then.
  all: destruct (DataFrame.drop_duplicates _ df); reflexivity.
Qed.


Lemma stage2_pipeline s df e w :
  match s with
  | Linguistically a => Linguistic.stage2 a df e w
  | Reversed a => Reverse.stage2 a df e w
  | Extremely a =>
      Extreme.stage2 a (Extreme.parse_list (Extreme.target_columns a))
        (Extreme.parse_list (Extreme.target_languages a)) df e w
  | Randomly a => Randomized.stage2 a df e w
  end = Pipeline.stage2 (pipeline_of s) df e w.
Proof.
  destruct s as [a|a|a|a];
    unfold Linguistic.stage2, Reverse.stage2, Extreme.stage2,
      Randomized.stage2, Pipeline.stage2, frame_apply;
    (apply bind_ext; [|reflexivity]); apply mapM_ext; intros row e' w';
    unfold Pipeline.fill_stage; cbn [pipeline_of Pipeline.fill fill_of];
    unfold bind, lift, and_then;
    (destruct (row _); [|reflexivity]).
  - destruct (row (target_column a)); reflexivity.
  - destruct (row (source_column a)); reflexivity.
  - destruct (Extreme.lookups row _); reflexivity.
  - destruct (row (target_column a)); reflexivity.
Qed.


Lemma main_pipeline (s : script) (e : env) (w : world) :
  main_of s e w =
    (if rejected s then (w, Raise ValueError)
     else Pipeline.run (pipeline_of s) e w).
Proof.
  destruct s as [a|a|a|a]; cbn [main_of rejected].
  - unfold Linguistic.main, Pipeline.run.
    apply bind_ext; [reflexivity|]. intros df0 w0.
    apply bind_ext; [unfold lift; by rewrite <- sample_pipeline|].
    intros df w1. apply bind_ext; [reflexivity|]. intros df1 w2.
    apply bind_ext; [|reflexivity].
    apply (stage2_pipeline (Linguistically a)).
  - unfold Reverse.main, Pipeline.run.
    apply bind_ext; [reflexivity|]. intros df0 w0.
    apply bind_ext; [unfold lift; by rewrite <- sample_pipeline|].
    intros df w1. apply bind_ext; [reflexivity|]. intros df1 w2.
    apply bind_ext; [|reflexivity].
    apply (stage2_pipeline (Reversed a)).
  - unfold Extreme.main.
    destruct (negb _); [reflexivity|]. unfold Pipeline.run.
    apply bind_ext; [reflexivity|]. intros df0 w0.
    apply bind_ext; [unfold lift; by rewrite <- sample_pipeline|].
    intros df w1. apply bind_ext; [reflexivity|]. intros df1 w2.
    apply bind_ext; [|reflexivity].
    apply (stage2_pipeline (Extremely a)).
  - unfold Randomized.main, Pipeline.run.
    apply bind_ext; [reflexivity|]. intros df0 w0.
    apply bind_ext; [unfold lift; by rewrite <- sample_pipeline|].
    intros df w1. apply bind_ext; [reflexivity|]. intros df1 w2.
    apply bind_ext; [|reflexivity].
    apply (stage2_pipeline (Randomly a)).
Qed.

(** C5, the part of the claim that holds.  Every script is the two-stage
    pipeline [Pipeline.run] on its own record, after the check of the
    command line that only the multi-language script has.  The
    linguistically motivated and the reverse script are the pipeline of
    the specification, [Pipeline.plain]: they differ in nothing but their
    prompts, their columns and their path.  The two others differ in more:
    the multi-language script masks through the service as well, but
    reuses the placeholders the input brings; the randomized script masks
    locally and does not drop duplicates before it takes its sample. *)
Theorem scripts_are_pipelines (s : script) (e : env) (w : world) :
  main_of s e w =
    (if rejected s then (w, Raise ValueError)
     else Pipeline.run (pipeline_of s) e w) ∧
  match s with
  | Linguistically _ | Reversed _ =>
      ∃ prompt,
        main_of s e w =
          Pipeline.plain (input_of s) (size_of s)
            (Pipeline.key (pipeline_of s)) prompt (intermediate_of s)
            (fill_of s) (csw_of s) (Pipeline.path (pipeline_of s)) e w
  | Extremely _ =>
      Pipeline.reuse (pipeline_of s) = true ∧
      Pipeline.dedup (pipeline_of s) = Some (Pipeline.key (pipeline_of s)) ∧
      ∃ prompt,
        Pipeline.masking (pipeline_of s) = Pipeline.ByService prompt
  | Randomly _ =>
      rejected s = false ∧
      Pipeline.reuse (pipeline_of s) = false ∧
      Pipeline.dedup (pipeline_of s) = None ∧
      Pipeline.masking (pipeline_of s) = Pipeline.AtRandom Float.rate_0_2
  end.
Proof.
  split; [apply main_pipeline|].
  destruct s as [a|a|a|a].
  - exists Linguistic.get_switching_points_prompt.
    rewrite main_pipeline. reflexivity.
  - exists (fun text =>
              Reverse.mask_target_points_prompt text (target_language a)).
    rewrite main_pipeline. reflexivity.
  - cbn [pipeline_of Pipeline.reuse Pipeline.dedup Pipeline.key
         Pipeline.masking].
    split; [reflexivity|]. split; [reflexivity|]. eexists. reflexivity.
  - cbn [pipeline_of rejected Pipeline.reuse Pipeline.dedup
         Pipeline.masking].
    repeat split; reflexivity.
Qed.

End instances.

(** ** What a stage leaves in the trace *)

Section runs.

Local Open Scope nat_scope.

Context {A : Type} (P : A -> event -> Prop).

Lemma Run_prefix l T o : Run P l T o -> Forall2 P (take (length T) l) T.
Proof.
  induction 1; cbn; try constructor; try done; constructor.
Qed.

Lemma Run_length l T o : Run P l T o -> length T <= length l.
Proof. induction 1; cbn; lia. Qed.

Lemma Run_complete l T : Run P l T None -> length T = length l.
Proof.
  remember None as o eqn:Ho. induction 1; cbn; try done.
  f_equal. auto.
Qed.

Lemma Run_succeeds l T : Run P l T None -> Forall succeeds T.
Proof.
  remember None as o eqn:Ho. induction 1; try done.
  constructor; auto.
Qed.

Lemma succeeds_not_write ev : succeeds ev -> is_write ev = false.
Proof. by destruct ev. Qed.

Lemma fails_not_write ev z : fails ev z -> is_write ev = false.
Proof. by destruct ev. Qed.

Lemma Run_no_write l T o :
  Run P l T o -> Forall (fun ev => is_write ev = false) T.
Proof.
  induction 1; repeat constructor; eauto using succeeds_not_write,
    fails_not_write.
Qed.

(** A request that fails is the last event of its stage, and the stage
    stops with its exception: there is no second attempt. *)
Lemma Run_failed l T o q z :
  Run P l T o -> EInvoke q (Raise z) ∈ T ->
  o = Some z ∧ last T = Some (EInvoke q (Raise z)).
Proof.
  induction 1 as [|x l ev T o HP Hev Hrun IH|x l ev z' HP Hev|]; intros Hin.
  - by apply elem_of_nil in Hin.
  - apply elem_of_cons in Hin as [Heq|Hin]; [subst ev; by cbn in Hev|].
    destruct (IH Hin) as [-> Hlast]. split; [done|].
    destruct T; [by apply elem_of_nil in Hin|]. by rewrite last_cons_cons.
  - apply list_elem_of_singleton in Hin as <-. cbn in Hev. by subst.
  - by apply elem_of_nil in Hin.
Qed.

End runs.

Section prompts_of_runs.

Local Open Scope nat_scope.

Lemma prompts_app T1 T2 : prompts (T1 ++ T2) = prompts T1 ++ prompts T2.
Proof.
  induction T1 as [|[| |] T1 IH]; cbn; [done|done| |done]. by rewrite IH.
Qed.

Lemma prompts_write path df : prompts [EWrite path df] = [].
Proof. reflexivity. Qed.

Lemma prompts_masked_service prompt src T o :
  Run (masked_by (Pipeline.ByService prompt)) src T o ->
  prompts T = map (fun c => prompt (format c)) (take (length T) src).
Proof.
  induction 1 as [|x l ev T o [oc ->] Hev Hrun IH|x l ev z [oc ->] Hev|];
    cbn; [done| |by rewrite take_0|done].
  by rewrite IH.
Qed.

Lemma prompts_masked_random rate src T o :
  Run (masked_by (Pipeline.AtRandom rate)) src T o -> prompts T = [].
Proof.
  induction 1 as [|x l ev T o (s & -> & ->) Hev Hrun IH
                  |x l ev z (s & -> & ->) Hev|]; cbn; done.
Qed.

Lemma prompts_filled fill rows T o :
  Run (filled_by fill) rows T o ->
  length (prompts T) = length T ∧
  ∀ q, q ∈ prompts T -> ∃ row, row ∈ rows ∧ fill row = Ok q.
Proof.
  induction 1 as [|x l ev T o (q' & oc & Hq & ->) Hev Hrun [IH1 IH2]
                  |x l ev z (q' & oc & Hq & ->) Hev|]; cbn.
  - split; [done|]. intros q Hq. by apply elem_of_nil in Hq.
  - split; [by rewrite IH1|]. intros q [->|Hin]%elem_of_cons.
    + exists x. split; [apply list_elem_of_here|done].
    + destruct (IH2 q Hin) as (row & Hrow & Hfill).
      exists row. split; [by apply list_elem_of_further|done].
  - split; [done|]. intros q ->%list_elem_of_singleton.
    exists x. split; [apply list_elem_of_here|done].
  - split; [done|]. intros q Hq. by apply elem_of_nil in Hq.
Qed.

End prompts_of_runs.

(** ** Prompts of the two stages *)

Section prompt_prefixes.

Local Open Scope nat_scope.

Lemma startswith_app p l1 l2 :
  length p <= length l1 -> startswith p (l1 ++ l2) = startswith p l1.
Proof.
  revert l1. induction p as [|a p IH]; intros [|b l1] Hlen; cbn in *;
    try done; try lia.
  rewrite IH by lia. done.
Qed.

Lemma startswith_head p first rest :
  length p <= length first ->
  startswith p (concat (first :: rest)) = startswith p first.
Proof. intros Hlen. cbn [concat]. by apply startswith_app. Qed.

Lemma mask_prompt_prefix s prompt text :
  Pipeline.masking (pipeline_of s) = Pipeline.ByService prompt ->
  startswith mask_prefix (prompt text) = true.
Proof.
  destruct s as [a|a|a|a]; cbn [pipeline_of Pipeline.masking];
    intros [= <-];
    unfold Linguistic.get_switching_points_prompt,
      Reverse.mask_target_points_prompt,
      Extreme.get_switching_points_prompt;
    (rewrite startswith_head; [|vm_compute; lia]);
    vm_compute; reflexivity.
Qed.

Lemma fill_prompt_prefix s row q :
  fill_of s row = Ok q -> startswith mask_prefix q = false.
Proof.
  destruct s as [a|a|a|a]; cbn [fill_of]; unfold and_then;
    (destruct (row _) as [c|]; [|discriminate]).
  - destruct (row (target_column a)) as [t|]; [|discriminate].
    intros [= <-]. unfold Linguistic.code_switch_text_prompt.
    (rewrite startswith_head; [|vm_compute; lia]). vm_compute; reflexivity.
  - destruct (row (source_column a)) as [t|]; [|discriminate].
    intros [= <-]. unfold Reverse.insert_english_words_prompt.
    (rewrite startswith_head; [|vm_compute; lia]). vm_compute; reflexivity.
  - destruct (Extreme.lookups row _) as [t|]; [|discriminate].
    intros [= <-]. unfold Extreme.code_switch_multi_prompt.
    (rewrite startswith_head; [|vm_compute; lia]). vm_compute; reflexivity.
  - destruct (row (target_column a)) as [t|]; [|discriminate].
    intros [= <-]. unfold Randomized.code_switch_text_prompt.
    (rewrite startswith_head; [|vm_compute; lia]). vm_compute; reflexivity.
Qed.

End prompt_prefixes.

(** ** Runs of the scripts *)

Section script_runs.

Local Open Scope nat_scope.

Lemma sample_cases p df0 df :
  Pipeline.sample p df0 = Ok df ->
  df = df0 ∨ ∃ f, df = map (fun '(n, v) => (n, f v)) df0 ∧
                  ∀ v w : list cell,
                    length v = length w -> length (f v) = length (f w).
Proof.
  unfold Pipeline.sample, and_then.
  destruct (truthy (Pipeline.size p)) as [n|]; [|intros [= <-]; by left].
  destruct (Pipeline.dedup p) as [column|].
  - unfold DataFrame.drop_duplicates.
    destruct (DataFrame.find column df0) as [keys|]; [|discriminate].
    intros [= <-]. right. unfold DataFrame.head.
    rewrite map_map.
    eexists (fun v => take _ (DataFrame.select _ v)). split.
    + apply map_ext. by intros [n' v].
    + intros v w Hvw. rewrite !length_take.
      by rewrite (length_select _ v w Hvw).
  - intros [= <-]. right. unfold DataFrame.head.
    eexists (fun v => take _ v). split; [reflexivity|].
    intros v w Hvw. by rewrite !length_take, Hvw.
Qed.

Lemma rectangular_sample p df0 df :
  DataFrame.rectangular df0 -> Pipeline.sample p df0 = Ok df ->
  DataFrame.rectangular df.
Proof.
  intros Hrect [->|(f & -> & Hf)]%sample_cases; [done|].
  by apply rectangular_map.
Qed.

Lemma names_sample p df0 df :
  Pipeline.sample p df0 = Ok df -> DataFrame.names df = DataFrame.names df0.
Proof.
  intros [->|(f & -> & Hf)]%sample_cases; [done|]. apply names_map.
Qed.

Lemma input_pipeline s : Pipeline.input (pipeline_of s) = input_of s.
Proof. destruct s; reflexivity. Qed.

Lemma intermediate_pipeline s :
  Pipeline.intermediate (pipeline_of s) = intermediate_of s.
Proof. destruct s; reflexivity. Qed.

Lemma output_pipeline s :
  Pipeline.output_column (pipeline_of s) = csw_of s.
Proof. destruct s; reflexivity. Qed.

Lemma fill_pipeline s : Pipeline.fill (pipeline_of s) = fill_of s.
Proof. destruct s; reflexivity. Qed.

Lemma skips_pipeline s df :
  Pipeline.skips (pipeline_of s) df =
    match s with
    | Extremely _ => DataFrame.has_column (lit "placeholder_text") df
    | _ => false
    end.
Proof. destruct s; reflexivity. Qed.

Lemma masks_by_service_masking s df :
  masks_by_service s df
    = match Pipeline.masking (pipeline_of s) with
      | Pipeline.ByService _ => negb (Pipeline.skips (pipeline_of s) df)
      | Pipeline.AtRandom _ => false
      end.
Proof. destruct s; reflexivity. Qed.

(** A run of a script stops before any event, or is a run of its
    pipeline on the rows it retains. *)
Lemma main_cases s e w r :
  main_of s e world0 = (w, r) ->
  (trace w = [] ∧ is_Some (err r)) ∨
  (rejected s = false ∧
   ∃ df0 df,
     csv e (input_of s) = Ok df0 ∧ sample_of s df0 = Ok df ∧
     outcome (pipeline_of s) e df (trace w) r).
Proof.
  rewrite main_pipeline. destruct (rejected s).
  { intros [= <- <-]. left. split; [done|by eexists]. }
  destruct (csv e (input_of s)) as [df0|z] eqn:Hcsv.
  - destruct (sample_of s df0) as [df|z] eqn:Hs.
    + intros Hrun. right. split; [done|]. exists df0, df.
      split; [done|]. split; [done|].
      rewrite sample_pipeline in Hs. rewrite <- input_pipeline in Hcsv.
      destruct (run_outcome _ _ _ _ _ _ _ Hcsv Hs Hrun) as (T & -> & Hout).
      done.
    + rewrite sample_pipeline in Hs. rewrite <- input_pipeline in Hcsv.
      rewrite (run_unsampled _ _ _ _ _ Hcsv Hs).
      intros [= <- <-]. left. split; [done|by eexists].
  - rewrite <- input_pipeline in Hcsv. rewrite (run_unread _ _ _ _ Hcsv).
    intros [= <- <-]. left. split; [done|by eexists].
Qed.

Lemma stage1_done_no_write p df T1 df1 :
  stage1_done p df T1 df1 -> Forall (fun ev => is_write ev = false) T1.
Proof.
  intros [(_ & -> & _)|(_ & src & masked & _ & Hrun & _)]; [constructor|].
  by eapply Run_no_write.
Qed.

Lemma stage1_done_succeeds p df T1 df1 :
  stage1_done p df T1 df1 -> Forall succeeds T1.
Proof.
  intros [(_ & -> & _)|(_ & src & masked & _ & Hrun & _)]; [constructor|].
  by eapply Run_succeeds.
Qed.

Lemma not_failed_in_succeeds T q z :
  Forall succeeds T -> EInvoke q (Raise z) ∉ T.
Proof.
  intros Hall Hin. rewrite Forall_forall in Hall. by apply Hall in Hin.
Qed.

(** A request that fails ends the run: its exception is the result of
    the run, no event follows it and nothing is written. *)
Lemma outcome_failed p e df T r q z :
  outcome p e df T r -> EInvoke q (Raise z) ∈ T ->
  r = Raise z ∧ last T = Some (EInvoke q (Raise z)) ∧
  Forall (fun ev => is_write ev = false) T.
Proof.
  intros Hout Hin. destruct Hout as
    [Hskip Hkey|src T1 z' Hskip Hkey Hrun|df1 T1 T2 z' Hdone Hrun
    |df1 T1 T2 out z' Hdone Hrun Hlen Hwe|df1 T1 T2 out Hdone Hrun Hlen Hwe].
  - by apply elem_of_nil in Hin.
  - destruct (Run_failed _ _ _ _ _ _ Hrun Hin) as [[= ->] Hlast].
    split; [done|]. split; [done|]. by eapply Run_no_write.
  - apply elem_of_app in Hin as [Hin|Hin].
    { by apply (not_failed_in_succeeds _ _ _
                  (stage1_done_succeeds _ _ _ _ Hdone)) in Hin. }
    destruct (Run_failed _ _ _ _ _ _ Hrun Hin) as [[= ->] Hlast].
    split; [done|]. split.
    + rewrite last_app, Hlast. done.
    + apply Forall_app. split; [by eapply stage1_done_no_write|].
      by eapply Run_no_write.
  - rewrite !elem_of_app in Hin. destruct Hin as [Hin|[Hin|Hin]].
    + by apply (not_failed_in_succeeds _ _ _
                  (stage1_done_succeeds _ _ _ _ Hdone)) in Hin.
    + by apply (not_failed_in_succeeds _ _ _
                  (Run_succeeds _ _ _ Hrun)) in Hin.
    + by apply list_elem_of_singleton in Hin.
  - rewrite !elem_of_app in Hin. destruct Hin as [Hin|[Hin|Hin]].
    + by apply (not_failed_in_succeeds _ _ _
                  (stage1_done_succeeds _ _ _ _ Hdone)) in Hin.
    + by apply (not_failed_in_succeeds _ _ _
                  (Run_succeeds _ _ _ Hrun)) in Hin.
    + by apply list_elem_of_singleton in Hin.
Qed.

Lemma not_write_in T path out :
  Forall (fun ev => is_write ev = false) T -> EWrite path out ∉ T.
Proof.
  intros Hall Hin. rewrite Forall_forall in Hall. by apply Hall in Hin.
Qed.

(** [to_csv] is called once, as the last event of a run that went
    through both stages, and the run ends as the call does. *)
Lemma outcome_written p e df T r path out :
  outcome p e df T r -> EWrite path out ∈ T ->
  r = match write_error e path out with
      | Some z => Raise z
      | None => Ok tt
      end ∧
  ∃ df1 T1 T2 filled,
    stage1_done p df T1 df1 ∧
    Run (filled_by (Pipeline.fill p)) (DataFrame.rows df1) T2 None ∧
    length filled = DataFrame.nrows df1 ∧
    path = Pipeline.path p ∧
    out = DataFrame.set (Pipeline.output_column p) (map CStr filled) df1 ∧
    T = T1 ++ T2 ++ [EWrite path out].
Proof.
  intros Hout Hin. destruct Hout as
    [Hskip Hkey|src T1 z' Hskip Hkey Hrun|df1 T1 T2 z' Hdone Hrun
    |df1 T1 T2 filled z' Hdone Hrun Hlen Hwe
    |df1 T1 T2 filled Hdone Hrun Hlen Hwe].
  - by apply elem_of_nil in Hin.
  - by apply (not_write_in _ _ _ (Run_no_write _ _ _ _ Hrun)) in Hin.
  - apply elem_of_app in Hin as [Hin|Hin].
    + by apply (not_write_in _ _ _ (stage1_done_no_write _ _ _ _ Hdone))
        in Hin.
    + by apply (not_write_in _ _ _ (Run_no_write _ _ _ _ Hrun)) in Hin.
  - rewrite !elem_of_app in Hin. destruct Hin as [Hin|[Hin|Hin]].
    + by apply (not_write_in _ _ _ (stage1_done_no_write _ _ _ _ Hdone))
        in Hin.
    + by apply (not_write_in _ _ _ (Run_no_write _ _ _ _ Hrun)) in Hin.
    + apply list_elem_of_singleton in Hin. injection Hin as -> ->.
      rewrite Hwe. split; [done|]. by exists df1, T1, T2, filled.
  - rewrite !elem_of_app in Hin. destruct Hin as [Hin|[Hin|Hin]].
    + by apply (not_write_in _ _ _ (stage1_done_no_write _ _ _ _ Hdone))
        in Hin.
    + by apply (not_write_in _ _ _ (Run_no_write _ _ _ _ Hrun)) in Hin.
    + apply list_elem_of_singleton in Hin. injection Hin as -> ->.
      rewrite Hwe. split; [done|]. by exists df1, T1, T2, filled.
Qed.

End script_runs.

(** ** Runs with a service that answers *)

Section answered_runs.

Local Open Scope nat_scope.

Lemma mapM_total {A B} (f : A -> M B) l e w :
  (∀ x w', x ∈ l -> ∃ w'' y, f x e w' = (w'', Ok y)) ->
  ∃ w'' ys, mapM f l e w = (w'', Ok ys).
Proof.
  revert w. induction l as [|x l IH]; intros w Hf; [by eexists _, _|].
  cbn [mapM]. unfold bind at 1.
  destruct (Hf x w) as (w1 & y & ->); [apply list_elem_of_here|].
  unfold bind at 1.
  destruct (IH w1) as (w2 & ys & ->).
  { intros x' w' Hx'. apply Hf. by apply list_elem_of_further. }
  by eexists _, _.
Qed.

Lemma mask_total s c e w :
  (∀ i q, ∃ a, claude e i q = Ok a) ->
  (∀ rate,
     Pipeline.masking (pipeline_of s) = Pipeline.AtRandom rate ->
     maskable c) ->
  ∃ w' y,
    Pipeline.mask (Pipeline.masking (pipeline_of s)) c e w = (w', Ok y).
Proof.
  intros Hservice Hwords.
  destruct (Pipeline.masking (pipeline_of s)) as [prompt|rate] eqn:Hm.
  - cbn [Pipeline.mask].
    unfold Pipeline.mask_stage, bind, invoke_claude, ret.
    destruct (Hservice (calls w) (prompt (format c))) as [a ->].
    by eexists _, _.
  - destruct (Hwords _ eq_refl) as (text & -> & Hne & Hsize).
    assert (rate = Float.rate_0_2) as ->.
    { destruct s; cbn [pipeline_of Pipeline.masking] in Hm;
        try discriminate. by injection Hm as <-. }
    destruct (insert_placeholders_random_run e w text Hne Hsize)
      as (indices & Hrun & _).
    cbn [Pipeline.mask]. rewrite Hrun. by eexists _, _.
Qed.

Lemma get_row_Ok df i name :
  DataFrame.rectangular df -> name ∈ DataFrame.names df ->
  i < DataFrame.nrows df ->
  ∃ c, DataFrame.get_row df i name = Ok c.
Proof.
  intros Hrect Hin Hi. unfold DataFrame.get_row.
  destruct (DataFrame.find name df) as [v|] eqn:Hf.
  - pose proof (rectangular_find _ _ _ Hrect Hf) as Hlen.
    destruct (lookup_lt_is_Some_2 v i) as [c ->]; [lia|]. by eexists.
  - by apply find_None in Hf.
Qed.

Lemma lookups_total df i cols :
  DataFrame.rectangular df -> i < DataFrame.nrows df ->
  (∀ c, c ∈ cols -> c ∈ DataFrame.names df) ->
  ∃ ts, Extreme.lookups (DataFrame.get_row df i) cols = Ok ts.
Proof.
  intros Hrect Hi. induction cols as [|c cols IH]; intros Hcols.
  - by eexists.
  - cbn [Extreme.lookups].
    destruct (get_row_Ok df i c) as [v ->];
      [done|apply Hcols, list_elem_of_here|done|].
    destruct IH as [vs ->].
    { intros c' Hc'. by apply Hcols, list_elem_of_further. }
    by eexists.
Qed.

(** With its columns in the frame, stage 2 can make its prompt for every
    row. *)
Lemma fill_of_total s df i :
  DataFrame.rectangular df -> i < DataFrame.nrows df ->
  intermediate_of s ∈ DataFrame.names df ->
  (∀ c, c ∈ parallel_columns_of s -> c ∈ DataFrame.names df) ->
  ∃ q, fill_of s (DataFrame.get_row df i) = Ok q.
Proof.
  intros Hrect Hi Hinter Hcols.
  destruct (get_row_Ok df i (intermediate_of s)) as [p Hp]; [done..|].
  destruct s as [a|a|a|a];
    cbn [fill_of intermediate_of parallel_columns_of] in *;
    rewrite Hp; cbn [and_then].
  - destruct (get_row_Ok df i (target_column a)) as [t ->];
      [done|apply Hcols, list_elem_of_here|done|].
    eexists. reflexivity.
  - destruct (get_row_Ok df i (source_column a)) as [t ->];
      [done|apply Hcols, list_elem_of_here|done|].
    eexists. reflexivity.
  - destruct (lookups_total df i _ Hrect Hi Hcols) as [ts ->].
    eexists. reflexivity.
  - destruct (get_row_Ok df i (target_column a)) as [t ->];
      [done|apply Hcols, list_elem_of_here|done|].
    eexists. reflexivity.
Qed.

Lemma stage2_total p df1 e w1 :
  (∀ i q, ∃ a, claude e i q = Ok a) ->
  (∀ i, i < DataFrame.nrows df1 ->
        ∃ q, Pipeline.fill p (DataFrame.get_row df1 i) = Ok q) ->
  ∃ w2 out,
    Pipeline.stage2 p df1 e w1
      = (w2, Ok (DataFrame.set (Pipeline.output_column p) (map CStr out)
                   df1)).
Proof.
  intros Hservice Hfill. unfold Pipeline.stage2, frame_apply, bind at 1.
  destruct (mapM_total (Pipeline.fill_stage (Pipeline.fill p))
              (DataFrame.rows df1) e w1) as (w2 & out & ->).
  { intros row w' (i & -> & Hi)%list_elem_of_fmap.
    apply elem_of_seq in Hi.
    destruct (Hfill i) as [q Hq]; [lia|].
    unfold Pipeline.fill_stage, bind, lift, invoke_claude, ret. rewrite Hq.
    destruct (Hservice (calls w') q) as [a ->]. by eexists _, _. }
  by eexists _, _.
Qed.

Lemma names_set_old name name' v (df : DataFrame.t) :
  name' ∈ DataFrame.names df ->
  name' ∈ DataFrame.names (DataFrame.set name v df).
Proof.
  intros Hin. rewrite names_set.
  destruct (decide (name ∈ DataFrame.names df)); [done|].
  apply elem_of_app. by left.
Qed.

Lemma names_set_self name v (df : DataFrame.t) :
  name ∈ DataFrame.names (DataFrame.set name v df).
Proof.
  rewrite names_set.
  destruct (decide (name ∈ DataFrame.names df)); [done|].
  apply elem_of_app. right. apply list_elem_of_here.
Qed.

(** With a service that answers and texts that can be masked, stage 1
    goes through. *)
Lemma stage1_goes_through s df e w0 :
  DataFrame.rectangular df -> DataFrame.nrows df ≠ 0 ->
  (∀ i q, ∃ a, claude e i q = Ok a) ->
  (Pipeline.skips (pipeline_of s) df = false ->
   Pipeline.key (pipeline_of s) ∈ DataFrame.names df) ->
  (∀ rate,
     Pipeline.masking (pipeline_of s) = Pipeline.AtRandom rate ->
     Forall maskable (key_cells s df)) ->
  ∃ w1 df1,
    Pipeline.stage1 (pipeline_of s) df e w0 = (w1, Ok df1) ∧
    DataFrame.rectangular df1 ∧
    DataFrame.nrows df1 = DataFrame.nrows df ∧
    intermediate_of s ∈ DataFrame.names df1 ∧
    ∀ c, c ∈ DataFrame.names df -> c ∈ DataFrame.names df1.
Proof.
  intros Hrect Hn Hservice Hkey Hwords. unfold Pipeline.stage1.
  destruct (Pipeline.skips (pipeline_of s) df) eqn:Hskip.
  { exists w0, df. split; [done|]. split; [done|]. split; [done|].
    split; [|done]. unfold Pipeline.skips in Hskip.
    apply andb_true_iff in Hskip as [_ Hhas].
    rewrite intermediate_pipeline in Hhas.
    by apply bool_decide_eq_true in Hhas. }
  unfold bind at 1, lift, DataFrame.get.
  destruct (DataFrame.find (Pipeline.key (pipeline_of s)) df)
    as [src|] eqn:Hsrc.
  2:{ apply find_None in Hsrc. destruct Hsrc. by apply Hkey. }
  unfold bind, series_apply.
  destruct (mapM_Run (Pipeline.mask (Pipeline.masking (pipeline_of s)))
              (masked_by (Pipeline.masking (pipeline_of s))) src e w0
              (mask_emits _)) as (_ & _ & _ & Hlen).
  destruct (mapM_total (Pipeline.mask (Pipeline.masking (pipeline_of s)))
              src e w0) as (w1 & masked & Hm).
  { intros c w' Hc. apply mask_total; [done|].
    intros rate Hrate. specialize (Hwords rate Hrate).
    unfold key_cells in Hwords. rewrite Hsrc in Hwords. cbn in Hwords.
    rewrite Forall_forall in Hwords. by apply Hwords. }
  rewrite Hm in Hlen |- *. cbn in Hlen. specialize (Hlen masked eq_refl).
  assert (df ≠ []) as Hne by (intros ->; by apply Hn).
  assert (length (map CStr masked) = DataFrame.nrows df) as Hrows.
  { rewrite length_map, Hlen. by eapply rectangular_find. }
  eexists _, _. unfold ret. split; [done|].
  rewrite intermediate_pipeline.
  split; [by apply rectangular_set|].
  split; [by apply nrows_set_old|].
  split; [apply names_set_self|].
  intros c Hc. by apply names_set_old.
Qed.

(** With a service that answers, the columns where the stages look for
    them and a [to_csv] that returns, a run ends well. *)
Lemma run_total s e df0 df w0 :
  csv e (input_of s) = Ok df0 ->
  DataFrame.rectangular df0 ->
  sample_of s df0 = Ok df ->
  DataFrame.nrows df ≠ 0 ->
  (∀ i q, ∃ a, claude e i q = Ok a) ->
  (∀ out, write_error e (Pipeline.path (pipeline_of s)) out = None) ->
  (Pipeline.skips (pipeline_of s) df = false ->
   Pipeline.key (pipeline_of s) ∈ DataFrame.names df0) ->
  (∀ c, c ∈ parallel_columns_of s -> c ∈ DataFrame.names df0) ->
  (∀ rate,
     Pipeline.masking (pipeline_of s) = Pipeline.AtRandom rate ->
     Forall maskable (key_cells s df)) ->
  ∃ w, Pipeline.run (pipeline_of s) e w0 = (w, Ok tt).
Proof.
  intros Hcsv Hrect0 Hs Hn Hservice Hwrite Hkey Hcols Hwords.
  assert (Hrect : DataFrame.rectangular df).
  { rewrite sample_pipeline in Hs. by eapply rectangular_sample. }
  assert (Hnames : DataFrame.names df = DataFrame.names df0).
  { rewrite sample_pipeline in Hs. by eapply names_sample. }
  destruct (stage1_goes_through s df e w0 Hrect Hn Hservice)
    as (w1 & df1 & H1 & Hrect1 & Hrows1 & Hinter & Hold);
    [by rewrite Hnames|done|].
  destruct (stage2_total (pipeline_of s) df1 e w1 Hservice)
    as (w2 & out & H2).
  { intros i Hi. rewrite fill_pipeline.
    apply fill_of_total; [done|done|done|].
    intros c Hc. apply Hold. rewrite Hnames. by apply Hcols. }
  unfold Pipeline.run, bind at 1, read_csv.
  rewrite input_pipeline, Hcsv. unfold bind at 1, lift.
  rewrite <- sample_pipeline, Hs. unfold bind at 1. rewrite H1.
  unfold bind. rewrite H2. unfold to_csv. rewrite Hwrite. by eexists.
Qed.

End answered_runs.

(** ** The claims about the runs of the scripts *)

Section claims_about_runs.

Local Open Scope nat_scope.

Lemma nrows_stage1 p df T1 df1 :
  DataFrame.rectangular df -> stage1_done p df T1 df1 ->
  DataFrame.nrows df1 = DataFrame.nrows df.
Proof.
  intros Hrect [(_ & _ & ->)|(_ & src & masked & Hsrc & Hrun & Hlen & ->)];
    [done|].
  apply nrows_set_old.
  - intros ->. discriminate.
  - rewrite length_map, Hlen. by eapply rectangular_find.
Qed.

(** The prompts of stage 1: one per row when the stage goes through the
    service, none otherwise. *)
Lemma prompts_stage1 s df T1 df1 :
  DataFrame.rectangular df -> stage1_done (pipeline_of s) df T1 df1 ->
  length (prompts T1)
    = (if masks_by_service s df then DataFrame.nrows df else 0) ∧
  ∀ q, q ∈ prompts T1 -> startswith mask_prefix q = true.
Proof.
  intros Hrect [(Hskip & -> & _)|(Hskip & src & masked & Hsrc & Hrun & _)].
  - rewrite skips_pipeline in Hskip. destruct s; try discriminate.
    cbn [masks_by_service]. rewrite Hskip. split; [done|].
    intros q Hq. by apply elem_of_nil in Hq.
  - rewrite skips_pipeline in Hskip.
    pose proof (Run_complete _ _ _ Hrun) as Hlen.
    pose proof (rectangular_find _ _ _ Hrect Hsrc) as Hsrclen.
    destruct (Pipeline.masking (pipeline_of s)) as [prompt|rate] eqn:Hm.
    + rewrite (prompts_masked_service _ _ _ _ Hrun).
      split.
      * rewrite length_map, length_take, Hlen, Nat.min_id, Hsrclen.
        destruct s; cbn [masks_by_service]; try done.
        by rewrite Hskip.
      * intros q (c & -> & _)%list_elem_of_fmap.
        by eapply mask_prompt_prefix.
    + rewrite (prompts_masked_random _ _ _ _ Hrun).
      split; [|intros q Hq; by apply elem_of_nil in Hq].
      destruct s; try discriminate. done.
Qed.

Lemma prompts_stage1_bound s df src T1 z :
  DataFrame.rectangular df ->
  DataFrame.find (Pipeline.key (pipeline_of s)) df = Some src ->
  Pipeline.skips (pipeline_of s) df = false ->
  Run (masked_by (Pipeline.masking (pipeline_of s))) src T1 (Some z) ->
  length (prompts T1)
    <= (if masks_by_service s df then DataFrame.nrows df else 0).
Proof.
  intros Hrect Hsrc Hskip Hrun. rewrite skips_pipeline in Hskip.
  pose proof (Run_length _ _ _ _ Hrun) as Hlen.
  pose proof (rectangular_find _ _ _ Hrect Hsrc) as Hsrclen.
  destruct (Pipeline.masking (pipeline_of s)) as [prompt|rate] eqn:Hm.
  - rewrite (prompts_masked_service _ _ _ _ Hrun).
    rewrite length_map, length_take.
    destruct s; cbn [masks_by_service]; try discriminate;
      rewrite ?Hskip; cbn [negb]; lia.
  - rewrite (prompts_masked_random _ _ _ _ Hrun). cbn. lia.
Qed.

(** C2, as the code has it.  In a run on a frame with rows that ends
    well, the prompts sent are those of stage 1 followed by those of
    stage 2: stage 2 sends one per processed row; stage 1 sends one per
    processed row in the linguistically motivated and the reverse script,
    and in the multi-language script unless the input brings the
    placeholders; the randomized script sends none in stage 1.  A masking
    prompt is never a filling prompt, and the CSV is written after all
    requests.  And the run ends well when the service answers every
    request, the columns the stages read are in the input, the texts are
    such as the random masking accepts and [to_csv] returns. *)
Theorem calls_per_row (s : script) (e : env) (df0 df : DataFrame.t)
  (w : world) (r : result unit) :
  csv e (input_of s) = Ok df0 ->
  DataFrame.rectangular df0 ->
  sample_of s df0 = Ok df ->
  DataFrame.nrows df ≠ 0 ->
  main_of s e world0 = (w, r) ->
  (r = Ok tt ->
   ∃ masks fills before path out,
     trace w = before ++ [EWrite path out] ∧
     Forall (fun ev => is_write ev = false) before ∧
     prompts before = masks ++ fills ∧
     length masks
       = (if masks_by_service s df then DataFrame.nrows df else 0) ∧
     length fills = DataFrame.nrows df ∧
     ∀ m f, m ∈ masks -> f ∈ fills -> m ≠ f) ∧
  ((∀ i q, ∃ a, claude e i q = Ok a) ->
   (∀ out, write_error e (Pipeline.path (pipeline_of s)) out = None) ->
   rejected s = false ->
   (Pipeline.skips (pipeline_of s) df = false ->
    Pipeline.key (pipeline_of s) ∈ DataFrame.names df0) ->
   (∀ c, c ∈ parallel_columns_of s -> c ∈ DataFrame.names df0) ->
   (∀ rate,
      Pipeline.masking (pipeline_of s) = Pipeline.AtRandom rate ->
      Forall maskable (key_cells s df)) ->
   r = Ok tt).
Proof.
  intros Hcsv Hrect0 Hs Hn Hmain. split.
  2:{ intros Hservice Hwrite Hrej Hkey Hcols Hwords.
      destruct (run_total s e df0 df world0) as [w' Hrun]; [done..|].
      rewrite main_pipeline, Hrej, Hrun in Hmain.
      by injection Hmain as <- <-. }
  intros ->.
  destruct (main_cases _ _ _ _ Hmain)
    as [[_ [? [=]]]|(_ & df0' & df' & Hcsv' & Hs' & Hout)].
  rewrite Hcsv in Hcsv'. injection Hcsv' as <-.
  rewrite Hs in Hs'. injection Hs' as <-.
  assert (Hrect : DataFrame.rectangular df).
  { rewrite sample_pipeline in Hs. by eapply rectangular_sample. }
  inversion Hout as [| | | |df1 T1 T2 filled Hdone Hrun Hlen Hwe HT];
    subst.
  destruct (prompts_stage1 s df T1 df1 Hrect Hdone) as [Hmasks Hprefix].
  rewrite fill_pipeline in Hrun.
  destruct (prompts_filled _ _ _ _ Hrun) as [Hfills Hfilled].
  exists (prompts T1), (prompts T2), (T1 ++ T2). eexists _, _.
  split; [by rewrite <- app_assoc|].
  split.
  { apply Forall_app. split; [by eapply stage1_done_no_write|].
    by eapply Run_no_write. }
  split; [apply prompts_app|]. split; [done|]. split.
  { rewrite Hfills, (Run_complete _ _ _ Hrun), length_rows.
    by eapply nrows_stage1. }
  intros m f Hm Hf ->.
  apply Hprefix in Hm. apply Hfilled in Hf as (row & _ & Hfill).
  apply fill_prompt_prefix in Hfill. congruence.
Qed.

Lemma mask_prompts_nil s : mask_prompts s [] = [].
Proof.
  unfold mask_prompts. by destruct (Pipeline.masking (pipeline_of s)).
Qed.

Lemma prompts_masked s src T o :
  Run (masked_by (Pipeline.masking (pipeline_of s))) src T o ->
  prompts T = mask_prompts s (take (length T) src).
Proof.
  unfold mask_prompts.
  destruct (Pipeline.masking (pipeline_of s)) as [prompt|rate].
  - apply prompts_masked_service.
  - apply prompts_masked_random.
Qed.

(** The prompts of a stage 1 that stops are those of the rows it came
    to. *)
Lemma prompts_stage1_stops s df src T1 z :
  DataFrame.rectangular df ->
  DataFrame.find (Pipeline.key (pipeline_of s)) df = Some src ->
  Pipeline.skips (pipeline_of s) df = false ->
  Run (masked_by (Pipeline.masking (pipeline_of s))) src T1 (Some z) ->
  ∃ m,
    prompts T1 = mask_prompts s (take m (key_cells s df)) ∧
    m <= (if masks_by_service s df then DataFrame.nrows df else 0).
Proof.
  intros Hrect Hsrc Hskip Hrun.
  pose proof (Run_length _ _ _ _ Hrun) as Hlen.
  rewrite (rectangular_find _ _ _ Hrect Hsrc) in Hlen.
  rewrite (prompts_masked _ _ _ _ Hrun).
  unfold key_cells. rewrite Hsrc. cbn [default].
  rewrite masks_by_service_masking, Hskip. unfold mask_prompts.
  destruct (Pipeline.masking (pipeline_of s)) as [prompt|rate].
  - exists (length T1). done.
  - exists 0. done.
Qed.

(** The prompts of a stage 1 that went through all rows. *)
Lemma prompts_stage1_done s df T1 df1 :
  DataFrame.rectangular df ->
  stage1_done (pipeline_of s) df T1 df1 ->
  prompts T1
    = mask_prompts s
        (take (if masks_by_service s df then DataFrame.nrows df else 0)
           (key_cells s df)) ∧
  (df1 = df ∨
   ∃ masked, df1 = DataFrame.set (intermediate_of s) (map CStr masked) df).
Proof.
  intros Hrect
    [(Hskip & -> & ->)
    |(Hskip & src & masked & Hsrc & Hrun & _ & ->)].
  - split; [|by left]. rewrite masks_by_service_masking, Hskip.
    destruct (Pipeline.masking (pipeline_of s));
      cbn [negb take]; by rewrite mask_prompts_nil.
  - split; [|right; rewrite intermediate_pipeline; by eexists].
    rewrite (prompts_masked _ _ _ _ Hrun), (Run_complete _ _ _ Hrun).
    rewrite (rectangular_find _ _ _ Hrect Hsrc).
    unfold key_cells. rewrite Hsrc. cbn [default].
    rewrite masks_by_service_masking, Hskip. unfold mask_prompts.
    by destruct (Pipeline.masking (pipeline_of s)).
Qed.

(** The prompts of stage 2 are those of the rows it came to, in the order
    of the rows. *)
Lemma prompts_filled_prefix fill rows T o :
  Run (filled_by fill) rows T o ->
  Forall2 (fun row q => fill row = Ok q) (take (length T) rows) (prompts T).
Proof.
  induction 1 as [|x l ev T o (q' & oc & Hq & ->) Hev Hrun IH
                  |x l ev z (q' & oc & Hq & ->) Hev|]; cbn.
  - constructor.
  - by constructor.
  - rewrite take_0. by repeat constructor.
  - constructor.
Qed.

(** C3, as the code has it, on a frame with rows.  A request that raises
    ends the run: its exception is the result of [main], no event follows
    it (there is no second attempt) and [to_csv] is not called.  The
    requests of a run are those of stage 1 for the first [m] rows followed
    by those of stage 2 for the first [f] rows, one per row and in the
    order of the rows; a stage that does not use the service sends none;
    stage 2 starts, and [to_csv] is called, only after the stage before
    went through all rows; a run that ends well went through all rows in
    both stages.  With a service that answers every request, the columns
    the stages read in the input, texts the random masking accepts and a
    [to_csv] that returns, the run ends well. *)
Theorem no_retry (s : script) (e : env) (df0 df : DataFrame.t) (w : world)
  (r : result unit) :
  csv e (input_of s) = Ok df0 ->
  DataFrame.rectangular df0 ->
  sample_of s df0 = Ok df ->
  DataFrame.nrows df ≠ 0 ->
  main_of s e world0 = (w, r) ->
  (∀ q z, EInvoke q (Raise z) ∈ trace w ->
     r = Raise z ∧ last (trace w) = Some (EInvoke q (Raise z)) ∧
     Forall (fun ev => is_write ev = false) (trace w)) ∧
  (∃ m f df1 fills,
     prompts (trace w) = mask_prompts s (take m (key_cells s df)) ++ fills ∧
     Forall2 (fun row q => fill_of s row = Ok q)
       (take f (DataFrame.rows df1)) fills ∧
     (df1 = df ∨
      ∃ masked,
        df1 = DataFrame.set (intermediate_of s) (map CStr masked) df) ∧
     m <= (if masks_by_service s df then DataFrame.nrows df else 0) ∧
     f <= DataFrame.nrows df ∧
     (f ≠ 0 ->
      m = (if masks_by_service s df then DataFrame.nrows df else 0)) ∧
     (∀ path out, EWrite path out ∈ trace w ->
        m = (if masks_by_service s df then DataFrame.nrows df else 0) ∧
        f = DataFrame.nrows df) ∧
     (r = Ok tt ->
      m = (if masks_by_service s df then DataFrame.nrows df else 0) ∧
      f = DataFrame.nrows df)) ∧
  ((∀ i q, ∃ a, claude e i q = Ok a) ->
   (∀ out, write_error e (Pipeline.path (pipeline_of s)) out = None) ->
   rejected s = false ->
   (Pipeline.skips (pipeline_of s) df = false ->
    Pipeline.key (pipeline_of s) ∈ DataFrame.names df0) ->
   (∀ c, c ∈ parallel_columns_of s -> c ∈ DataFrame.names df0) ->
   (∀ rate,
      Pipeline.masking (pipeline_of s) = Pipeline.AtRandom rate ->
      Forall maskable (key_cells s df)) ->
   r = Ok tt ∧
   length (prompts (trace w))
     = (if masks_by_service s df then 2 else 1) * DataFrame.nrows df).
Proof.
  intros Hcsv Hrect0 Hs Hn Hmain.
  assert (Hrect : DataFrame.rectangular df).
  { rewrite sample_pipeline in Hs. by eapply rectangular_sample. }
  set (M := if masks_by_service s df then DataFrame.nrows df else 0).
  assert (Hcount : ∀ df1 T1 T2 W,
    stage1_done (pipeline_of s) df T1 df1 ->
    Run (filled_by (Pipeline.fill (pipeline_of s)))
      (DataFrame.rows df1) T2 None ->
    prompts W = [] ->
    length (prompts (T1 ++ T2 ++ W))
      = (if masks_by_service s df then 2 else 1) * DataFrame.nrows df).
  { intros df1 T1 T2 W Hdone Hrun HW.
    destruct (prompts_stage1 s df T1 df1 Hrect Hdone) as [Hmasks _].
    destruct (prompts_filled _ _ _ _ Hrun) as [Hfills _].
    apply Run_complete in Hrun.
    rewrite length_rows, (nrows_stage1 _ _ _ _ Hrect Hdone) in Hrun.
    rewrite !prompts_app, HW, app_nil_r, length_app, Hmasks, Hfills, Hrun.
    destruct (masks_by_service s df); lia. }
  assert (Hsecond : ∀ df1 T1 T2 o,
    stage1_done (pipeline_of s) df T1 df1 ->
    Run (filled_by (Pipeline.fill (pipeline_of s)))
      (DataFrame.rows df1) T2 o ->
    prompts (T1 ++ T2)
      = mask_prompts s (take M (key_cells s df)) ++ prompts T2 ∧
    Forall2 (fun row q => fill_of s row = Ok q)
      (take (length T2) (DataFrame.rows df1)) (prompts T2) ∧
    (df1 = df ∨
     ∃ masked,
       df1 = DataFrame.set (intermediate_of s) (map CStr masked) df) ∧
    length T2 <= DataFrame.nrows df ∧
    (o = None -> length T2 = DataFrame.nrows df)).
  { intros df1 T1 T2 o Hdone Hrun.
    destruct (prompts_stage1_done s df T1 df1 Hrect Hdone) as [HT1 Hdf1].
    rewrite prompts_app, HT1. split; [done|].
    rewrite fill_pipeline in Hrun.
    split; [by eapply prompts_filled_prefix|]. split; [done|].
    pose proof (Run_length _ _ _ _ Hrun) as Hle.
    rewrite length_rows, (nrows_stage1 _ _ _ _ Hrect Hdone) in Hle.
    split; [done|]. intros ->. apply Run_complete in Hrun.
    by rewrite length_rows, (nrows_stage1 _ _ _ _ Hrect Hdone) in Hrun. }
  destruct (main_cases _ _ _ _ Hmain)
    as [[Htr [z Hz]]|(Hrej & df0' & df' & Hcsv' & Hs' & Hout)].
  { split; [|split].
    - intros q z' Hin. rewrite Htr in Hin. by apply elem_of_nil in Hin.
    - exists 0, 0, df, []. rewrite Htr. cbn [take].
      rewrite mask_prompts_nil.
      split; [done|]. split; [constructor|]. split; [by left|].
      split; [lia|]. split; [lia|]. split; [done|]. split.
      + intros path out Hin. by apply elem_of_nil in Hin.
      + intros ->. discriminate.
    - intros Hservice Hwrite Hrej Hkey Hcols Hwords.
      destruct (run_total s e df0 df world0)
        as [w' Hrun]; [done..|].
      rewrite main_pipeline, Hrej, Hrun in Hmain.
      injection Hmain as <- <-. discriminate. }
  rewrite Hcsv in Hcsv'. injection Hcsv' as <-.
  rewrite Hs in Hs'. injection Hs' as <-.
  split; [intros q z Hin; by eapply outcome_failed|].
  split.
  - destruct Hout as
      [Hskip Hkey|src T1 z' Hskip Hkey Hrun|df1 T1 T2 z' Hdone Hrun
      |df1 T1 T2 filled z' Hdone Hrun Hlen Hwe
      |df1 T1 T2 filled Hdone Hrun Hlen Hwe].
    + exists 0, 0, df, []. cbn [take]. rewrite mask_prompts_nil.
      split; [done|]. split; [constructor|]. split; [by left|].
      split; [lia|]. split; [lia|]. split; [done|]. split.
      * intros path out Hin. by apply elem_of_nil in Hin.
      * discriminate.
    + destruct (prompts_stage1_stops s df src T1 z' Hrect Hkey Hskip Hrun)
        as (m & Hm & Hle).
      exists m, 0, df, []. rewrite app_nil_r.
      split; [done|]. split; [constructor|]. split; [by left|].
      split; [done|]. split; [lia|]. split; [done|]. split.
      * intros path out Hin.
        by apply (not_write_in _ _ _ (Run_no_write _ _ _ _ Hrun)) in Hin.
      * discriminate.
    + destruct (Hsecond df1 T1 T2 _ Hdone Hrun)
        as (Hp & Hf & Hdf1 & Hle & _).
      exists M, (length T2), df1, (prompts T2).
      split; [done|]. split; [done|]. split; [done|].
      split; [done|]. split; [done|]. split; [done|]. split.
      * intros path out [Hin|Hin]%elem_of_app.
        -- by apply (not_write_in _ _ _
                       (stage1_done_no_write _ _ _ _ Hdone)) in Hin.
        -- by apply (not_write_in _ _ _ (Run_no_write _ _ _ _ Hrun))
             in Hin.
      * discriminate.
    + destruct (Hsecond df1 T1 T2 _ Hdone Hrun)
        as (Hp & Hf & Hdf1 & Hle & Hall).
      exists M, (length T2), df1, (prompts T2).
      rewrite app_assoc, prompts_app, prompts_write, app_nil_r.
      split; [done|]. split; [done|]. split; [done|].
      split; [done|]. split; [done|]. split; [done|].
      split; [|discriminate]. intros _ _ _. split; [done|by apply Hall].
    + destruct (Hsecond df1 T1 T2 _ Hdone Hrun)
        as (Hp & Hf & Hdf1 & Hle & Hall).
      exists M, (length T2), df1, (prompts T2).
      rewrite app_assoc, prompts_app, prompts_write, app_nil_r.
      split; [done|]. split; [done|]. split; [done|].
      split; [done|]. split; [done|]. split; [done|].
      split; intros; (split; [done|by apply Hall]).
  - intros Hservice Hwrite _ Hkey Hcols Hwords.
    destruct (run_total s e df0 df world0) as [w' Hrun]; [done..|].
    rewrite main_pipeline, Hrej, Hrun in Hmain.
    injection Hmain as <- <-. split; [done|].
    inversion Hout as [| | | |df1 T1 T2 filled Hdone Hrun' Hlen Hwe HT];
      subst.
    by apply (Hcount df1).
Qed.

End claims_about_runs.

Section order_and_frame.

Local Open Scope nat_scope.

Lemma stage1_done_prefix s df T1 df1 :
  DataFrame.rectangular df ->
  stage1_done (pipeline_of s) df T1 df1 ->
  Forall2 (masked_by (Pipeline.masking (pipeline_of s)))
    (take (length T1) (key_cells s df)) T1 ∧
  (Pipeline.skips (pipeline_of s) df = true -> T1 = []) ∧
  ((Pipeline.skips (pipeline_of s) df = true ∧ df1 = df) ∨
   (length T1 = DataFrame.nrows df ∧
    ∃ masked,
      df1 = DataFrame.set (intermediate_of s) (map CStr masked) df)).
Proof.
  intros Hrect [(Hskip & -> & ->)|(Hskip & src & masked & Hsrc & Hrun & _ & ->)].
  - split; [constructor|]. split; [done|]. by left.
  - unfold key_cells. rewrite Hsrc. cbn [default].
    split; [by eapply Run_prefix|]. split; [congruence|]. right.
    rewrite (Run_complete _ _ _ Hrun), <- intermediate_pipeline.
    split; [by eapply rectangular_find|]. by exists masked.
Qed.

(** C4, as the code has it, on a frame with rows.  The events of a run
    are those of stage 1, then those of stage 2, then the call of
    [to_csv]: each stage leaves one event per row, in the order of the
    rows; stage 2 starts, and [to_csv] is called, only after stage 1 went
    through all rows, or was skipped, which the multi-language script does
    when the input brings the placeholders; [to_csv] is called only after
    stage 2 went through all rows, and the run ends as that call does. *)
Theorem stages_in_order (s : script) (e : env) (df0 df : DataFrame.t)
  (w : world) (r : result unit) :
  csv e (input_of s) = Ok df0 ->
  DataFrame.rectangular df0 ->
  sample_of s df0 = Ok df ->
  DataFrame.nrows df ≠ 0 ->
  main_of s e world0 = (w, r) ->
  ∃ T1 T2 W df1,
    trace w = T1 ++ T2 ++ W ∧
    Forall2 (masked_by (Pipeline.masking (pipeline_of s)))
      (take (length T1) (key_cells s df)) T1 ∧
    Forall2 (filled_by (fill_of s))
      (take (length T2) (DataFrame.rows df1)) T2 ∧
    (Pipeline.skips (pipeline_of s) df = true -> T1 = []) ∧
    (T2 ≠ [] ∨ W ≠ [] ->
       (Pipeline.skips (pipeline_of s) df = true ∧ df1 = df) ∨
       (length T1 = DataFrame.nrows df ∧
        ∃ masked,
          df1 = DataFrame.set (intermediate_of s) (map CStr masked) df)) ∧
    (W = [] ∨
     ∃ out, W = [EWrite (Pipeline.path (pipeline_of s)) out] ∧
            length T2 = DataFrame.nrows df ∧
            r = match write_error e (Pipeline.path (pipeline_of s)) out with
                | Some z => Raise z
                | None => Ok tt
                end).
Proof.
  intros Hcsv Hrect0 Hs Hn Hmain.
  destruct (main_cases _ _ _ _ Hmain)
    as [[Htr _]|(_ & df0' & df' & Hcsv' & Hs' & Hout)].
  { exists [], [], [], df. rewrite Htr. cbn.
    split; [done|]. split; [constructor|]. split; [constructor|].
    split; [done|]. split; [intros [?|?]; done|by left]. }
  rewrite Hcsv in Hcsv'. injection Hcsv' as <-.
  rewrite Hs in Hs'. injection Hs' as <-.
  assert (Hrect : DataFrame.rectangular df).
  { rewrite sample_pipeline in Hs. by eapply rectangular_sample. }
  destruct Hout as
    [Hskip Hkey|src T1 z' Hskip Hkey Hrun|df1 T1 T2 z' Hdone Hrun
    |df1 T1 T2 filled z' Hdone Hrun Hlen Hwe
    |df1 T1 T2 filled Hdone Hrun Hlen Hwe].
  - exists [], [], [], df. cbn.
    split; [done|]. split; [constructor|]. split; [constructor|].
    split; [done|]. split; [intros [?|?]; done|by left].
  - exists T1, [], [], df. rewrite !app_nil_r. cbn.
    split; [done|]. split.
    { unfold key_cells. rewrite Hkey. by eapply Run_prefix. }
    split; [constructor|]. split; [congruence|].
    split; [intros [?|?]; done|by left].
  - destruct (stage1_done_prefix s df T1 df1 Hrect Hdone)
      as (H1 & H2 & H3).
    rewrite fill_pipeline in Hrun.
    exists T1, T2, [], df1. rewrite app_nil_r.
    split; [done|]. split; [done|]. split; [by eapply Run_prefix|].
    split; [done|]. split; [done|by left].
  - destruct (stage1_done_prefix s df T1 df1 Hrect Hdone)
      as (H1 & H2 & H3).
    rewrite fill_pipeline in Hrun.
    eexists T1, T2, [_], df1.
    split; [done|]. split; [done|]. split; [by eapply Run_prefix|].
    split; [done|]. split; [done|]. right. eexists.
    split; [done|]. rewrite Hwe. split; [|done].
    rewrite (Run_complete _ _ _ Hrun), length_rows.
    by eapply nrows_stage1.
  - destruct (stage1_done_prefix s df T1 df1 Hrect Hdone)
      as (H1 & H2 & H3).
    rewrite fill_pipeline in Hrun.
    eexists T1, T2, [_], df1.
    split; [done|]. split; [done|]. split; [by eapply Run_prefix|].
    split; [done|]. split; [done|]. right. eexists.
    split; [done|]. rewrite Hwe. split; [|done].
    rewrite (Run_complete _ _ _ Hrun), length_rows.
    by eapply nrows_stage1.
Qed.

Lemma set_last {C} name (v v0 : list C) (df : DataFrame.frame C) :
  name ∉ DataFrame.names df ->
  DataFrame.set name v (df ++ [(name, v0)]) = df ++ [(name, v)].
Proof.
  unfold DataFrame.names. induction df as [|[n c] df IH]; cbn.
  - intros _. by rewrite decide_True.
  - rewrite not_elem_of_cons. intros [Hne Hnin].
    rewrite decide_False by done. by rewrite IH.
Qed.

(** C9.  When neither the intermediate column nor the column of the
    result occurs in the input, the frame a script writes is the frame of
    the rows it retained, every column as it was, followed by the
    intermediate column and the column of the result (one column when the
    two have the same name). *)
Theorem frame_preserved (s : script) (e : env) (df0 : DataFrame.t)
  (w : world) (r : result unit) (path : str) (out : DataFrame.t) :
  csv e (input_of s) = Ok df0 ->
  intermediate_of s ∉ DataFrame.names df0 ->
  csw_of s ∉ DataFrame.names df0 ->
  main_of s e world0 = (w, r) ->
  EWrite path out ∈ trace w ->
  ∃ df added,
    sample_of s df0 = Ok df ∧
    DataFrame.names df = DataFrame.names df0 ∧
    out = df ++ added ∧
    DataFrame.names added
      = (if decide (intermediate_of s = csw_of s) then [csw_of s]
         else [intermediate_of s; csw_of s]).
Proof.
  intros Hcsv Hinter Hcsw Hmain Hin.
  destruct (main_cases _ _ _ _ Hmain)
    as [[Htr _]|(_ & df0' & df & Hcsv' & Hs & Hout)].
  { rewrite Htr in Hin. by apply elem_of_nil in Hin. }
  rewrite Hcsv in Hcsv'. injection Hcsv' as <-.
  assert (Hnames : DataFrame.names df = DataFrame.names df0).
  { rewrite sample_pipeline in Hs. by eapply names_sample. }
  destruct (outcome_written _ _ _ _ _ _ _ Hout Hin)
    as (_ & df1 & T1 & T2 & filled & Hdone & _ & _ & _ & -> & _).
  rewrite output_pipeline.
  destruct Hdone as [(Hskip & _ & _)|(_ & src & masked & _ & _ & _ & ->)].
  { exfalso. rewrite skips_pipeline in Hskip.
    destruct s; try discriminate. cbn [intermediate_of] in Hinter.
    unfold DataFrame.has_column in Hskip.
    apply bool_decide_eq_true in Hskip. rewrite Hnames in Hskip.
    exact (Hinter Hskip). }
  rewrite intermediate_pipeline.
  rewrite <- Hnames in Hinter, Hcsw.
  rewrite (set_new (intermediate_of s)) by done.
  exists df. destruct (decide (intermediate_of s = csw_of s)) as [Heq|Hne].
  - rewrite Heq. rewrite set_last by done.
    eexists. split; [done|]. split; [done|]. split; [done|]. done.
  - rewrite set_new.
    + rewrite <- app_assoc. eexists. split; [done|]. split; [done|].
      split; [done|]. done.
    + unfold DataFrame.names in *. rewrite map_app, not_elem_of_app.
      split; [done|]. cbn. rewrite list_elem_of_singleton. congruence.
Qed.

End order_and_frame.

(** ** The Belebele frame *)

Section belebele.

Local Open Scope nat_scope.
Import Prepare.

Lemma str_leb_total a b : str_leb a b = true ∨ str_leb b a = true.
Proof.
  revert b. induction a as [|x a IH]; intros [|y b]; cbn; auto.
  destruct (N.ltb_spec x y), (N.ltb_spec y x); auto; lia.
Qed.

Lemma str_leb_trans a b c :
  str_leb a b = true -> str_leb b c = true -> str_leb a c = true.
Proof.
  revert b c. induction a as [|x a IH]; intros [|y b] [|z c]; cbn;
    try done.
  destruct (N.ltb_spec x y), (N.ltb_spec y x), (N.ltb_spec y z),
    (N.ltb_spec z y), (N.ltb_spec x z), (N.ltb_spec z x);
    try done; try lia.
  apply IH.
Qed.

Lemma str_leb_antisym a b :
  str_leb a b = true -> str_leb b a = true -> a = b.
Proof.
  revert b. induction a as [|x a IH]; intros [|y b]; cbn; try done.
  destruct (N.ltb_spec x y), (N.ltb_spec y x); try done; try lia.
  intros Hab Hba. f_equal; [lia|by apply IH].
Qed.

#[local] Instance str_le_trans : Transitive str_le.
Proof.
  intros a b c. unfold str_le. rewrite !Is_true_true. apply str_leb_trans.
Qed.

#[local] Instance str_le_antisym : AntiSymm (=) str_le.
Proof.
  intros a b. unfold str_le. rewrite !Is_true_true. apply str_leb_antisym.
Qed.

(** The rows at the positions [0, 1, ...] of a list are the list. *)
Lemma omap_lookup_seq {A} (pre l : list A) :
  omap (fun i => (pre ++ l) !! i) (seq (length pre) (length l)) = l.
Proof.
  revert pre. induction l as [|x l IH]; intros pre; [done|].
  cbn [length seq]. csimpl. rewrite list_lookup_middle by done.
  f_equal. specialize (IH (pre ++ [x])).
  rewrite <- app_assoc, length_app in IH. cbn in IH.
  by rewrite Nat.add_1_r in IH.
Qed.

Lemma omap_lookup_all {A} (l : list A) :
  omap (fun i => l !! i) (seq 0 (length l)) = l.
Proof. exact (omap_lookup_seq [] l). Qed.

Lemma Sorted_by {A B} (f : A -> B) (R : relation B) l :
  Sorted R (map f l) -> Sorted (fun a b => R (f a) (f b)) l.
Proof.
  induction l as [|x l IH]; [constructor|].
  cbn [map]. intros Hs. apply Sorted_inv in Hs as [Hs Hhd].
  constructor; [by apply IH|].
  destruct l; [constructor|]. apply HdRel_inv in Hhd. by constructor.
Qed.

(** The links of the sorted rows are the sorted links. *)
Lemma links_sorted argsort test :
  map link (sort_values_by_link argsort test)
    = omap (fun i => map link test !! i) (argsort (map link test)).
Proof.
  unfold sort_values_by_link.
  change (map link (omap ?f ?l)) with (link <$> omap f l).
  rewrite list_fmap_omap. apply list_omap_ext, Forall2_same_length_lookup.
  split; [done|]. intros i x y Hx Hy. rewrite Hx in Hy. injection Hy as <-.
  by rewrite list_lookup_fmap.
Qed.

Lemma sort_values_sorted argsort test :
  sorts argsort -> Sorted link_le (sort_values_by_link argsort test).
Proof.
  intros Hsorts. destruct (Hsorts (map link test)) as [_ Hs].
  rewrite <- links_sorted in Hs. by apply Sorted_by in Hs.
Qed.

Lemma sort_values_permutation argsort test :
  sorts argsort -> sort_values_by_link argsort test ≡ₚ test.
Proof.
  intros Hsorts. destruct (Hsorts (map link test)) as [Hp _].
  unfold sort_values_by_link. rewrite Hp, length_map.
  by rewrite omap_lookup_all.
Qed.

(** Splits with the same links have, after the sort, the same link in
    every row. *)
Lemma sort_values_same_links argsort test1 test2 :
  sorts argsort ->
  map link test1 ≡ₚ map link test2 ->
  map link (sort_values_by_link argsort test1)
    = map link (sort_values_by_link argsort test2).
Proof.
  intros Hsorts Hp.
  apply (Sorted_unique str_le).
  - rewrite links_sorted. apply Hsorts.
  - rewrite links_sorted. apply Hsorts.
  - change (map link ?l) with (link <$> l).
    rewrite !sort_values_permutation by done. exact Hp.
Qed.

(** Splits with the same links in the same order are sorted alike: a row
    of one and the row of the other at the same position stood at the
    same position before. *)
Lemma sort_values_parallel argsort test1 test2 i r1 r2 :
  map link test1 = map link test2 ->
  sort_values_by_link argsort test1 !! i = Some r1 ->
  sort_values_by_link argsort test2 !! i = Some r2 ->
  ∃ j, test1 !! j = Some r1 ∧ test2 !! j = Some r2.
Proof.
  unfold sort_values_by_link. intros Hlinks.
  assert (length test1 = length test2) as Hlen.
  { apply (f_equal length) in Hlinks. by rewrite !length_map in Hlinks. }
  rewrite <- Hlinks. clear Hlinks. revert i.
  induction (argsort (map link test1)) as [|j js IH]; intros i; [done|].
  csimpl.
  destruct (test1 !! j) as [x1|] eqn:H1, (test2 !! j) as [x2|] eqn:H2.
  - destruct i as [|i]; cbn.
    + intros [= <-] [= <-]. by exists j.
    + apply IH.
  - apply lookup_lt_Some in H1. apply lookup_ge_None in H2. lia.
  - apply lookup_ge_None in H1. apply lookup_lt_Some in H2. lia.
  - apply IH.
Qed.

(** A merge sort of the keys paired with their positions is a sort of
    the positions. *)
Lemma zip_seq_lookup {A} (l : list A) k :
  Forall (fun p => l !! (p.1 - k) = Some p.2 ∧ k <= p.1)
    (zip (seq k (length l)) l).
Proof.
  revert k. induction l as [|x l IH]; intros k; [constructor|].
  cbn [length seq zip zip_with]. constructor.
  - cbn. by rewrite Nat.sub_diag.
  - eapply Forall_impl; [apply (IH (S k))|].
    intros [i a] [Hi Hk]. cbn in *. split; [|lia].
    replace (i - k) with (S (i - S k)) by lia. done.
Qed.

#[local] Instance key_le_total : Total Cases.key_le.
Proof.
  intros a b. unfold Cases.key_le.
  destruct (str_leb_total a.2 b.2) as [->| ->]; cbn; auto.
Qed.

Lemma argsort_sorts : sorts Cases.argsort.
Proof.
  intros keys. unfold Cases.argsort.
  pose proof (merge_sort_Permutation Cases.key_le
                (zip (seq 0 (length keys)) keys)) as Hperm.
  pose proof (Sorted_merge_sort Cases.key_le
                (zip (seq 0 (length keys)) keys)) as Hsorted.
  revert Hperm Hsorted.
  generalize (merge_sort Cases.key_le (zip (seq 0 (length keys)) keys)).
  intros ps Hperm Hsorted. split.
  - change (map fst ps) with (fst <$> ps). rewrite Hperm.
    rewrite fst_zip; [done|]. by rewrite length_seq.
  - assert (Forall (fun p : nat * str => keys !! p.1 = Some p.2) ps)
      as Hall.
    { rewrite Hperm. eapply Forall_impl; [apply zip_seq_lookup|].
      intros [i a] [Hi _]. cbn in *. by rewrite Nat.sub_0_r in Hi. }
    assert (omap (fun i => keys !! i) (map fst ps) = map snd ps) as ->.
    { clear Hperm Hsorted.
      induction Hall as [|[i a] ps Hp _ IH]; [done|].
      csimpl. cbn in Hp. rewrite Hp. by f_equal. }
    by apply (Sorted_fmap snd Cases.key_le str_le).
Qed.

Lemma subset_frame_english argsort test :
  subset_frame argsort (lit "eng_Latn") test =
    let sorted := sort_values_by_link argsort test in
    Ok [ (lit "mc_answer1", map (fun r => CStr (mc_answer1 r)) sorted);
         (lit "mc_answer2", map (fun r => CStr (mc_answer2 r)) sorted);
         (lit "mc_answer3", map (fun r => CStr (mc_answer3 r)) sorted);
         (lit "mc_answer4", map (fun r => CStr (mc_answer4 r)) sorted);
         (lit "correct_answer_num",
            map (fun r => CStr (correct_answer_num r)) sorted);
         (lit "eng_flores_passage",
            map (fun r => CStr (flores_passage r)) sorted);
         (lit "eng_question", map (fun r => CStr (question r)) sorted) ].
Proof.
  unfold subset_frame.
  generalize (sort_values_by_link argsort test) as sorted.
  intros sorted. vm_compute. reflexivity.
Qed.

Lemma subset_frame_other argsort subset test :
  subset ∈ subsets -> subset ≠ lit "eng_Latn" ->
  subset_frame argsort subset test =
    let sorted := sort_values_by_link argsort test in
    Ok [ (prefix_of subset ++ lit "_flores_passage",
            map (fun r => CStr (flores_passage r)) sorted);
         (prefix_of subset ++ lit "_question",
            map (fun r => CStr (question r)) sorted) ].
Proof.
  intros Hin Hne. unfold subset_frame.
  generalize (sort_values_by_link argsort test) as sorted. intros sorted.
  unfold subsets in Hin.
  repeat (apply elem_of_cons in Hin as [->|Hin]; [try done;
    vm_compute; reflexivity|]).
  by apply elem_of_nil in Hin.
Qed.

Lemma find_app {C} name (a b : DataFrame.frame C) :
  DataFrame.find name (a ++ b) =
    match DataFrame.find name a with
    | Some v => Some v
    | None => DataFrame.find name b
    end.
Proof.
  induction a as [|[n c] a IH]; cbn; [done|].
  by destruct (decide (n = name)).
Qed.

Lemma find_concat name a b :
  DataFrame.find name (DataFrame.concat_columns a b) =
    DataFrame.pad (Nat.max (DataFrame.nrows a) (DataFrame.nrows b))
      <$> DataFrame.find name (a ++ b).
Proof. unfold DataFrame.concat_columns. apply find_map. Qed.

Lemma names_concat a b :
  DataFrame.names (DataFrame.concat_columns a b) =
    DataFrame.names a ++ DataFrame.names b.
Proof.
  unfold DataFrame.concat_columns. rewrite names_map.
  unfold DataFrame.names. apply map_app.
Qed.

Lemma pad_lookup n v i (x : cell) :
  v !! i = Some x -> DataFrame.pad n v !! i = Some x.
Proof. intros Hx. unfold DataFrame.pad. by apply lookup_app_l_Some. Qed.

Lemma holds_concat_l a b name v :
  holds a name v -> holds (DataFrame.concat_columns a b) name v.
Proof.
  intros Ha i x Hx. specialize (Ha i x Hx).
  rewrite find_concat, find_app.
  destruct (DataFrame.find name a) as [v'|]; [|done]. cbn in *.
  by apply pad_lookup.
Qed.

Lemma holds_concat_r a b name v :
  name ∉ DataFrame.names a -> holds b name v ->
  holds (DataFrame.concat_columns a b) name v.
Proof.
  intros Hnin Hb i x Hx. specialize (Hb i x Hx).
  rewrite find_concat, find_app.
  apply find_None in Hnin. rewrite Hnin.
  destruct (DataFrame.find name b) as [v'|]; [|done]. cbn in *.
  by apply pad_lookup.
Qed.

Lemma holds_find df name v :
  DataFrame.find name df = Some v -> holds df name v.
Proof. intros Hf i x Hx. by rewrite Hf. Qed.

Lemma belebele_eq argsort load_test :
  belebele argsort load_test =
    Ok (foldl DataFrame.concat_columns []
          (map (fun subset =>
                  match subset_frame argsort subset (load_test subset) with
                  | Ok df => df
                  | Raise _ => []
                  end) subsets)).
Proof.
  unfold belebele.
  assert (filter (fun subset => subset ≠ lit "All") subsets = subsets)
    as -> by (vm_compute; reflexivity).
  unfold subsets. cbn [combine map foldl].
  rewrite subset_frame_english.
  rewrite !subset_frame_other by compute_done.
  reflexivity.
Qed.

End belebele.

Section belebele_claim.

Local Open Scope nat_scope.
Import Prepare.

Ltac forget_sorted :=
  repeat match goal with
         | |- context [sort_values_by_link ?argsort ?test] =>
             generalize (sort_values_by_link argsort test); intro
         end.

Ltac column :=
  first
    [ apply holds_concat_r;
      [ compute_done | apply holds_find; vm_compute; reflexivity ]
    | apply holds_concat_l; column ].

(** C6.  Whatever order the sort gives to equal links, the frame written
    to [belebele.csv] has, for each of the five subsets, the columns
    [{prefix}_flores_passage] and [{prefix}_question], whose row [i] comes
    from row [i] of the test split of the subset sorted by ascending link,
    and the columns [mc_answer1] to [mc_answer4] and [correct_answer_num],
    which come from the English subset alone.  Across the subsets the rows
    are aligned by their links: two splits with the same links have the
    same link in every row, and two splits with the same links in the
    same order have in every row the records that stood at one position
    of the splits. *)
Theorem belebele_columns (argsort : list str -> list nat)
  (load_test : str -> list passage) :
  sorts argsort ->
  ∃ df,
    belebele argsort load_test = Ok df ∧
    DataFrame.names df =
      [ lit "mc_answer1"; lit "mc_answer2"; lit "mc_answer3";
        lit "mc_answer4"; lit "correct_answer_num";
        lit "eng_flores_passage"; lit "eng_question";
        lit "fra_flores_passage"; lit "fra_question";
        lit "deu_flores_passage"; lit "deu_question";
        lit "arb_flores_passage"; lit "arb_question";
        lit "zho_flores_passage"; lit "zho_question" ] ∧
    (∀ subset, subset ∈ subsets ->
       Sorted link_le (sort_values_by_link argsort (load_test subset)) ∧
       sort_values_by_link argsort (load_test subset)
         ≡ₚ load_test subset ∧
       holds df (prefix_of subset ++ lit "_flores_passage")
         (map (fun r => CStr (flores_passage r))
            (sort_values_by_link argsort (load_test subset))) ∧
       holds df (prefix_of subset ++ lit "_question")
         (map (fun r => CStr (question r))
            (sort_values_by_link argsort (load_test subset)))) ∧
    (∀ name field,
       (name, field) ∈
         [ (lit "mc_answer1", mc_answer1); (lit "mc_answer2", mc_answer2);
           (lit "mc_answer3", mc_answer3); (lit "mc_answer4", mc_answer4);
           (lit "correct_answer_num", correct_answer_num) ] ->
       holds df name
         (map (fun r => CStr (field r))
            (sort_values_by_link argsort (load_test (lit "eng_Latn"))))) ∧
    (∀ a b,
       map link (load_test a) ≡ₚ map link (load_test b) ->
       map link (sort_values_by_link argsort (load_test a))
         = map link (sort_values_by_link argsort (load_test b))) ∧
    (∀ a b i ra rb,
       map link (load_test a) = map link (load_test b) ->
       sort_values_by_link argsort (load_test a) !! i = Some ra ->
       sort_values_by_link argsort (load_test b) !! i = Some rb ->
       ∃ j, load_test a !! j = Some ra ∧ load_test b !! j = Some rb).
Proof.
  intros Hsorts.
  rewrite belebele_eq. eexists. split; [reflexivity|].
  unfold subsets. cbn [map foldl].
  rewrite subset_frame_english.
  rewrite !subset_frame_other by compute_done.
  cbv zeta.
  split; [rewrite !names_concat; vm_compute; reflexivity|].
  split; [|split; [|split]].
  - intros subset Hin.
    split; [by apply sort_values_sorted|].
    split; [by apply sort_values_permutation|].
    repeat (apply elem_of_cons in Hin as [->|Hin];
            [forget_sorted; split; column|]).
    by apply elem_of_nil in Hin.
  - intros name field Hin.
    repeat (apply elem_of_cons in Hin as [[= -> ->]|Hin];
            [forget_sorted; column|]).
    by apply elem_of_nil in Hin.
  - intros a b Hp. by apply sort_values_same_links.
  - intros a b i ra rb Hl Ha Hb. by eapply sort_values_parallel.
Qed.

End belebele_claim.

(** ** The XNLI frame *)

Section xnli.

Local Open Scope nat_scope.
Import Prepare.

(** The extraction of a translation returns, whatever the field holds. *)
Lemma extract_translation lang d : extract lang d = Ok (translation lang d).
Proof.
  unfold extract, translation. destruct d as [| | | |items]; try reflexivity.
  cbn. by destruct (lookup_key (KStr lang) items).
Qed.

Lemma map_result_total {A B} (f : A -> result B) (g : A -> B) l :
  (∀ x, f x = Ok (g x)) -> map_result f l = Ok (map g l).
Proof.
  intros Hf. induction l as [|x l IH]; [done|].
  cbn. rewrite Hf, IH. reflexivity.
Qed.

Lemma apply_extract name lang into xnli column :
  DataFrame.find name xnli = Some column ->
  apply_column name (extract lang) into xnli
    = Ok (DataFrame.set into (map (translation lang) column) xnli).
Proof.
  intros Hf. unfold apply_column, DataFrame.get. rewrite Hf. cbn.
  rewrite (map_result_total _ (translation lang))
    by apply extract_translation.
  reflexivity.
Qed.

Ltac find_column :=
  repeat first
    [ rewrite find_set_eq
    | rewrite find_set_ne by compute_done ].

(** C7.  On a frame whose fields are parsed, the loop over the language
    map raises nothing, and it leaves, for every pair [(lang, prefix)] of
    the map, the columns [{prefix}_premise] and [{prefix}_hypothesis] with
    the translation of every row: the value under the key [lang] when the
    field is a dictionary that has the key, [None] otherwise.  The script
    reaches the loop whenever the parsing of the fields raises nothing. *)
Theorem xnli_extraction (literal_eval : str -> result value)
  (raw parsed : DataFrame.frame value) (premise hypothesis : list value) :
  parse_fields literal_eval raw = Ok parsed ->
  DataFrame.find (lit "premise") parsed = Some premise ->
  DataFrame.find (lit "hypothesis") parsed = Some hypothesis ->
  (∀ lang d, extract lang d = Ok (translation lang d)) ∧
  ∃ out,
    xnli_frame literal_eval raw = Ok out ∧
    ∀ lang prefix, (lang, prefix) ∈ language_map ->
      DataFrame.find (prefix ++ lit "_premise") out
        = Some (map (translation lang) premise) ∧
      DataFrame.find (prefix ++ lit "_hypothesis") out
        = Some (map (translation lang) hypothesis).
Proof.
  intros Hparsed Hp Hh. split; [apply extract_translation|].
  unfold xnli_frame. rewrite Hparsed. cbn [and_then].
  unfold language_map. cbn [extract_languages].
  repeat (rewrite (apply_extract _ _ _ _ premise) by (find_column; exact Hp);
          cbn [and_then];
          rewrite (apply_extract _ _ _ _ hypothesis)
            by (find_column; exact Hh);
          cbn [and_then]).
  eexists. split; [reflexivity|].
  intros lang prefix Hin.
  repeat (apply elem_of_cons in Hin as [[= -> ->]|Hin];
          [split; find_column; reflexivity|]).
  by apply elem_of_nil in Hin.
Qed.

End xnli.

(** ** The sample a script takes *)

Section sampling_claim.

Local Open Scope nat_scope.

Lemma first_occurrences_true seen keys i :
  DataFrame.first_occurrences seen keys !! i = Some true ↔
  ∃ k, keys !! i = Some k ∧ (k ∉ seen) ∧ (k ∉ take i keys).
Proof.
  revert seen i. induction keys as [|k keys IH]; intros seen i.
  - cbn. split; [done|]. by intros (k & Hk & _).
  - cbn [DataFrame.first_occurrences].
    destruct (decide (k ∈ seen)) as [Hin|Hnin]; destruct i as [|i]; cbn.
    + split; [done|]. intros (k' & [= <-] & Hk' & _). done.
    + rewrite IH. split.
      * intros (k' & Hk' & Hs & Ht). exists k'. split; [done|].
        split; [done|]. rewrite not_elem_of_cons. split; [|done].
        intros ->. done.
      * intros (k' & Hk' & Hs & Ht). exists k'.
        apply not_elem_of_cons in Ht as [_ Ht]. done.
    + split; [|done]. intros _. exists k. split; [done|].
      split; [done|]. apply not_elem_of_nil.
    + rewrite IH. split.
      * intros (k' & Hk' & Hs & Ht). exists k'. split; [done|].
        apply not_elem_of_cons in Hs as [Hne Hs].
        split; [done|]. rewrite not_elem_of_cons. done.
      * intros (k' & Hk' & Hs & Ht). exists k'.
        apply not_elem_of_cons in Ht as [Hne Ht].
        split; [done|]. split; [|done]. rewrite not_elem_of_cons. done.
Qed.

Lemma find_head n name df v :
  DataFrame.find name df = Some v ->
  DataFrame.find name (DataFrame.head n df)
    = Some (take (if (0 <=? n)%Z then Z.to_nat n
                  else DataFrame.nrows df - Z.to_nat (- n)) v).
Proof.
  intros Hf. unfold DataFrame.head. rewrite find_map, Hf. cbn.
  destruct (0 <=? n)%Z eqn:Hn; [done|].
  apply Z.leb_gt in Hn. do 2 f_equal. lia.
Qed.

(** C10, as the code has it.  Without a sample size, or with the sample
    size 0, a script processes all rows.  With another sample size the
    linguistically motivated, the reverse and the multi-language script
    drop the rows whose key repeats that of an earlier row and take the
    head of the rest; the randomized script takes the head of all rows.
    The head for a positive size [n] is the first [n] rows; for a negative
    size it is all rows but the last [-n]. *)
Theorem sample_size_semantics (s : script) (df : DataFrame.t) :
  (size_of s = None ∨ size_of s = Some 0%Z -> sample_of s df = Ok df) ∧
  (∀ n, size_of s = Some n -> n ≠ 0%Z ->
     match dedup_of s with
     | Some column =>
         ∀ keys, DataFrame.find column df = Some keys ->
           sample_of s df
             = Ok (DataFrame.head n
                     (rows_where (DataFrame.first_occurrences [] keys) df))
     | None => sample_of s df = Ok (DataFrame.head n df)
     end) ∧
  (∀ keys i,
     DataFrame.first_occurrences [] keys !! i = Some true ↔
     ∃ k, keys !! i = Some k ∧ k ∉ take i keys) ∧
  (∀ n name d v,
     DataFrame.find name d = Some v ->
     DataFrame.find name (DataFrame.head n d)
       = Some (take (if (0 <=? n)%Z then Z.to_nat n
                     else DataFrame.nrows d - Z.to_nat (- n)) v)).
Proof.
  split; [|split; [|split]].
  - intros Hsize. rewrite sample_pipeline. unfold Pipeline.sample.
    replace (Pipeline.size (pipeline_of s)) with (size_of s)
      by (destruct s; reflexivity).
    by destruct Hsize as [-> | ->].
  - intros n Hsize Hn. rewrite sample_pipeline. unfold Pipeline.sample.
    replace (Pipeline.size (pipeline_of s)) with (size_of s)
      by (destruct s; reflexivity).
    replace (Pipeline.dedup (pipeline_of s)) with (dedup_of s)
      by (destruct s; reflexivity).
    rewrite Hsize. unfold truthy.
    destruct (Z.eqb_spec n 0) as [|_]; [done|].
    destruct (dedup_of s) as [column|]; [|done].
    intros keys Hkeys. unfold DataFrame.drop_duplicates. by rewrite Hkeys.
  - intros keys i. rewrite first_occurrences_true.
    split; intros (k & Hk & H); exists k; split; try done.
    + by destruct H.
    + split; [apply not_elem_of_nil|done].
  - intros n name d v. apply find_head.
Qed.

End sampling_claim.

(** ** The claims at small inputs *)

Section examples.

Local Open Scope nat_scope.

(** C2 as it is stated fails on the randomized script: two rows are
    processed and two requests are sent, one per row. *)
Lemma one_call_per_row_at_random :
  (main_of Demo.randomized Demo.plain_env world0).2 = Ok tt ∧
  sample_of Demo.randomized Demo.frame = Ok Demo.frame ∧
  DataFrame.nrows Demo.frame = 2 ∧
  length (prompts (trace (main_of Demo.randomized Demo.plain_env world0).1)) = 2 ∧
  length (prompts (trace (main_of Demo.randomized Demo.plain_env world0).1))
    ≠ 2 * DataFrame.nrows Demo.frame.
Proof. vm_compute. repeat split; discriminate. Qed.

(** C3 as it is stated fails on the randomized script: stage 1 goes
    through both rows without a request.  The run leaves a draw of
    [random.sample] for each row, then a request for each row, which is a
    filling request, then the call of [to_csv]. *)
Lemma random_stage1_sends_no_request :
  (main_of Demo.randomized Demo.plain_env world0).2 = Ok tt ∧
  DataFrame.nrows Demo.frame = 2 ∧
  map is_invoke (trace (main_of Demo.randomized Demo.plain_env world0).1)
    = [false; false; true; true; false] ∧
  Forall (fun q => startswith mask_prefix q = false)
    (prompts (trace (main_of Demo.randomized Demo.plain_env world0).1)).
Proof. vm_compute. repeat split; repeat constructor. Qed.

(** C4 as it is stated fails on the multi-language script when the input
    brings the placeholders: both rows go through stage 2 and none went
    through stage 1, so the trace does not begin with a masking request
    for every row. *)
Lemma stage1_skipped_with_placeholders :
  (main_of Demo.extreme Demo.masked_env world0).2 = Ok tt ∧
  DataFrame.nrows Demo.masked_frame = 2 ∧
  length (prompts (trace (main_of Demo.extreme Demo.masked_env world0).1))
    = 2 ∧
  Forall (fun q => startswith mask_prefix q = false)
    (prompts (trace (main_of Demo.extreme Demo.masked_env world0).1)) ∧
  ¬ ∃ T1 T2,
      trace (main_of Demo.extreme Demo.masked_env world0).1 = T1 ++ T2 ∧
      length T1 = DataFrame.nrows Demo.masked_frame ∧
      Forall (fun q => startswith mask_prefix q = true) (prompts T1).
Proof.
  set (run := main_of _ _ _).
  assert (Hprompts :
    Forall (fun q => startswith mask_prefix q = false)
      (prompts (trace run.1))) by (vm_compute; repeat constructor).
  split; [by vm_compute|]. split; [done|].
  split; [by vm_compute|]. split; [done|].
  intros (T1 & T2 & Htr & Hlen & Hmask).
  rewrite Htr, prompts_app in Hprompts.
  apply Forall_app in Hprompts as [Hprompts _].
  change (DataFrame.nrows Demo.masked_frame) with 2 in Hlen.
  destruct T1 as [|ev1 [|ev2 [|]]]; try discriminate.
  assert (Hfirst : (trace run.1 !! 0) ≫= (fun ev => Some (is_invoke ev))
                   = Some true) by (by vm_compute).
  rewrite Htr in Hfirst. cbn in Hfirst.
  destruct ev1 as [| q o |]; try discriminate.
  cbn in Hprompts, Hmask.
  apply Forall_cons in Hprompts as [H1 _].
  apply Forall_cons in Hmask as [H2 _]. congruence.
Qed.

(** C5 as it is stated fails on two scripts.  On the randomized script:
    no prompt template makes its masking a request to the service.  On
    the multi-language script: on an input that brings the placeholders
    the script sends one request per row, where the pipeline of the
    specification, with the prompts, the columns and the path of the
    script, sends two. *)
Lemma pipelines_differ_beyond_prompts :
  (¬ ∃ prompt, ∀ text e w,
       insert_placeholders_random text Float.rate_0_2 e w
         = Pipeline.mask_stage prompt text e w) ∧
  length (prompts (trace (main_of Demo.extreme Demo.masked_env world0).1))
    = 2 ∧
  length
    (prompts
       (trace
          (Pipeline.plain (input_of Demo.extreme) (size_of Demo.extreme)
             (Pipeline.key (pipeline_of Demo.extreme))
             Extreme.get_switching_points_prompt
             (intermediate_of Demo.extreme) (fill_of Demo.extreme)
             (csw_of Demo.extreme)
             (Pipeline.path (pipeline_of Demo.extreme))
             Demo.masked_env world0).1))
    = 4.
Proof.
  split; [|by vm_compute].
  intros [prompt H].
  specialize (H (CStr (lit "word")) Demo.plain_env world0).
  apply (f_equal (fun x => trace x.1)) in H.
  assert (Hl : trace
    (insert_placeholders_random (CStr (lit "word")) Float.rate_0_2
       Demo.plain_env world0).1
    = [ESample 1 1%Z]) by (vm_compute; reflexivity).
  cbv beta in H. rewrite Hl in H.
  unfold Pipeline.mask_stage, bind, invoke_claude in H. cbn in H.
  discriminate.
Qed.

(** C10 as it is stated fails for a negative sample size: with [-1] and
    two rows the script keeps the first row, not the first [-1] rows. *)
Lemma negative_sample_size :
  ∃ df,
    sample_of Demo.negative Demo.frame = Ok df ∧
    DataFrame.nrows df = 1 ∧
    df ≠ map (fun '(name, v) => (name, take (Z.to_nat (-1)) v)) Demo.frame.
Proof.
  eexists. split; [vm_compute; reflexivity|]. split; [reflexivity|].
  vm_compute. discriminate.
Qed.

End examples.

(** ** The theorems at the small inputs *)

Section witnesses.

Local Open Scope nat_scope.

Lemma insert_placeholders_random_masks_witness :
  ∃ out indices w',
    insert_placeholders_random (CStr (lit "the cat sat on the mat"))
      Float.rate_0_2 Demo.plain_env world0 = (w', Ok out) ∧
    length (split out) = length (split (lit "the cat sat on the mat")) ∧
    NoDup indices ∧
    Z.of_nat (length indices)
      = Z.max 1
          (Z.of_nat (length (split (lit "the cat sat on the mat"))) / 5) ∧
    (∀ i, i ∈ indices ->
       i < length (split (lit "the cat sat on the mat")) ∧
       split out !! i = Some placeholder) ∧
    (∀ i, i ∉ indices ->
       split out !! i = split (lit "the cat sat on the mat") !! i).
Proof.
  apply insert_placeholders_random_masks.
  - vm_compute. lia.
  - vm_compute. reflexivity.
Defined.

Lemma insert_placeholders_random_total_witness :
  (split (lit "a dog barked") = []
   ↔ forallb isspace (lit "a dog barked") = true) ∧
  (forallb isspace (lit "a dog barked") = true ->
     sample_count (length (split (lit "a dog barked"))) Float.rate_0_2
       = 1%Z ∧
     ∃ w', insert_placeholders_random (CStr (lit "a dog barked"))
             Float.rate_0_2 Demo.plain_env world0
             = (w', Raise ValueError)) ∧
  (forallb isspace (lit "a dog barked") = false ->
     ∃ w' out, insert_placeholders_random (CStr (lit "a dog barked"))
                 Float.rate_0_2 Demo.plain_env world0
                 = (w', Ok out)).
Proof.
  apply insert_placeholders_random_total. vm_compute. reflexivity.
Defined.

(** The theorem of C2 on the linguistically motivated script, on the
    randomized script, and on the multi-language script with an input that
    brings the placeholders. *)
Lemma calls_per_row_witness :
  ((@Ok unit tt = Ok tt ->
    ∃ masks fills before path out,
      trace (main_of Demo.linguistic Demo.plain_env world0).1
        = before ++ [EWrite path out] ∧
      Forall (fun ev => is_write ev = false) before ∧
      prompts before = masks ++ fills ∧
      length masks
        = (if masks_by_service Demo.linguistic Demo.frame
           then DataFrame.nrows Demo.frame else 0) ∧
      length fills = DataFrame.nrows Demo.frame ∧
      ∀ m f, m ∈ masks -> f ∈ fills -> m ≠ f) ∧
   ((∀ i q, ∃ a, claude Demo.plain_env i q = Ok a) ->
    (∀ out,
       write_error Demo.plain_env (Pipeline.path (pipeline_of Demo.linguistic))
         out = None) ->
    rejected Demo.linguistic = false ->
    (Pipeline.skips (pipeline_of Demo.linguistic) Demo.frame = false ->
     Pipeline.key (pipeline_of Demo.linguistic)
       ∈ DataFrame.names Demo.frame) ->
    (∀ c, c ∈ parallel_columns_of Demo.linguistic ->
          c ∈ DataFrame.names Demo.frame) ->
    (∀ rate,
       Pipeline.masking (pipeline_of Demo.linguistic)
         = Pipeline.AtRandom rate ->
       Forall maskable (key_cells Demo.linguistic Demo.frame)) ->
    @Ok unit tt = Ok tt)) ∧
  ((@Ok unit tt = Ok tt ->
    ∃ masks fills before path out,
      trace (main_of Demo.randomized Demo.plain_env world0).1
        = before ++ [EWrite path out] ∧
      Forall (fun ev => is_write ev = false) before ∧
      prompts before = masks ++ fills ∧
      length masks
        = (if masks_by_service Demo.randomized Demo.frame
           then DataFrame.nrows Demo.frame else 0) ∧
      length fills = DataFrame.nrows Demo.frame ∧
      ∀ m f, m ∈ masks -> f ∈ fills -> m ≠ f) ∧
   ((∀ i q, ∃ a, claude Demo.plain_env i q = Ok a) ->
    (∀ out,
       write_error Demo.plain_env (Pipeline.path (pipeline_of Demo.randomized))
         out = None) ->
    rejected Demo.randomized = false ->
    (Pipeline.skips (pipeline_of Demo.randomized) Demo.frame = false ->
     Pipeline.key (pipeline_of Demo.randomized)
       ∈ DataFrame.names Demo.frame) ->
    (∀ c, c ∈ parallel_columns_of Demo.randomized ->
          c ∈ DataFrame.names Demo.frame) ->
    (∀ rate,
       Pipeline.masking (pipeline_of Demo.randomized)
         = Pipeline.AtRandom rate ->
       Forall maskable (key_cells Demo.randomized Demo.frame)) ->
    @Ok unit tt = Ok tt)) ∧
  ((@Ok unit tt = Ok tt ->
    ∃ masks fills before path out,
      trace (main_of Demo.extreme Demo.masked_env world0).1
        = before ++ [EWrite path out] ∧
      Forall (fun ev => is_write ev = false) before ∧
      prompts before = masks ++ fills ∧
      length masks
        = (if masks_by_service Demo.extreme Demo.masked_frame
           then DataFrame.nrows Demo.masked_frame else 0) ∧
      length fills = DataFrame.nrows Demo.masked_frame ∧
      ∀ m f, m ∈ masks -> f ∈ fills -> m ≠ f) ∧
   ((∀ i q, ∃ a, claude Demo.masked_env i q = Ok a) ->
    (∀ out,
       write_error Demo.masked_env (Pipeline.path (pipeline_of Demo.extreme))
         out = None) ->
    rejected Demo.extreme = false ->
    (Pipeline.skips (pipeline_of Demo.extreme) Demo.masked_frame = false ->
     Pipeline.key (pipeline_of Demo.extreme)
       ∈ DataFrame.names Demo.masked_frame) ->
    (∀ c, c ∈ parallel_columns_of Demo.extreme ->
          c ∈ DataFrame.names Demo.masked_frame) ->
    (∀ rate,
       Pipeline.masking (pipeline_of Demo.extreme)
         = Pipeline.AtRandom rate ->
       Forall maskable (key_cells Demo.extreme Demo.masked_frame)) ->
    @Ok unit tt = Ok tt)).
Proof.
  split; [|split].
  - apply (calls_per_row Demo.linguistic Demo.plain_env Demo.frame).
    + reflexivity.
    + repeat constructor.
    + reflexivity.
    + discriminate.
    + vm_compute. reflexivity.
  - apply (calls_per_row Demo.randomized Demo.plain_env Demo.frame).
    + reflexivity.
    + repeat constructor.
    + reflexivity.
    + discriminate.
    + vm_compute. reflexivity.
  - apply (calls_per_row Demo.extreme Demo.masked_env Demo.masked_frame).
    + reflexivity.
    + repeat constructor.
    + reflexivity.
    + discriminate.
    + vm_compute. reflexivity.
Defined.

(** The theorem of C3 on a run in which the second request raises, and on
    a run in which every request is answered. *)
Lemma no_retry_witness :
  ((∀ q z,
      EInvoke q (Raise z)
        ∈ trace (main_of Demo.linguistic Demo.overloaded_env world0).1 ->
      @Raise unit (ServiceError 529) = Raise z ∧
      last (trace (main_of Demo.linguistic Demo.overloaded_env world0).1)
        = Some (EInvoke q (Raise z)) ∧
      Forall (fun ev => is_write ev = false)
        (trace (main_of Demo.linguistic Demo.overloaded_env world0).1)) ∧
   (∃ m f df1 fills,
      prompts (trace (main_of Demo.linguistic Demo.overloaded_env world0).1)
        = mask_prompts Demo.linguistic
            (take m (key_cells Demo.linguistic Demo.frame)) ++ fills ∧
      Forall2 (fun row q => fill_of Demo.linguistic row = Ok q)
        (take f (DataFrame.rows df1)) fills ∧
      (df1 = Demo.frame ∨
       ∃ masked,
         df1 = DataFrame.set (intermediate_of Demo.linguistic)
                 (map CStr masked) Demo.frame) ∧
      m <= (if masks_by_service Demo.linguistic Demo.frame
            then DataFrame.nrows Demo.frame else 0) ∧
      f <= DataFrame.nrows Demo.frame ∧
      (f ≠ 0 ->
       m = (if masks_by_service Demo.linguistic Demo.frame
            then DataFrame.nrows Demo.frame else 0)) ∧
      (∀ path out,
         EWrite path out
           ∈ trace (main_of Demo.linguistic Demo.overloaded_env world0).1 ->
         m = (if masks_by_service Demo.linguistic Demo.frame
              then DataFrame.nrows Demo.frame else 0) ∧
         f = DataFrame.nrows Demo.frame) ∧
      (@Raise unit (ServiceError 529) = Ok tt ->
       m = (if masks_by_service Demo.linguistic Demo.frame
            then DataFrame.nrows Demo.frame else 0) ∧
       f = DataFrame.nrows Demo.frame)) ∧
   ((∀ i q, ∃ a, claude Demo.overloaded_env i q = Ok a) ->
    (∀ out,
       write_error Demo.overloaded_env
         (Pipeline.path (pipeline_of Demo.linguistic)) out = None) ->
    rejected Demo.linguistic = false ->
    (Pipeline.skips (pipeline_of Demo.linguistic) Demo.frame = false ->
     Pipeline.key (pipeline_of Demo.linguistic)
       ∈ DataFrame.names Demo.frame) ->
    (∀ c, c ∈ parallel_columns_of Demo.linguistic ->
          c ∈ DataFrame.names Demo.frame) ->
    (∀ rate,
       Pipeline.masking (pipeline_of Demo.linguistic)
         = Pipeline.AtRandom rate ->
       Forall maskable (key_cells Demo.linguistic Demo.frame)) ->
    @Raise unit (ServiceError 529) = Ok tt ∧
    length
      (prompts (trace (main_of Demo.linguistic Demo.overloaded_env
                         world0).1))
      = (if masks_by_service Demo.linguistic Demo.frame then 2 else 1)
        * DataFrame.nrows Demo.frame)) ∧
  ((∀ q z,
      EInvoke q (Raise z)
        ∈ trace (main_of Demo.linguistic Demo.plain_env world0).1 ->
      Ok tt = Raise z ∧
      last (trace (main_of Demo.linguistic Demo.plain_env world0).1)
        = Some (EInvoke q (Raise z)) ∧
      Forall (fun ev => is_write ev = false)
        (trace (main_of Demo.linguistic Demo.plain_env world0).1)) ∧
   (∃ m f df1 fills,
      prompts (trace (main_of Demo.linguistic Demo.plain_env world0).1)
        = mask_prompts Demo.linguistic
            (take m (key_cells Demo.linguistic Demo.frame)) ++ fills ∧
      Forall2 (fun row q => fill_of Demo.linguistic row = Ok q)
        (take f (DataFrame.rows df1)) fills ∧
      (df1 = Demo.frame ∨
       ∃ masked,
         df1 = DataFrame.set (intermediate_of Demo.linguistic)
                 (map CStr masked) Demo.frame) ∧
      m <= (if masks_by_service Demo.linguistic Demo.frame
            then DataFrame.nrows Demo.frame else 0) ∧
      f <= DataFrame.nrows Demo.frame ∧
      (f ≠ 0 ->
       m = (if masks_by_service Demo.linguistic Demo.frame
            then DataFrame.nrows Demo.frame else 0)) ∧
      (∀ path out,
         EWrite path out
           ∈ trace (main_of Demo.linguistic Demo.plain_env world0).1 ->
         m = (if masks_by_service Demo.linguistic Demo.frame
              then DataFrame.nrows Demo.frame else 0) ∧
         f = DataFrame.nrows Demo.frame) ∧
      (@Ok unit tt = Ok tt ->
       m = (if masks_by_service Demo.linguistic Demo.frame
            then DataFrame.nrows Demo.frame else 0) ∧
       f = DataFrame.nrows Demo.frame)) ∧
   ((∀ i q, ∃ a, claude Demo.plain_env i q = Ok a) ->
    (∀ out,
       write_error Demo.plain_env
         (Pipeline.path (pipeline_of Demo.linguistic)) out = None) ->
    rejected Demo.linguistic = false ->
    (Pipeline.skips (pipeline_of Demo.linguistic) Demo.frame = false ->
     Pipeline.key (pipeline_of Demo.linguistic)
       ∈ DataFrame.names Demo.frame) ->
    (∀ c, c ∈ parallel_columns_of Demo.linguistic ->
          c ∈ DataFrame.names Demo.frame) ->
    (∀ rate,
       Pipeline.masking (pipeline_of Demo.linguistic)
         = Pipeline.AtRandom rate ->
       Forall maskable (key_cells Demo.linguistic Demo.frame)) ->
    @Ok unit tt = Ok tt ∧
    length (prompts (trace (main_of Demo.linguistic Demo.plain_env
                              world0).1))
      = (if masks_by_service Demo.linguistic Demo.frame then 2 else 1)
        * DataFrame.nrows Demo.frame)).
Proof.
  split.
  - apply (no_retry Demo.linguistic Demo.overloaded_env Demo.frame).
    + reflexivity.
    + repeat constructor.
    + reflexivity.
    + discriminate.
    + vm_compute. reflexivity.
  - apply (no_retry Demo.linguistic Demo.plain_env Demo.frame).
    + reflexivity.
    + repeat constructor.
    + reflexivity.
    + discriminate.
    + vm_compute. reflexivity.
Defined.

(** The theorem of C4 on a run that goes through both stages, and on a
    run of the multi-language script that skips stage 1. *)
Lemma stages_in_order_witness :
  (∃ T1 T2 W df1,
     trace (main_of Demo.linguistic Demo.plain_env world0).1 = T1 ++ T2 ++ W ∧
     Forall2 (masked_by (Pipeline.masking (pipeline_of Demo.linguistic)))
       (take (length T1) (key_cells Demo.linguistic Demo.frame)) T1 ∧
     Forall2 (filled_by (fill_of Demo.linguistic))
       (take (length T2) (DataFrame.rows df1)) T2 ∧
     (Pipeline.skips (pipeline_of Demo.linguistic) Demo.frame = true ->
      T1 = []) ∧
     (T2 ≠ [] ∨ W ≠ [] ->
        (Pipeline.skips (pipeline_of Demo.linguistic) Demo.frame = true ∧
         df1 = Demo.frame) ∨
        (length T1 = DataFrame.nrows Demo.frame ∧
         ∃ masked,
           df1 = DataFrame.set (intermediate_of Demo.linguistic)
                   (map CStr masked) Demo.frame)) ∧
     (W = [] ∨
      ∃ out,
        W = [EWrite (Pipeline.path (pipeline_of Demo.linguistic)) out] ∧
        length T2 = DataFrame.nrows Demo.frame ∧
        Ok tt
          = match write_error Demo.plain_env
                    (Pipeline.path (pipeline_of Demo.linguistic)) out
            with
            | Some z => Raise z
            | None => Ok tt
            end)) ∧
  (∃ T1 T2 W df1,
     trace (main_of Demo.extreme Demo.masked_env world0).1 = T1 ++ T2 ++ W ∧
     Forall2 (masked_by (Pipeline.masking (pipeline_of Demo.extreme)))
       (take (length T1) (key_cells Demo.extreme Demo.masked_frame)) T1 ∧
     Forall2 (filled_by (fill_of Demo.extreme))
       (take (length T2) (DataFrame.rows df1)) T2 ∧
     (Pipeline.skips (pipeline_of Demo.extreme) Demo.masked_frame = true ->
      T1 = []) ∧
     (T2 ≠ [] ∨ W ≠ [] ->
        (Pipeline.skips (pipeline_of Demo.extreme) Demo.masked_frame = true ∧
         df1 = Demo.masked_frame) ∨
        (length T1 = DataFrame.nrows Demo.masked_frame ∧
         ∃ masked,
           df1 = DataFrame.set (intermediate_of Demo.extreme)
                   (map CStr masked) Demo.masked_frame)) ∧
     (W = [] ∨
      ∃ out,
        W = [EWrite (Pipeline.path (pipeline_of Demo.extreme)) out] ∧
        length T2 = DataFrame.nrows Demo.masked_frame ∧
        Ok tt
          = match write_error Demo.masked_env
                    (Pipeline.path (pipeline_of Demo.extreme)) out
            with
            | Some z => Raise z
            | None => Ok tt
            end)).
Proof.
  split.
  - apply (stages_in_order Demo.linguistic Demo.plain_env Demo.frame).
    + reflexivity.
    + repeat constructor.
    + reflexivity.
    + discriminate.
    + vm_compute. reflexivity.
  - apply (stages_in_order Demo.extreme Demo.masked_env Demo.masked_frame).
    + reflexivity.
    + repeat constructor.
    + reflexivity.
    + discriminate.
    + vm_compute. reflexivity.
Defined.

Lemma frame_preserved_witness :
  ∃ df added,
    sample_of Demo.linguistic Demo.frame = Ok df ∧
    DataFrame.names df = DataFrame.names Demo.frame ∧
    Demo.written.2 = df ++ added ∧
    DataFrame.names added
      = (if decide (intermediate_of Demo.linguistic = csw_of Demo.linguistic)
         then [csw_of Demo.linguistic]
         else [intermediate_of Demo.linguistic; csw_of Demo.linguistic]).
Proof.
  apply (frame_preserved Demo.linguistic Demo.plain_env Demo.frame
           (main_of Demo.linguistic Demo.plain_env world0).1 (Ok tt)
           Demo.written.1).
  - reflexivity.
  - compute_done.
  - compute_done.
  - vm_compute. reflexivity.
  - vm_compute.
    repeat first [apply list_elem_of_here | apply list_elem_of_further].
Defined.

Lemma belebele_columns_witness :
  ∃ df,
    Prepare.belebele Cases.argsort Cases.splits = Ok df ∧
    DataFrame.names df =
      [ lit "mc_answer1"; lit "mc_answer2"; lit "mc_answer3";
        lit "mc_answer4"; lit "correct_answer_num";
        lit "eng_flores_passage"; lit "eng_question";
        lit "fra_flores_passage"; lit "fra_question";
        lit "deu_flores_passage"; lit "deu_question";
        lit "arb_flores_passage"; lit "arb_question";
        lit "zho_flores_passage"; lit "zho_question" ] ∧
    (∀ subset, subset ∈ Prepare.subsets ->
       Sorted Prepare.link_le
         (Prepare.sort_values_by_link Cases.argsort (Cases.splits subset)) ∧
       Prepare.sort_values_by_link Cases.argsort (Cases.splits subset)
         ≡ₚ Cases.splits subset ∧
       holds df (Prepare.prefix_of subset ++ lit "_flores_passage")
         (map (fun r => CStr (Prepare.flores_passage r))
            (Prepare.sort_values_by_link Cases.argsort
               (Cases.splits subset))) ∧
       holds df (Prepare.prefix_of subset ++ lit "_question")
         (map (fun r => CStr (Prepare.question r))
            (Prepare.sort_values_by_link Cases.argsort
               (Cases.splits subset)))) ∧
    (∀ name field,
       (name, field) ∈
         [ (lit "mc_answer1", Prepare.mc_answer1);
           (lit "mc_answer2", Prepare.mc_answer2);
           (lit "mc_answer3", Prepare.mc_answer3);
           (lit "mc_answer4", Prepare.mc_answer4);
           (lit "correct_answer_num", Prepare.correct_answer_num) ] ->
       holds df name
         (map (fun r => CStr (field r))
            (Prepare.sort_values_by_link Cases.argsort
               (Cases.splits (lit "eng_Latn"))))) ∧
    (∀ a b,
       map Prepare.link (Cases.splits a)
         ≡ₚ map Prepare.link (Cases.splits b) ->
       map Prepare.link
         (Prepare.sort_values_by_link Cases.argsort (Cases.splits a))
         = map Prepare.link
             (Prepare.sort_values_by_link Cases.argsort
                (Cases.splits b))) ∧
    (∀ a b i ra rb,
       map Prepare.link (Cases.splits a)
         = map Prepare.link (Cases.splits b) ->
       Prepare.sort_values_by_link Cases.argsort (Cases.splits a) !! i
         = Some ra ->
       Prepare.sort_values_by_link Cases.argsort (Cases.splits b) !! i
         = Some rb ->
       ∃ j, Cases.splits a !! j = Some ra ∧ Cases.splits b !! j = Some rb).
Proof.
  apply (belebele_columns Cases.argsort Cases.splits). exact argsort_sorts.
Defined.

Lemma xnli_extraction_witness :
  (∀ lang d, Prepare.extract lang d = Ok (translation lang d)) ∧
  ∃ out,
    Prepare.xnli_frame Demo.literal_eval Demo.xnli = Ok out ∧
    ∀ lang prefix, (lang, prefix) ∈ Prepare.language_map ->
      DataFrame.find (prefix ++ lit "_premise") out
        = Some (map (translation lang)
                  (default [] (DataFrame.find (lit "premise")
                                 Demo.parsed_xnli))) ∧
      DataFrame.find (prefix ++ lit "_hypothesis") out
        = Some (map (translation lang)
                  (default [] (DataFrame.find (lit "hypothesis")
                                 Demo.parsed_xnli))).
Proof.
  apply (xnli_extraction Demo.literal_eval Demo.xnli Demo.parsed_xnli).
  - vm_compute. reflexivity.
  - vm_compute. reflexivity.
  - vm_compute. reflexivity.
Defined.

End witnesses.

(** * Further properties

    What the scripts do beyond the statements of the specification: where
    they write, how they read their command line, what the columns of
    their output hold, how they fail, and what the preparation script
    makes of its three corpora.

    The properties of stage 2 are stated for frames with rows: on a frame
    without rows pandas' [apply] calls the function once on a row of
    missing values to find the type of the result, a call [frame_apply]
    does not have. *)

(** ** Paths *)

Section paths.

Local Open Scope nat_scope.
Import OsPath.

Lemma rfind_go_absent c s i found :
  c ∉ s -> rfind_go c s i found = found.
Proof.
  revert i found. induction s as [|x s IH]; intros i found Hc; [done|].
  apply not_elem_of_cons in Hc as [Hne Hc]. cbn.
  destruct (N.eqb_spec x c) as [->|_]; [done|]. by apply IH.
Qed.

Lemma rfind_go_last c pre post i found :
  c ∉ post ->
  rfind_go c (pre ++ c :: post) i found = (i + Z.of_nat (length pre))%Z.
Proof.
  intros Hc. revert i found.
  induction pre as [|x pre IH]; intros i found; cbn [app rfind_go length].
  - rewrite N.eqb_refl, rfind_go_absent by done. lia.
  - rewrite IH. lia.
Qed.

Lemma rfind_absent c s : c ∉ s -> rfind c s = (-1)%Z.
Proof. apply rfind_go_absent. Qed.

Lemma rfind_last c pre post :
  c ∉ post -> rfind c (pre ++ c :: post) = Z.of_nat (length pre).
Proof. intros Hc. unfold rfind. by rewrite rfind_go_last. Qed.

(** A character occurs in a string for a last time, or not at all. *)
Lemma last_occurrence (c : N) (s : str) :
  c ∉ s ∨ ∃ pre post, s = pre ++ c :: post ∧ c ∉ post.
Proof.
  induction s as [|x s [IH|(pre & post & -> & Hc)]].
  - left. apply not_elem_of_nil.
  - destruct (decide (x = c)) as [->|Hne].
    + right. by exists [], s.
    + left. by apply not_elem_of_cons.
  - right. by exists (x :: pre), post.
Qed.

Lemma basename_plain p : sep ∉ p -> basename p = p.
Proof. intros Hc. unfold basename. by rewrite rfind_absent. Qed.

Lemma basename_last pre post :
  sep ∉ post -> basename (pre ++ sep :: post) = post.
Proof.
  intros Hc. unfold basename. rewrite rfind_last by done.
  replace (Z.to_nat (Z.of_nat (length pre) + 1)) with (length (pre ++ [sep]))
    by (rewrite length_app; cbn; lia).
  rewrite (cons_middle sep pre post), app_assoc. apply drop_app_length.
Qed.

Lemma basename_app d b : directory d -> sep ∉ b -> basename (d ++ b) = b.
Proof.
  intros [->|Hd] Hb; [by apply basename_plain|].
  apply last_Some in Hd as [d' ->].
  rewrite <- app_assoc. cbn. by apply basename_last.
Qed.

Lemma basename_split p :
  (sep ∉ basename p) ∧ ∃ d, directory d ∧ p = d ++ basename p.
Proof.
  destruct (last_occurrence sep p) as [Hc|(pre & post & -> & Hc)].
  - rewrite basename_plain by done. split; [done|]. exists [].
    split; [by left|done].
  - rewrite basename_last by done. split; [done|].
    exists (pre ++ [sep]). split.
    + right. by rewrite last_snoc.
    + by rewrite <- app_assoc.
Qed.

Lemma splitext_plain p :
  sep ∉ p ->
  (splitext p).1 ++ (splitext p).2 = p ∧ extension (splitext p).2.
Proof.
  intros Hsep. unfold splitext. rewrite (rfind_absent sep) by done.
  destruct (last_occurrence extsep p) as [Hc|(pre & post & -> & Hc)].
  - rewrite rfind_absent by done. cbn. rewrite app_nil_r.
    split; [done|by left].
  - rewrite rfind_last by done.
    destruct (_ <? _)%Z;
      [|cbn; rewrite app_nil_r; split; [done|by left]].
    destruct (existsb _ _);
      [|cbn; rewrite app_nil_r; split; [done|by left]].
    cbn [fst snd]. rewrite Nat2Z.id, take_drop. split; [done|].
    right. exists post. by rewrite drop_app_length.
Qed.

Lemma splitext_stem name ext :
  sep ∉ name -> sep ∉ ext -> extsep ∉ ext ->
  (∃ c, c ∈ name ∧ c ≠ extsep) ->
  splitext (name ++ extsep :: ext) = (name, extsep :: ext).
Proof.
  intros Hname Hext Hdot (c & Hc & Hne). unfold splitext.
  rewrite (rfind_absent sep).
  2:{ rewrite not_elem_of_app, not_elem_of_cons. done. }
  rewrite rfind_last by done.
  assert ((-1 <? Z.of_nat (length name))%Z = true) as ->
    by (apply Z.ltb_lt; lia).
  change (Z.to_nat (-1 + 1)) with 0. rewrite drop_0.
  replace (Z.to_nat (Z.of_nat (length name) - (-1 + 1))) with (length name)
    by lia.
  rewrite Nat2Z.id, take_app_length, drop_app_length.
  assert (existsb (fun x => negb (x =? extsep)%N) name = true) as ->; [|done].
  apply existsb_exists. exists c. split; [by apply list_elem_of_In|].
  by destruct (N.eqb_spec c extsep).
Qed.

Lemma join_relative a b :
  startswith [sep] b = false ->
  ∃ glue, join a b = a ++ glue ++ b ∧ directory (a ++ glue) ∧
          (glue = [] ∨ glue = [sep]) ∧ (glue = [] ↔ directory a).
Proof.
  intros Hb. unfold join. rewrite Hb.
  destruct (last a) as [c|] eqn:Hlast.
  - destruct (N.eqb_spec c sep) as [->|Hne].
    + exists []. rewrite app_nil_r. split; [done|]. split; [by right|].
      split; [by left|]. split; [intros _; by right|done].
    + exists [sep]. split; [done|]. split; [right; by rewrite last_snoc|].
      split; [by right|]. split; [done|].
      intros [->|Hd]; [done|]. congruence.
  - apply last_None in Hlast as ->. exists []. split; [done|].
    split; [by left|]. split; [by left|]. split; [intros _; by left|done].
Qed.

Lemma startswith_sep b : startswith [sep] b = true -> ∃ b', b = sep :: b'.
Proof.
  destruct b as [|c b]; [done|]. cbn [startswith].
  destruct (N.eqb_spec sep c) as [<-|_]; [by exists b|done].
Qed.

End paths.

(** ** Where the scripts write *)

Section output_paths.

Local Open Scope nat_scope.
Import OsPath.

Lemma path_pipeline s :
  Pipeline.path (pipeline_of s)
    = output_path (output_dir_of s) (input_of s) (infix_of s) (csw_of s).
Proof. destruct s; reflexivity. Qed.

Lemma infix_of_underscore s :
  ∃ rest, infix_of s = 95%N :: rest ∧ sep ∉ rest.
Proof. destruct s; eexists; (split; [reflexivity|compute_done]). Qed.

Lemma splitext_plain_stem p : sep ∉ p -> sep ∉ (splitext p).1.
Proof.
  intros Hp Hin. destruct (splitext_plain p Hp) as [Heq _].
  apply Hp. rewrite <- Heq. apply elem_of_app. by left.
Qed.

(** The file name a script writes to is not an absolute path, so
    [os.path.join] keeps the output directory. *)
Lemma file_name_relative stem infix rest tail :
  sep ∉ stem -> infix = 95%N :: rest ->
  startswith [sep] (stem ++ infix ++ tail) = false.
Proof.
  intros Hstem ->. destruct stem as [|c stem]; [reflexivity|].
  apply not_elem_of_cons in Hstem as [Hne _]. cbn [app startswith].
  destruct (N.eqb_spec sep c) as [Heq|_]; [congruence|done].
Qed.

Lemma path_parts (s : script) :
  ∃ glue d stem ext,
    Pipeline.path (pipeline_of s)
      = output_dir_of s ++ glue ++ stem ++ infix_of s ++ csw_of s
          ++ lit ".csv" ∧
    directory (output_dir_of s ++ glue) ∧
    (glue = [] ∨ glue = [sep]) ∧
    (glue = [] ↔ directory (output_dir_of s)) ∧
    stem = (splitext (basename (input_of s))).1 ∧
    input_of s = d ++ stem ++ ext ∧
    directory d ∧ (sep ∉ stem) ∧ (sep ∉ ext) ∧ extension ext.
Proof.
  rewrite path_pipeline. unfold output_path.
  destruct (basename_split (input_of s)) as (Hbase & d & Hd & Hinput).
  destruct (splitext_plain _ Hbase) as [Hsplit Hext].
  pose proof (splitext_plain_stem _ Hbase) as Hstem.
  destruct (infix_of_underscore s) as (rest & Hinfix & _).
  destruct (join_relative (output_dir_of s)
              ((splitext (basename (input_of s))).1 ++ infix_of s
               ++ csw_of s ++ lit ".csv"))
    as (glue & Hjoin & Hdir & Hglue & Hiff).
  { by eapply file_name_relative. }
  exists glue, d, (splitext (basename (input_of s))).1,
    (splitext (basename (input_of s))).2.
  split; [exact Hjoin|]. split; [exact Hdir|].
  split; [exact Hglue|]. split; [exact Hiff|].
  split; [reflexivity|]. split; [by rewrite Hsplit|].
  split; [exact Hd|]. split; [exact Hstem|]. split; [|exact Hext].
  intros Hin. apply Hbase. rewrite <- Hsplit. apply elem_of_app. by right.
Qed.

(** X1.  Where a script writes: in the output directory, joined with a
    separator unless the directory is empty or ends with one, under the
    name [<stem><infix><csw_column_name>.csv]; the stem is the input path
    without its directory and without the extension of its last
    component, and the infix is [_with_], [_reverse_] or [_rnd_].  The
    output directory is never discarded by [os.path.join]. *)
Theorem output_file_name (s : script) :
  ∃ glue d stem ext,
    Pipeline.path (pipeline_of s)
      = output_dir_of s ++ glue ++ stem ++ infix_of s ++ csw_of s
          ++ lit ".csv" ∧
    (glue = [] ∨ glue = [sep]) ∧
    (glue = [] ↔ directory (output_dir_of s)) ∧
    stem = (splitext (basename (input_of s))).1 ∧
    input_of s = d ++ stem ++ ext ∧
    directory d ∧ (sep ∉ stem) ∧ (sep ∉ ext) ∧ extension ext.
Proof.
  destruct (path_parts s)
    as (glue & d & stem & ext & H1 & _ & H2 & H3 & H4 & H5 & H6 & H7 & H8
        & H9).
  by exists glue, d, stem, ext.
Qed.

(** X2.  For an input [<directory><name>.<ext>] whose name has a
    character other than the dot, the stem is the name: the script writes
    [<name><infix><csw_column_name>.csv] in the output directory. *)
Theorem output_path_of_file_name (dir d name ext infix csw : str) :
  directory d -> sep ∉ name -> (∃ c, c ∈ name ∧ c ≠ extsep) ->
  sep ∉ ext -> extsep ∉ ext ->
  output_path dir (d ++ name ++ extsep :: ext) infix csw
    = join dir (name ++ infix ++ csw ++ lit ".csv").
Proof.
  intros Hd Hname Hc Hext Hdot. unfold output_path.
  rewrite basename_app.
  - by rewrite splitext_stem.
  - done.
  - rewrite not_elem_of_app, not_elem_of_cons. done.
Qed.

(** X3.  The CSV is not written over the CSV that was read: when the
    name of the result column has no path separator, the path a script
    writes its CSV to is not the path of its input. *)
Theorem input_not_overwritten (s : script) (e : env) (w : world)
  (r : result unit) (path : str) (out : DataFrame.t) :
  sep ∉ csw_of s ->
  main_of s e world0 = (w, r) ->
  EWrite path out ∈ trace w ->
  path ≠ input_of s.
Proof.
  intros Hcsw Hmain Hin.
  destruct (main_cases _ _ _ _ Hmain)
    as [[Htr _]|(_ & df0 & df & _ & _ & Hout)].
  { rewrite Htr in Hin. by apply elem_of_nil in Hin. }
  destruct (outcome_written _ _ _ _ _ _ _ Hout Hin)
    as (_ & _ & _ & _ & _ & _ & _ & _ & -> & _).
  destruct (path_parts s)
    as (glue & d & stem & ext & Hpath & Hdir & _ & _ & _ & Hinput & Hd
        & Hstem & Hext & Hextension).
  destruct (infix_of_underscore s) as (rest & Hinfix & Hrest).
  intros Heq.
  assert (basename (Pipeline.path (pipeline_of s))
          = stem ++ infix_of s ++ csw_of s ++ lit ".csv") as Hb1.
  { rewrite Hpath, app_assoc. apply basename_app; [exact Hdir|].
    rewrite Hinfix, !not_elem_of_app, not_elem_of_cons.
    repeat split; try done. compute_done. }
  assert (basename (input_of s) = stem ++ ext) as Hb2.
  { rewrite Hinput at 1. apply basename_app; [exact Hd|].
    by rewrite not_elem_of_app. }
  rewrite Heq, Hb2 in Hb1. apply app_inv_head in Hb1.
  rewrite Hinfix in Hb1.
  destruct Hextension as [->|(rest' & -> & _)]; discriminate.
Qed.

End output_paths.

(** ** [strip] *)

Section stripping.

Local Open Scope nat_scope.

Lemma lstrip_spec s :
  ∃ pre, s = pre ++ lstrip s ∧ forallb isspace pre = true ∧
         ∀ c, head (lstrip s) = Some c -> isspace c = false.
Proof.
  induction s as [|x s (pre & Heq & Hpre & Hhead)].
  - by exists [].
  - cbn [lstrip]. destruct (isspace x) eqn:Hx.
    + exists (x :: pre). cbn. rewrite Hx, Hpre. split; [congruence|done].
    + exists []. split; [done|]. split; [done|]. cbn. congruence.
Qed.

Lemma lstrip_fixed s :
  (∀ c, head s = Some c -> isspace c = false) -> lstrip s = s.
Proof.
  destruct s as [|x s]; [done|]. cbn. intros Hx. by rewrite (Hx x).
Qed.

Lemma forallb_reverse {A} (f : A -> bool) l :
  forallb f (reverse l) = forallb f l.
Proof.
  induction l as [|x l IH]; [done|].
  rewrite reverse_cons, forallb_app, IH. cbn.
  rewrite andb_true_r. apply andb_comm.
Qed.

Lemma head_reverse {A} (l : list A) : head (reverse l) = last l.
Proof.
  induction l as [|x l IH] using rev_ind; [done|].
  by rewrite reverse_snoc, last_snoc.
Qed.

Lemma rstrip_spec s :
  ∃ post, s = rstrip s ++ post ∧ forallb isspace post = true ∧
          ∀ c, last (rstrip s) = Some c -> isspace c = false.
Proof.
  unfold rstrip.
  destruct (lstrip_spec (reverse s)) as (pre & Heq & Hpre & Hhead).
  exists (reverse pre). split.
  - rewrite <- reverse_app, <- Heq. by rewrite reverse_involutive.
  - split; [by rewrite forallb_reverse|].
    intros c. rewrite <- head_reverse, reverse_involutive. apply Hhead.
Qed.

Lemma rstrip_fixed s :
  (∀ c, last s = Some c -> isspace c = false) -> rstrip s = s.
Proof.
  intros Hlast. unfold rstrip. rewrite lstrip_fixed.
  - apply reverse_involutive.
  - intros c. rewrite head_reverse. apply Hlast.
Qed.

Lemma head_app_l {A} (l1 l2 : list A) c :
  head (l1 ++ l2) = Some c -> l1 ≠ [] -> head l1 = Some c.
Proof. by destruct l1. Qed.

Lemma strip_spec s :
  ∃ pre post, s = pre ++ strip s ++ post ∧
              forallb isspace pre = true ∧ forallb isspace post = true ∧
              stripped (strip s).
Proof.
  unfold strip.
  destruct (lstrip_spec s) as (pre & Heq & Hpre & Hhead).
  destruct (rstrip_spec (lstrip s)) as (post & Heq' & Hpost & Hlast).
  exists pre, post. split; [by rewrite <- Heq', <- Heq|].
  split; [done|]. split; [done|]. split; [|done].
  intros c Hc. apply Hhead. rewrite Heq'.
  destruct (rstrip (lstrip s)); [done|exact Hc].
Qed.

Lemma strip_fixed s : stripped s -> strip s = s.
Proof.
  intros [Hhead Hlast]. unfold strip.
  rewrite lstrip_fixed by done. by apply rstrip_fixed.
Qed.

Lemma strip_idempotent s : strip (strip s) = strip s.
Proof.
  destruct (strip_spec s) as (_ & _ & _ & _ & _ & H). by apply strip_fixed.
Qed.

Lemma strip_elem s c : c ∈ strip s -> c ∈ s.
Proof.
  destruct (strip_spec s) as (pre & post & Heq & _).
  intros Hc. rewrite Heq, !elem_of_app. auto.
Qed.

Lemma strip_blank s : strip s = [] ↔ forallb isspace s = true.
Proof.
  destruct (strip_spec s) as (pre & post & Heq & Hpre & Hpost & Hhead & _).
  split.
  - intros Hs. rewrite Heq, Hs, !forallb_app, Hpre, Hpost. done.
  - intros Hall. destruct (strip s) as [|c t] eqn:Hs; [done|].
    rewrite Heq, !forallb_app in Hall. cbn in Hall.
    rewrite (Hhead c) in Hall by done.
    by rewrite andb_false_r in Hall.
Qed.

End stripping.

(** ** [split] and [join] on a separator *)

Section splitting.

Local Open Scope nat_scope.

Lemma split_on_go_length sep acc s :
  length (split_on_go sep acc s)
    = S (length (filter (fun c => c = sep) s)).
Proof.
  revert acc. induction s as [|x s IH]; intros acc; [done|].
  cbn [split_on_go]. rewrite filter_cons.
  destruct (N.eqb_spec x sep) as [->|Hne].
  - rewrite decide_True by done. cbn. by rewrite IH.
  - rewrite decide_False by done. apply IH.
Qed.

Lemma split_on_go_pieces sep acc s :
  sep ∉ acc -> Forall (fun x => sep ∉ x) (split_on_go sep acc s).
Proof.
  revert acc. induction s as [|x s IH]; intros acc Hacc.
  - by constructor.
  - cbn [split_on_go]. destruct (N.eqb_spec x sep) as [->|Hne].
    + constructor; [done|]. apply IH, not_elem_of_nil.
    + apply IH. rewrite not_elem_of_app, list_elem_of_singleton.
      split; [done|congruence].
Qed.

(** [sep.join(s.split(sep)) == s] *)
Lemma join_split_on_go sep acc s :
  join [sep] (split_on_go sep acc s) = acc ++ s.
Proof.
  revert acc. induction s as [|x s IH]; intros acc.
  - cbn. by rewrite app_nil_r.
  - cbn [split_on_go]. destruct (N.eqb_spec x sep) as [->|Hne].
    + cbn [join]. pose proof (split_on_go_length sep [] s) as Hlen.
      destruct (split_on_go sep [] s) as [|y l] eqn:Hs; [done|].
      rewrite <- Hs, IH. done.
    + rewrite IH, <- app_assoc. done.
Qed.

(** [sep.join(items).split(sep) == items] *)
Lemma split_on_go_join sep acc x items :
  sep ∉ x -> Forall (fun y => sep ∉ y) items ->
  split_on_go sep acc (join [sep] (x :: items)) = (acc ++ x) :: items.
Proof.
  intros Hx Hitems. revert acc x Hx.
  induction Hitems as [|y items Hy Hitems IH]; intros acc x Hx.
  - cbn [join]. revert acc.
    induction x as [|c x IHx]; intros acc.
    + cbn. by rewrite app_nil_r.
    + apply not_elem_of_cons in Hx as [Hne Hx]. cbn [split_on_go].
      destruct (N.eqb_spec c sep) as [->|_]; [done|].
      rewrite IHx by done. by rewrite <- app_assoc.
  - change (join [sep] (x :: y :: items))
      with (x ++ [sep] ++ join [sep] (y :: items)).
    revert acc. induction x as [|c x IHx]; intros acc.
    + cbn [app split_on_go]. rewrite N.eqb_refl, app_nil_r.
      f_equal. by apply (IH [] y).
    + apply not_elem_of_cons in Hx as [Hne Hx].
      cbn [app split_on_go].
      destruct (N.eqb_spec c sep) as [->|_]; [done|].
      rewrite IHx by done. by rewrite <- app_assoc.
Qed.

End splitting.

(** ** The command line of the multi-language script *)

Section command_line.

Local Open Scope nat_scope.

Lemma length_parse_list s :
  length (Extreme.parse_list s) = S (commas s).
Proof.
  unfold Extreme.parse_list, split_on, commas.
  by rewrite length_map, split_on_go_length.
Qed.

(** X4.  [[c.strip() for c in s.split(',')]] gives one name more than the
    string has commas (one name, the empty one, for the empty string);
    no name has a comma or starts or ends with whitespace; and a list of
    names without commas, joined with commas, is read back name by name,
    each without the whitespace around it. *)
Theorem parse_list_names (s : str) :
  length (Extreme.parse_list s) = S (commas s) ∧
  Forall (fun x => (44%N ∉ x) ∧ stripped x) (Extreme.parse_list s) ∧
  ∀ name names,
    Forall (fun x => 44%N ∉ x) (name :: names) ->
    Extreme.parse_list (join [44%N] (name :: names))
      = map strip (name :: names).
Proof.
  split; [apply length_parse_list|]. split.
  - unfold Extreme.parse_list, split_on. apply Forall_fmap.
    eapply Forall_impl; [apply split_on_go_pieces, not_elem_of_nil|].
    intros x Hx. cbn. split.
    + intros Hin. by apply Hx, strip_elem.
    + by destruct (strip_spec x) as (_ & _ & _ & _ & _ & H).
  - intros name names Hnames. apply Forall_cons in Hnames as [Hn Hnames].
    unfold Extreme.parse_list, split_on.
    by rewrite split_on_go_join.
Qed.

(** X5.  The multi-language script checks its command line before
    anything else: when [--target_columns] and [--target_languages] do not
    have the same number of commas, [main] raises [ValueError] and has
    read, requested and written nothing; otherwise it runs the
    pipeline. *)
Theorem target_lists_must_match (a : Extreme.args) (e : env) (w : world) :
  (commas (Extreme.target_columns a) ≠ commas (Extreme.target_languages a) ->
   Extreme.main a e w = (w, Raise ValueError)) ∧
  (commas (Extreme.target_columns a) = commas (Extreme.target_languages a) ->
   Extreme.main a e w = Pipeline.run (pipeline_of (Extremely a)) e w).
Proof.
  pose proof (main_pipeline (Extremely a) e w) as Hmain.
  cbn [main_of rejected] in Hmain.
  rewrite !length_parse_list in Hmain. rewrite Hmain.
  split; intros Hc.
  - destruct (Nat.eqb_spec (S (commas (Extreme.target_columns a)))
                (S (commas (Extreme.target_languages a)))); [lia|done].
  - rewrite Hc, Nat.eqb_refl. done.
Qed.

End command_line.

(** ** What [strip] keeps *)

Section stripped_answers.

Local Open Scope nat_scope.

(** X19.  What [.strip()] keeps of an answer of the service (and of a name
    on the command line): the string without the whitespace at its two
    ends, and nothing else is removed; what is kept neither starts nor
    ends with whitespace, it is empty exactly when the string is all
    whitespace, and stripping it again changes nothing. *)
Theorem strip_keeps_the_middle (s : str) :
  (∃ pre post,
     s = pre ++ strip s ++ post ∧
     forallb isspace pre = true ∧ forallb isspace post = true) ∧
  stripped (strip s) ∧
  (strip s = [] ↔ forallb isspace s = true) ∧
  strip (strip s) = strip s.
Proof.
  destruct (strip_spec s) as (pre & post & Heq & Hpre & Hpost & Hs).
  split; [by exists pre, post|]. split; [exact Hs|].
  split; [apply strip_blank|apply strip_idempotent].
Qed.

End stripped_answers.

(** ** Runs that end well *)

Section successful_runs.

Local Open Scope nat_scope.

Lemma mapM_Ok {A B} (f : A -> M B) (R : A -> event -> B -> Prop) :
  (∀ x e w w' y,
     f x e w = (w', Ok y) -> ∃ ev, trace w' = trace w ++ [ev] ∧ R x ev y) ->
  ∀ l e w w' ys,
    mapM f l e w = (w', Ok ys) ->
    ∃ T, trace w' = trace w ++ T ∧ Forall3 R l T ys.
Proof.
  intros Hf l. induction l as [|x l IH]; intros e w w' ys.
  - intros [= <- <-]. exists []. rewrite app_nil_r. split; [done|constructor].
  - cbn [mapM]. unfold bind at 1.
    destruct (f x e w) as [w1 [y|z]] eqn:Hx; [|done].
    unfold bind at 1.
    destruct (mapM f l e w1) as [w2 [ys'|z]] eqn:Hl; [|done].
    intros [= <- <-].
    destruct (Hf _ _ _ _ _ Hx) as (ev & Htr1 & HR).
    destruct (IH _ _ _ _ Hl) as (T & Htr2 & HT).
    exists (ev :: T). split.
    + rewrite Htr2, Htr1, <- app_assoc. done.
    + by constructor.
Qed.

Lemma random_mask_Ok c rate e w w' y :
  insert_placeholders_random c rate e w = (w', Ok y) ->
  ∃ ev, trace w' = trace w ++ [ev] ∧
        masked_to (Pipeline.AtRandom rate) c ev y.
Proof.
  unfold insert_placeholders_random, bind at 1, lift, cell_split.
  destruct c as [text| |]; [|done..].
  set (n := length (split text)). set (k := sample_count n rate).
  unfold bind.
  destruct (Random.sample n k e w) as [w1 [indices|z]] eqn:Hs; [|done].
  intros [= <- <-].
  assert (1 <= k)%Z as Hk1 by (unfold k, sample_count; lia).
  destruct (Z_lt_le_dec (Z.of_nat n) k) as [Hlt|Hle].
  { rewrite sample_too_large in Hs by done. discriminate. }
  destruct (sample_spec n k e w) as (l & Hrun & Hlen & Hnd & Hin); [lia|].
  rewrite Hrun in Hs. injection Hs as <- <-.
  eexists. split; [reflexivity|].
  exists text, l. split; [done|]. split; [done|]. split; [done|].
  split; [|done]. intros ->. cbn in Hlen. lia.
Qed.

Lemma mask_Ok m c e w w' y :
  Pipeline.mask m c e w = (w', Ok y) ->
  ∃ ev, trace w' = trace w ++ [ev] ∧ masked_to m c ev y.
Proof.
  destruct m as [prompt|rate]; [|apply random_mask_Ok].
  cbn [Pipeline.mask]. unfold Pipeline.mask_stage, bind, invoke_claude, ret.
  destruct (claude e (calls w) (prompt (format c))) as [a|z] eqn:Ha; [|done].
  intros [= <- <-]. eexists. split; [reflexivity|]. by exists a.
Qed.

Lemma fill_Ok fill row e w w' y :
  Pipeline.fill_stage fill row e w = (w', Ok y) ->
  ∃ ev, trace w' = trace w ++ [ev] ∧ filled_to fill row ev y.
Proof.
  unfold Pipeline.fill_stage, bind at 1, lift.
  destruct (fill row) as [q|z] eqn:Hq; [|done].
  unfold bind, invoke_claude, ret.
  destruct (claude e (calls w) q) as [a|z] eqn:Ha; [|done].
  intros [= <- <-]. eexists. split; [reflexivity|]. by exists q, a.
Qed.

Lemma stage1_Ok p df e w0 w1 df1 :
  Pipeline.stage1 p df e w0 = (w1, Ok df1) ->
  (Pipeline.skips p df = true ∧ w1 = w0 ∧ df1 = df) ∨
  (Pipeline.skips p df = false ∧
   ∃ src T masked,
     DataFrame.find (Pipeline.key p) df = Some src ∧
     trace w1 = trace w0 ++ T ∧
     Forall3 (masked_to (Pipeline.masking p)) src T masked ∧
     df1 = DataFrame.set (Pipeline.intermediate p) (map CStr masked) df).
Proof.
  unfold Pipeline.stage1.
  destruct (Pipeline.skips p df); [intros [= <- <-]; by left|].
  intros Hrun. right. split; [done|].
  unfold bind at 1, lift, DataFrame.get in Hrun.
  destruct (DataFrame.find (Pipeline.key p) df) as [src|]; [|done].
  unfold bind, series_apply in Hrun.
  destruct (mapM _ src e w0) as [w1' [masked|z]] eqn:Hm; [|done].
  injection Hrun as <- <-.
  destruct (mapM_Ok _ _ (mask_Ok (Pipeline.masking p)) _ _ _ _ _ Hm)
    as (T & Htr & HT).
  by exists src, T, masked.
Qed.

Lemma stage2_Ok p df1 e w1 w2 df2 :
  Pipeline.stage2 p df1 e w1 = (w2, Ok df2) ->
  ∃ T out,
    trace w2 = trace w1 ++ T ∧
    Forall3 (filled_to (Pipeline.fill p)) (DataFrame.rows df1) T out ∧
    df2 = DataFrame.set (Pipeline.output_column p) (map CStr out) df1.
Proof.
  unfold Pipeline.stage2, bind, frame_apply.
  destruct (mapM _ _ e w1) as [w2' [out|z]] eqn:Hm; [|done].
  intros [= <- <-].
  destruct (mapM_Ok _ _ (fill_Ok (Pipeline.fill p)) _ _ _ _ _ Hm)
    as (T & Htr & HT).
  by exists T, out.
Qed.

(** A run that ends well has gone through every step. *)
Lemma run_Ok p e w0 w :
  Pipeline.run p e w0 = (w, Ok tt) ->
  ∃ df0 df w1 df1 w2 df2,
    csv e (Pipeline.input p) = Ok df0 ∧
    Pipeline.sample p df0 = Ok df ∧
    Pipeline.stage1 p df e w0 = (w1, Ok df1) ∧
    Pipeline.stage2 p df1 e w1 = (w2, Ok df2) ∧
    trace w = trace w2 ++ [EWrite (Pipeline.path p) df2].
Proof.
  unfold Pipeline.run, bind at 1, read_csv.
  destruct (csv e (Pipeline.input p)) as [df0|]; [|done].
  unfold bind at 1, lift.
  destruct (Pipeline.sample p df0) as [df|] eqn:Hs; [|done].
  unfold bind at 1.
  destruct (Pipeline.stage1 p df e w0) as [w1 [df1|]] eqn:H1; [|done].
  unfold bind.
  destruct (Pipeline.stage2 p df1 e w1) as [w2 [df2|]] eqn:H2; [|done].
  unfold to_csv. destruct (write_error e (Pipeline.path p) df2); [done|].
  intros [= <-]. by exists df0, df, w1, df1, w2, df2.
Qed.

Lemma answers_app T1 T2 : answers (T1 ++ T2) = answers T1 ++ answers T2.
Proof.
  induction T1 as [|[| ? [|] |] T1 IH]; cbn; by rewrite ?IH.
Qed.

Lemma masked_service prompt src T masked :
  Forall3 (masked_to (Pipeline.ByService prompt)) src T masked ->
  prompts T = map (fun c => prompt (format c)) src ∧
  length (answers T) = length src ∧
  masked = map strip (answers T).
Proof.
  induction 1 as [|c ev y src T masked (a & -> & ->) _ (IH1 & IH2 & IH3)];
    [done|].
  cbn. by rewrite IH1, IH2, <- IH3.
Qed.

Lemma masked_random rate src T masked :
  Forall3 (masked_to (Pipeline.AtRandom rate)) src T masked ->
  prompts T = [] ∧ answers T = [].
Proof.
  induction 1 as [|c ev y src T masked (? & ? & _ & -> & _) _ IH]; [done|].
  exact IH.
Qed.

Lemma filled_rows fill rows T out :
  Forall3 (filled_to fill) rows T out ->
  Forall2 (fun row q => fill row = Ok q) rows (prompts T) ∧
  length (answers T) = length rows ∧
  out = map strip (answers T).
Proof.
  induction 1
    as [|row ev y rows T out (q & a & Hq & -> & ->) _ (IH1 & IH2 & IH3)].
  - split; [constructor|done].
  - cbn. rewrite IH2, <- IH3. split; [by constructor|done].
Qed.

End successful_runs.

(** ** What is asked and what is written *)

Section written_frames.

Local Open Scope nat_scope.

Lemma main_Ok s e w :
  main_of s e world0 = (w, Ok tt) ->
  Pipeline.run (pipeline_of s) e world0 = (w, Ok tt).
Proof.
  rewrite main_pipeline. by destruct (rejected s).
Qed.

Lemma nonempty_rows df : DataFrame.nrows df ≠ 0 -> df ≠ [].
Proof. by intros Hn ->. Qed.

Lemma Forall3_lengths {A B C} (P : A -> B -> C -> Prop) l k m :
  Forall3 P l k m -> length k = length l ∧ length m = length l.
Proof. induction 1 as [|x y z l k m _ _ [IH1 IH2]]; cbn; [done|lia]. Qed.

(** The frame after stage 1 has the rows of the frame before. *)
Lemma nrows_after_stage1 p df e w0 w1 df1 :
  DataFrame.rectangular df -> DataFrame.nrows df ≠ 0 ->
  Pipeline.stage1 p df e w0 = (w1, Ok df1) ->
  DataFrame.nrows df1 = DataFrame.nrows df.
Proof.
  intros Hrect Hn
    [(_ & _ & ->)|(_ & src & T & masked & Hsrc & _ & HT & ->)]%stage1_Ok;
    [done|].
  apply nrows_set_old; [by apply nonempty_rows|].
  rewrite length_map. destruct (Forall3_lengths _ _ _ _ HT) as [_ ->].
  by eapply rectangular_find.
Qed.

(** A run that ends well, step by step. *)
Lemma main_steps s e df0 df w :
  csv e (input_of s) = Ok df0 ->
  DataFrame.rectangular df0 ->
  sample_of s df0 = Ok df ->
  DataFrame.nrows df ≠ 0 ->
  main_of s e world0 = (w, Ok tt) ->
  ∃ w1 df1 T2 filled,
    Pipeline.stage1 (pipeline_of s) df e world0 = (w1, Ok df1) ∧
    DataFrame.nrows df1 = DataFrame.nrows df ∧
    Forall3 (filled_to (fill_of s)) (DataFrame.rows df1) T2 filled ∧
    trace w
      = trace w1 ++ T2
        ++ [EWrite (Pipeline.path (pipeline_of s))
              (DataFrame.set (csw_of s) (map CStr filled) df1)].
Proof.
  intros Hcsv Hrect0 Hs Hn
    (df0' & df' & w1 & df1 & w2 & df2 & Hcsv' & Hs' & H1 & H2 & Htr)
      %main_Ok%run_Ok.
  rewrite input_pipeline, Hcsv in Hcsv'. injection Hcsv' as <-.
  rewrite <- sample_pipeline, Hs in Hs'. injection Hs' as <-.
  assert (Hrect : DataFrame.rectangular df).
  { rewrite sample_pipeline in Hs. by eapply rectangular_sample. }
  apply stage2_Ok in H2 as (T2 & filled & Htr2 & HT2 & ->).
  rewrite fill_pipeline in HT2. rewrite output_pipeline in Htr.
  exists w1, df1, T2, filled. split; [done|].
  split; [by eapply nrows_after_stage1|]. split; [done|].
  by rewrite Htr, Htr2, <- app_assoc.
Qed.

Lemma answers_write path df : answers [EWrite path df] = [].
Proof. reflexivity. Qed.

(** The requests and the answers of stage 1. *)
Lemma stage1_answers s df e w1 df1 :
  DataFrame.rectangular df ->
  Pipeline.stage1 (pipeline_of s) df e world0 = (w1, Ok df1) ->
  length (answers (trace w1))
    = (if masks_by_service s df then DataFrame.nrows df else 0) ∧
  length (prompts (trace w1)) = length (answers (trace w1)) ∧
  (masks_by_service s df = true ->
   df1 = DataFrame.set (intermediate_of s)
           (map (fun a => CStr (strip a)) (answers (trace w1))) df ∧
   ∀ prompt,
     Pipeline.masking (pipeline_of s) = Pipeline.ByService prompt ->
     prompts (trace w1) = map (fun c => prompt (format c)) (key_cells s df)).
Proof.
  intros Hrect
    [(Hskip & -> & ->)|(Hskip & src & T & masked & Hsrc & Htr & HT & ->)]
      %stage1_Ok; rewrite masks_by_service_masking, Hskip.
  - assert (match Pipeline.masking (pipeline_of s) with
            | Pipeline.ByService _ => negb true
            | Pipeline.AtRandom _ => false
            end = false) as ->
      by (by destruct (Pipeline.masking (pipeline_of s))).
    split; [reflexivity|]. split; [reflexivity|]. intros [=].
  - cbn [trace world0 app] in Htr. rewrite Htr.
    pose proof (rectangular_find _ _ _ Hrect Hsrc) as Hlen.
    destruct (Pipeline.masking (pipeline_of s)) as [prompt|rate] eqn:Hm.
    + destruct (masked_service _ _ _ _ HT) as (Hp & Ha & ->).
      cbn [negb].
      split; [by rewrite Ha|].
      split; [by rewrite Hp, length_map, Ha|].
      intros _. rewrite intermediate_pipeline, map_map. split; [reflexivity|].
      intros prompt' [= <-]. unfold key_cells. by rewrite Hsrc.
    + destruct (masked_random _ _ _ _ HT) as [-> ->].
      split; [reflexivity|]. split; [reflexivity|]. intros [=].
Qed.

(** X6.  What the result column holds.  When a run on a frame with rows
    ends well, the answers of the service are those of stage 1 (one per
    row where stage 1 uses the service) followed by those of stage 2, one
    per row; the column [csw_column_name] of the CSV written holds, in
    row [i], the [i]-th answer of stage 2 without the whitespace at its
    ends. *)
Theorem result_column_holds_answers (s : script) (e : env)
  (df0 df : DataFrame.t) (w : world) :
  csv e (input_of s) = Ok df0 ->
  DataFrame.rectangular df0 ->
  sample_of s df0 = Ok df ->
  DataFrame.nrows df ≠ 0 ->
  main_of s e world0 = (w, Ok tt) ->
  ∃ out masks fills,
    last (trace w) = Some (EWrite (Pipeline.path (pipeline_of s)) out) ∧
    answers (trace w) = masks ++ fills ∧
    length masks
      = (if masks_by_service s df then DataFrame.nrows df else 0) ∧
    length fills = DataFrame.nrows df ∧
    DataFrame.find (csw_of s) out
      = Some (map (fun a => CStr (strip a)) fills) ∧
    Forall (fun a => stripped (strip a)) fills.
Proof.
  intros Hcsv Hrect0 Hs Hn Hmain.
  destruct (main_steps _ _ _ _ _ Hcsv Hrect0 Hs Hn Hmain)
    as (w1 & df1 & T2 & filled & H1 & Hrows & HT2 & Htr).
  assert (Hrect : DataFrame.rectangular df).
  { rewrite sample_pipeline in Hs. by eapply rectangular_sample. }
  destruct (stage1_answers _ _ _ _ _ Hrect H1) as (Hmasks & _).
  destruct (filled_rows _ _ _ _ HT2) as (_ & Hlen & ->).
  eexists _, (answers (trace w1)), (answers T2).
  split; [by rewrite Htr, app_assoc, last_snoc|].
  split.
  { by rewrite Htr, !answers_app, answers_write, app_nil_r. }
  split; [done|].
  split; [by rewrite Hlen, length_rows|].
  split; [by rewrite find_set_eq, map_map|].
  apply Forall_forall. intros a _.
  by destruct (strip_spec a) as (_ & _ & _ & _ & _ & H).
Qed.

(** X7.  What stage 2 is asked.  When stage 1 goes through the service
    and the run on a frame with rows ends well, the requests are the
    masking prompts of the key cells, in the order of the rows, followed
    by the filling prompts of the rows of the frame whose intermediate
    column holds the answers of stage 1 without the whitespace at their
    ends: the filling prompt of row [i] is made from the answer to the
    masking prompt of row [i]. *)
Theorem fill_requests_use_mask_answers (s : script) (e : env)
  (df0 df : DataFrame.t) (w : world) (prompt : str -> str) :
  csv e (input_of s) = Ok df0 ->
  DataFrame.rectangular df0 ->
  sample_of s df0 = Ok df ->
  DataFrame.nrows df ≠ 0 ->
  Pipeline.masking (pipeline_of s) = Pipeline.ByService prompt ->
  masks_by_service s df = true ->
  main_of s e world0 = (w, Ok tt) ->
  ∃ masks fills requests,
    answers (trace w) = masks ++ fills ∧
    length masks = DataFrame.nrows df ∧
    prompts (trace w)
      = map (fun c => prompt (format c)) (key_cells s df) ++ requests ∧
    Forall2 (fun row q => fill_of s row = Ok q)
      (DataFrame.rows
         (DataFrame.set (intermediate_of s)
            (map (fun a => CStr (strip a)) masks) df))
      requests.
Proof.
  intros Hcsv Hrect0 Hs Hn Hm Hmask Hmain.
  destruct (main_steps _ _ _ _ _ Hcsv Hrect0 Hs Hn Hmain)
    as (w1 & df1 & T2 & filled & H1 & Hrows & HT2 & Htr).
  assert (Hrect : DataFrame.rectangular df).
  { rewrite sample_pipeline in Hs. by eapply rectangular_sample. }
  destruct (stage1_answers _ _ _ _ _ Hrect H1) as (Hmasks & _ & Hdf1).
  destruct (Hdf1 Hmask) as [-> Hprompts]. rewrite Hmask in Hmasks.
  destruct (filled_rows _ _ _ _ HT2) as (Hreq & _ & _).
  exists (answers (trace w1)), (answers T2), (prompts T2).
  split.
  { by rewrite Htr, !answers_app, answers_write, app_nil_r. }
  split; [done|]. split; [|done].
  rewrite Htr, !prompts_app, prompts_write, app_nil_r.
  by rewrite (Hprompts _ Hm).
Qed.

(** X8.  What the randomized script puts in [placeholder_text].  When a
    run on a frame with rows ends well and the result column has another
    name, every source cell is a string with at least one word, and the
    cell of [placeholder_text] in its row has the same number of words:
    the placeholder at the positions [random.sample] drew, of which there
    is at least one, and the words of the source elsewhere.  The service
    is asked once per row, in stage 2. *)
Theorem random_placeholders_written (a : args) (e : env)
  (df0 df : DataFrame.t) (w : world) :
  csv e (input_csv a) = Ok df0 ->
  DataFrame.rectangular df0 ->
  sample_of (Randomly a) df0 = Ok df ->
  DataFrame.nrows df ≠ 0 ->
  csw_column_name a ≠ lit "placeholder_text" ->
  main_of (Randomly a) e world0 = (w, Ok tt) ->
  ∃ out src masked,
    last (trace w)
      = Some (EWrite (Pipeline.path (pipeline_of (Randomly a))) out) ∧
    DataFrame.find (source_column a) df = Some src ∧
    DataFrame.find (lit "placeholder_text") out = Some (map CStr masked) ∧
    length (prompts (trace w)) = DataFrame.nrows df ∧
    Forall2
      (fun c y =>
         ∃ text indices,
           c = CStr text ∧ indices ≠ [] ∧ NoDup indices ∧
           length (split y) = length (split text) ∧
           (∀ i, i ∈ indices ->
              i < length (split text) ∧ split y !! i = Some placeholder) ∧
           (∀ i, i ∉ indices -> split y !! i = split text !! i))
      src masked.
Proof.
  intros Hcsv Hrect0 Hs Hn Hcsw Hmain.
  destruct (main_steps (Randomly a) _ _ _ _ Hcsv Hrect0 Hs Hn Hmain)
    as (w1 & df1 & T2 & filled & H1 & Hrows & HT2 & Htr).
  apply stage1_Ok in H1
    as [(Hskip & _)|(_ & src & T & masked & Hsrc & Htr1 & HT & ->)];
    [discriminate|].
  cbn [pipeline_of Pipeline.key Pipeline.masking Pipeline.intermediate]
    in Hsrc, HT, Htr.
  cbn [trace world0 app] in Htr1.
  destruct (masked_random _ _ _ _ HT) as [Hp _].
  destruct (filled_rows _ _ _ _ HT2) as (Hreq & _ & _).
  eexists _, src, masked.
  split; [by rewrite Htr, app_assoc, last_snoc|].
  split; [done|]. split.
  { cbn [csw_of]. rewrite find_set_ne by done. apply find_set_eq. }
  split.
  { rewrite Htr, Htr1, !prompts_app, prompts_write, Hp, app_nil_r.
    cbn [app]. apply Forall2_length in Hreq.
    by rewrite <- Hreq, length_rows. }
  clear -HT. induction HT as [|c ev y src T masked Hc _ IH]; [constructor|].
  constructor; [|exact IH].
  destruct Hc as (text & indices & -> & _ & -> & Hne & Hnd & Hin).
  exists text, indices. split; [done|]. split; [done|]. split; [done|].
  rewrite split_join by (apply mask_words_words, split_words).
  split; [apply length_mask_words|]. split.
  - intros i Hi. split; [by apply Hin|].
    rewrite lookup_mask_words, decide_True by done.
    destruct (lookup_lt_is_Some_2 (split text) i (Hin i Hi)) as [x ->].
    reflexivity.
  - intros i Hi. by rewrite lookup_mask_words, decide_False.
Qed.

End written_frames.

(** ** A missing parallel column *)

Section failures.

Local Open Scope nat_scope.

Lemma get_row_raises df i name z :
  DataFrame.get_row df i name = Raise z -> z = KeyError.
Proof.
  unfold DataFrame.get_row.
  destruct (DataFrame.find name df) as [v|]; [|congruence].
  destruct (v !! i); congruence.
Qed.

Lemma get_row_missing df i name :
  DataFrame.find name df = None ->
  DataFrame.get_row df i name = Raise KeyError.
Proof. intros Hf. unfold DataFrame.get_row. by rewrite Hf. Qed.

Lemma lookups_missing df i cols c :
  c ∈ cols -> DataFrame.find c df = None ->
  Extreme.lookups (DataFrame.get_row df i) cols = Raise KeyError.
Proof.
  intros Hc Hf. induction cols as [|x cols IH]; [by apply elem_of_nil in Hc|].
  cbn [Extreme.lookups].
  destruct (DataFrame.get_row df i x) as [v|z] eqn:Hx.
  - apply elem_of_cons in Hc as [->|Hc].
    + rewrite get_row_missing in Hx by done. discriminate.
    + by rewrite IH.
  - by apply get_row_raises in Hx as ->.
Qed.

(** Without one of its parallel columns, the prompt of stage 2 cannot be
    made for any row. *)
Lemma fill_missing s df i c :
  c ∈ parallel_columns_of s -> DataFrame.find c df = None ->
  fill_of s (DataFrame.get_row df i) = Raise KeyError.
Proof.
  intros Hc Hf.
  destruct s as [a|a|a|a]; cbn [fill_of parallel_columns_of] in *;
    try (apply list_elem_of_singleton in Hc as ->);
    (destruct (DataFrame.get_row df i _) as [p|z] eqn:Hp;
     [|by apply get_row_raises in Hp as ->]); cbn [and_then].
  - by rewrite get_row_missing.
  - by rewrite get_row_missing.
  - by rewrite (lookups_missing _ _ _ c).
  - by rewrite get_row_missing.
Qed.

Lemma rows_cons df :
  DataFrame.nrows df ≠ 0 ->
  ∃ rest, DataFrame.rows df = DataFrame.get_row df 0 :: rest.
Proof.
  unfold DataFrame.rows. destruct (DataFrame.nrows df) as [|n]; [done|].
  intros _. by eexists.
Qed.

Lemma Run_first_fails {A} (P : A -> event -> Prop) x l T o :
  (∀ ev, ¬ P x ev) -> Run P (x :: l) T o -> T = [] ∧ is_Some o.
Proof.
  intros Hx Hrun. inversion Hrun; subst.
  - by destruct (Hx ev).
  - by destruct (Hx ev).
  - split; [done|by eexists].
Qed.

Lemma find_after_stage1 p df T1 df1 c :
  stage1_done p df T1 df1 -> c ≠ Pipeline.intermediate p ->
  DataFrame.find c df1 = DataFrame.find c df.
Proof.
  intros [(_ & _ & ->)|(_ & src & masked & _ & _ & _ & ->)] Hne; [done|].
  by rewrite find_set_ne.
Qed.

Lemma mask_prompts_only s src T o :
  Run (masked_by (Pipeline.masking (pipeline_of s))) src T o ->
  Forall (fun q => startswith mask_prefix q = true) (prompts T).
Proof.
  intros Hrun.
  destruct (Pipeline.masking (pipeline_of s)) as [prompt|rate] eqn:Hm.
  - rewrite (prompts_masked_service _ _ _ _ Hrun).
    apply Forall_fmap, Forall_forall. intros c _. cbn.
    by eapply mask_prompt_prefix.
  - rewrite (prompts_masked_random _ _ _ _ Hrun). constructor.
Qed.

Lemma stage1_done_mask_prompts s df T1 df1 :
  stage1_done (pipeline_of s) df T1 df1 ->
  Forall (fun q => startswith mask_prefix q = true) (prompts T1).
Proof.
  intros [(_ & -> & _)|(_ & src & masked & _ & Hrun & _)]; [constructor|].
  by eapply mask_prompts_only.
Qed.

(** What a run leaves when stage 2 cannot make its prompt: the events of
    stage 1 alone. *)
Lemma outcome_without_fill s e df T r :
  DataFrame.rectangular df -> DataFrame.nrows df ≠ 0 ->
  (∀ df1 T1, stage1_done (pipeline_of s) df T1 df1 ->
     ∀ i, ∃ z, fill_of s (DataFrame.get_row df1 i) = Raise z) ->
  outcome (pipeline_of s) e df T r ->
  r ≠ Ok tt ∧
  Forall (fun ev => is_write ev = false) T ∧
  Forall (fun q => startswith mask_prefix q = true) (prompts T).
Proof.
  intros Hrect Hn Hfill Hout.
  assert (Hstage2 : ∀ df1 T1 T2 o,
    stage1_done (pipeline_of s) df T1 df1 ->
    Run (filled_by (Pipeline.fill (pipeline_of s)))
      (DataFrame.rows df1) T2 o ->
    T2 = [] ∧ is_Some o).
  { intros df1 T1 T2 o Hdone Hrun.
    destruct (rows_cons df1) as [rest Hrows].
    { by rewrite (nrows_stage1 _ _ _ _ Hrect Hdone). }
    rewrite Hrows in Hrun. eapply Run_first_fails; [|exact Hrun].
    intros ev (q & o' & Hq & _). rewrite fill_pipeline in Hq.
    destruct (Hfill _ _ Hdone 0) as [z Hz]. congruence. }
  destruct Hout as
    [Hskip Hkey|src T1 z' Hskip Hkey Hrun|df1 T1 T2 z' Hdone Hrun
    |df1 T1 T2 filled z' Hdone Hrun Hlen Hwe
    |df1 T1 T2 filled Hdone Hrun Hlen Hwe].
  - split; [done|]. split; constructor.
  - split; [done|]. split; [by eapply Run_no_write|].
    by eapply mask_prompts_only.
  - destruct (Hstage2 _ _ _ _ Hdone Hrun) as [-> _]. rewrite app_nil_r.
    split; [done|]. split; [by eapply stage1_done_no_write|].
    by eapply stage1_done_mask_prompts.
  - by destruct (Hstage2 _ _ _ _ Hdone Hrun) as [_ [? [=]]].
  - by destruct (Hstage2 _ _ _ _ Hdone Hrun) as [_ [? [=]]].
Qed.

Lemma mapM_service_total prompt src e w :
  (∀ i q, ∃ a, claude e i q = Ok a) ->
  ∃ w' masked,
    mapM (Pipeline.mask (Pipeline.ByService prompt)) src e w
      = (w', Ok masked).
Proof.
  intros Hservice. revert w.
  induction src as [|c src IH]; intros w; [by eexists _, _|].
  cbn [mapM Pipeline.mask]. unfold bind at 1.
  unfold Pipeline.mask_stage at 1, bind at 1, invoke_claude at 1, ret at 1.
  destruct (Hservice (calls w) (prompt (format c))) as [a ->].
  unfold bind at 1.
  edestruct IH as (w' & masked & ->). by eexists _, _.
Qed.

Lemma stage2_first_row_fails p df1 e w1 z :
  DataFrame.nrows df1 ≠ 0 ->
  Pipeline.fill p (DataFrame.get_row df1 0) = Raise z ->
  Pipeline.stage2 p df1 e w1 = (w1, Raise z).
Proof.
  intros [rest Hrows]%rows_cons Hfill.
  unfold Pipeline.stage2, bind at 1, frame_apply. rewrite Hrows.
  cbn [mapM]. unfold bind at 1.
  unfold Pipeline.fill_stage at 1, bind at 1, lift. by rewrite Hfill.
Qed.

Lemma run_stage2_raises p e w0 df0 df w1 df1 w2 z :
  csv e (Pipeline.input p) = Ok df0 ->
  Pipeline.sample p df0 = Ok df ->
  Pipeline.stage1 p df e w0 = (w1, Ok df1) ->
  Pipeline.stage2 p df1 e w1 = (w2, Raise z) ->
  Pipeline.run p e w0 = (w2, Raise z).
Proof.
  intros Hcsv Hs H1 H2. unfold Pipeline.run, bind at 1, read_csv.
  rewrite Hcsv. unfold bind at 1, lift. rewrite Hs.
  unfold bind at 1. rewrite H1. unfold bind. by rewrite H2.
Qed.

Lemma run_stage1_raises p e w0 df0 df w1 z :
  csv e (Pipeline.input p) = Ok df0 ->
  Pipeline.sample p df0 = Ok df ->
  Pipeline.stage1 p df e w0 = (w1, Raise z) ->
  Pipeline.run p e w0 = (w1, Raise z).
Proof.
  intros Hcsv Hs H1. unfold Pipeline.run, bind at 1, read_csv.
  rewrite Hcsv. unfold bind at 1, lift. rewrite Hs.
  unfold bind at 1. by rewrite H1.
Qed.

(** With a service that answers, a stage 1 that uses the service goes
    through. *)
Lemma stage1_total s prompt df e w0 :
  Pipeline.masking (pipeline_of s) = Pipeline.ByService prompt ->
  (∀ i q, ∃ a, claude e i q = Ok a) ->
  Pipeline.key (pipeline_of s) ∈ DataFrame.names df ->
  ∃ w1 df1, Pipeline.stage1 (pipeline_of s) df e w0 = (w1, Ok df1).
Proof.
  intros Hm Hservice Hkey. unfold Pipeline.stage1.
  destruct (Pipeline.skips (pipeline_of s) df); [by eexists _, _|].
  unfold bind at 1, lift, DataFrame.get.
  destruct (DataFrame.find (Pipeline.key (pipeline_of s)) df)
    as [src|] eqn:Hsrc.
  2:{ apply find_None in Hsrc. done. }
  unfold bind, series_apply. rewrite Hm.
  destruct (mapM_service_total prompt src e w0 Hservice)
    as (w1 & masked & ->).
  by eexists _, _.
Qed.

(** X9.  A parallel column that is not in the input is found out only
    in stage 2.  When a column stage 2 reads is missing (and is not the
    intermediate column), a run on a frame with rows does not end well and
    writes no CSV, and every request it has sent is a masking request of
    stage 1.  With a service that answers every request, a script whose
    stage 1 uses the service sends all the requests of stage 1 and then
    raises [KeyError]. *)
Theorem missing_parallel_column (s : script) (e : env)
  (df0 df : DataFrame.t) (w : world) (r : result unit) (c : str) :
  csv e (input_of s) = Ok df0 ->
  DataFrame.rectangular df0 ->
  sample_of s df0 = Ok df ->
  DataFrame.nrows df ≠ 0 ->
  c ∈ parallel_columns_of s ->
  c ∉ DataFrame.names df0 ->
  c ≠ intermediate_of s ->
  main_of s e world0 = (w, r) ->
  r ≠ Ok tt ∧
  Forall (fun ev => is_write ev = false) (trace w) ∧
  Forall (fun q => startswith mask_prefix q = true) (prompts (trace w)) ∧
  ∀ prompt,
    Pipeline.masking (pipeline_of s) = Pipeline.ByService prompt ->
    (∀ i q, ∃ a, claude e i q = Ok a) ->
    rejected s = false ->
    Pipeline.key (pipeline_of s) ∈ DataFrame.names df0 ->
    r = Raise KeyError ∧
    length (prompts (trace w))
      = (if masks_by_service s df then DataFrame.nrows df else 0).
Proof.
  intros Hcsv Hrect0 Hs Hn Hc Hnin Hne Hmain.
  assert (Hrect : DataFrame.rectangular df).
  { rewrite sample_pipeline in Hs. by eapply rectangular_sample. }
  assert (Hnames : DataFrame.names df = DataFrame.names df0).
  { rewrite sample_pipeline in Hs. by eapply names_sample. }
  assert (Hmissing : DataFrame.find c df = None).
  { apply find_None. by rewrite Hnames. }
  assert (r ≠ Ok tt ∧
          Forall (fun ev => is_write ev = false) (trace w) ∧
          Forall (fun q => startswith mask_prefix q = true)
            (prompts (trace w))) as (HA & HB & HC).
  { destruct (main_cases _ _ _ _ Hmain)
      as [[Htr [z Hz]]|(_ & df0' & df' & Hcsv' & Hs' & Hout)].
    { rewrite Htr. split; [intros ->; discriminate|]. split; constructor. }
    rewrite Hcsv in Hcsv'. injection Hcsv' as <-.
    rewrite Hs in Hs'. injection Hs' as <-.
    apply (outcome_without_fill s e df); [done|done| |done].
    intros df1 T1 Hdone i. exists KeyError.
    apply (fill_missing _ _ _ c); [done|].
    rewrite (find_after_stage1 _ _ _ _ _ Hdone); [done|].
    by rewrite intermediate_pipeline. }
  split; [done|]. split; [done|]. split; [done|].
  intros prompt Hm Hservice Hrej Hkey.
  rewrite main_pipeline, Hrej in Hmain.
  destruct (stage1_total s prompt df e world0 Hm Hservice)
    as (w1 & df1 & H1); [by rewrite Hnames|].
  assert (Hrows : DataFrame.nrows df1 = DataFrame.nrows df)
    by (by eapply nrows_after_stage1).
  assert (Hfind : DataFrame.find c df1 = None).
  { apply stage1_Ok in H1
      as [(_ & _ & ->)|(_ & src & T & masked & _ & _ & _ & ->)]; [done|].
    rewrite find_set_ne; [done|]. by rewrite intermediate_pipeline. }
  rewrite (run_stage2_raises _ _ _ df0 df w1 df1 w1 KeyError) in Hmain.
  - injection Hmain as <- <-. split; [done|].
    destruct (stage1_answers _ _ _ _ _ Hrect H1) as (Ha & Hp & _).
    by rewrite Hp, Ha.
  - by rewrite input_pipeline.
  - by rewrite <- sample_pipeline.
  - done.
  - apply stage2_first_row_fails; [by rewrite Hrows|].
    rewrite fill_pipeline. by apply (fill_missing _ _ _ c).
Qed.

End failures.

(** ** Failures of the random masking *)

Section random_failures.

Local Open Scope nat_scope.

Lemma mapM_Raise {A B} (f : A -> M B) (Q : exn -> Prop) :
  (∀ x e w w' z, f x e w = (w', Raise z) -> Q z) ->
  ∀ l e w w' z, mapM f l e w = (w', Raise z) -> Q z.
Proof.
  intros Hf l. induction l as [|x l IH]; intros e w w' z; [done|].
  cbn [mapM]. unfold bind at 1.
  destruct (f x e w) as [w1 [y|z1]] eqn:Hx.
  - unfold bind at 1.
    destruct (mapM f l e w1) as [w2 [ys|z2]] eqn:Hl; [done|].
    intros [= <- <-]. by eapply IH.
  - intros [= <- <-]. by eapply Hf.
Qed.

Lemma random_mask_raises rate c e w w' z :
  insert_placeholders_random c rate e w = (w', Raise z) ->
  z = AttributeError ∨ z = ValueError.
Proof.
  unfold insert_placeholders_random, bind at 1, lift, cell_split.
  destruct c as [text| |]; [|intros [= <- <-]; by left..].
  unfold bind.
  destruct (Random.sample _ _ e w) as [w1 [indices|z1]] eqn:Hs; [done|].
  intros [= <- <-]. right.
  destruct (sample_trace (length (split text))
              (sample_count (length (split text)) rate) e w) as [_ Hz].
  apply Hz. by rewrite Hs.
Qed.

Lemma stage1_Raise p df e w0 w1 z :
  Pipeline.stage1 p df e w0 = (w1, Raise z) ->
  (DataFrame.find (Pipeline.key p) df = None ∧ z = KeyError ∧ w1 = w0) ∨
  ∃ src,
    DataFrame.find (Pipeline.key p) df = Some src ∧
    mapM (Pipeline.mask (Pipeline.masking p)) src e w0 = (w1, Raise z).
Proof.
  unfold Pipeline.stage1. destruct (Pipeline.skips p df); [done|].
  unfold bind at 1, lift, DataFrame.get.
  destruct (DataFrame.find (Pipeline.key p) df) as [src|];
    [|intros [= <- <-]; by left].
  unfold bind, series_apply.
  destruct (mapM _ src e w0) as [w1' [masked|z']] eqn:Hm; [done|].
  intros [= <- <-]. right. by exists src.
Qed.

Lemma Forall3_elem_l {A B C} (P : A -> B -> C -> Prop) l k m x :
  Forall3 P l k m -> x ∈ l -> ∃ y z, P x y z.
Proof.
  induction 1 as [|x' y z l k m HP _ IH]; intros Hin.
  - by apply elem_of_nil in Hin.
  - apply elem_of_cons in Hin as [->|Hin]; [by exists y, z|by apply IH].
Qed.

(** X10.  The randomized script needs a word in every source cell.  When
    a retained source cell is not a string with at least one word (it is
    missing, a number, empty or all whitespace), the run raises
    [AttributeError] or [ValueError] in stage 1: no request is sent to
    the service and no CSV is written. *)
Theorem random_needs_words (a : args) (e : env) (df0 df : DataFrame.t)
  (src : list cell) (c : cell) (w : world) (r : result unit) :
  csv e (input_csv a) = Ok df0 ->
  sample_of (Randomly a) df0 = Ok df ->
  DataFrame.find (source_column a) df = Some src ->
  c ∈ src ->
  (∀ text, c = CStr text -> forallb isspace text = true) ->
  main_of (Randomly a) e world0 = (w, r) ->
  (r = Raise AttributeError ∨ r = Raise ValueError) ∧
  prompts (trace w) = [] ∧
  Forall (fun ev => is_write ev = false) (trace w).
Proof.
  intros Hcsv Hs Hsrc Hc Hbad Hmain.
  rewrite main_pipeline in Hmain. cbn [rejected] in Hmain.
  rewrite sample_pipeline in Hs.
  destruct (Pipeline.stage1 (pipeline_of (Randomly a)) df e world0)
    as [w1 [df1|z]] eqn:H1.
  - exfalso. apply stage1_Ok in H1
      as [(Hskip & _)|(_ & src' & T & masked & Hsrc' & _ & HT & _)];
      [discriminate|].
    cbn [pipeline_of Pipeline.key Pipeline.masking] in Hsrc', HT.
    rewrite Hsrc in Hsrc'. injection Hsrc' as <-.
    destruct (Forall3_elem_l _ _ _ _ _ HT Hc)
      as (ev & y & text & indices & -> & _ & _ & Hne & _ & Hin).
    specialize (Hbad text eq_refl). apply split_nil in Hbad.
    destruct indices as [|i indices]; [done|].
    specialize (Hin i (list_elem_of_here _ _)).
    rewrite Hbad in Hin. cbn in Hin. lia.
  - rewrite (run_stage1_raises _ _ _ df0 df w1 z) in Hmain by done.
    injection Hmain as <- <-.
    apply stage1_Raise in H1 as [(Hn & _)|(src' & Hsrc' & Hm)];
      cbn [pipeline_of Pipeline.key Pipeline.masking] in *; [congruence|].
    rewrite Hsrc in Hsrc'. injection Hsrc' as <-.
    split.
    { assert (z = AttributeError ∨ z = ValueError) as [->| ->];
        [|by left|by right].
      eapply (mapM_Raise _ (fun z => z = AttributeError ∨ z = ValueError));
        [|exact Hm].
      intros x e' w' w'' z'. apply random_mask_raises. }
    destruct (mapM_Run _ _ src e world0
                (mask_emits (Pipeline.AtRandom Float.rate_0_2)))
      as (T & Htr & Hrun & _).
    cbn [Pipeline.mask] in Htr, Hrun. rewrite Hm in Htr, Hrun.
    cbn [fst trace world0 app] in Htr. rewrite Htr.
    split; [by eapply prompts_masked_random|by eapply Run_no_write].
Qed.

End random_failures.

(** ** Sample sizes *)

Section sample_sizes.

Local Open Scope nat_scope.

Lemma outcome_prompts_bound s e df T r :
  DataFrame.rectangular df ->
  outcome (pipeline_of s) e df T r ->
  length (prompts T)
    <= (if masks_by_service s df then 2 else 1) * DataFrame.nrows df.
Proof.
  intros Hrect Hout.
  assert (Hfill : ∀ df1 T1 T2 o,
    stage1_done (pipeline_of s) df T1 df1 ->
    Run (filled_by (Pipeline.fill (pipeline_of s)))
      (DataFrame.rows df1) T2 o ->
    length (prompts (T1 ++ T2))
      <= (if masks_by_service s df then 2 else 1) * DataFrame.nrows df).
  { intros df1 T1 T2 o Hdone Hrun.
    destruct (prompts_stage1 s df T1 df1 Hrect Hdone) as [Hmasks _].
    destruct (prompts_filled _ _ _ _ Hrun) as [Hfills _].
    pose proof (Run_length _ _ _ _ Hrun) as Hle.
    rewrite length_rows, (nrows_stage1 _ _ _ _ Hrect Hdone) in Hle.
    rewrite prompts_app, length_app, Hmasks, Hfills.
    destruct (masks_by_service s df); lia. }
  destruct Hout as
    [Hskip Hkey|src T1 z' Hskip Hkey Hrun|df1 T1 T2 z' Hdone Hrun
    |df1 T1 T2 filled z' Hdone Hrun Hlen Hwe
    |df1 T1 T2 filled Hdone Hrun Hlen Hwe].
  - cbn. lia.
  - pose proof (prompts_stage1_bound s df src T1 z' Hrect Hkey Hskip Hrun).
    destruct (masks_by_service s df); lia.
  - by eapply Hfill.
  - rewrite app_assoc, prompts_app, prompts_write, app_nil_r.
    by eapply Hfill.
  - rewrite app_assoc, prompts_app, prompts_write, app_nil_r.
    by eapply Hfill.
Qed.

Lemma nrows_head_le n df :
  (0 <= n)%Z -> DataFrame.nrows (DataFrame.head n df) <= Z.to_nat n.
Proof.
  intros Hn. unfold DataFrame.head.
  destruct (Z.leb_spec 0 n) as [_|]; [|lia].
  destruct df as [|[name v] df]; cbn; [lia|].
  rewrite length_take. lia.
Qed.

Lemma size_pipeline s : Pipeline.size (pipeline_of s) = size_of s.
Proof. destruct s; reflexivity. Qed.

Lemma dedup_pipeline s : Pipeline.dedup (pipeline_of s) = dedup_of s.
Proof. destruct s; reflexivity. Qed.

Lemma sample_of_size s k df0 df :
  size_of s = Some k -> k ≠ 0%Z -> sample_of s df0 = Ok df ->
  ∃ d, df = DataFrame.head k d ∧
       match dedup_of s with
       | Some column => DataFrame.drop_duplicates column df0 = Ok d
       | None => d = df0
       end.
Proof.
  intros Hk Hne. rewrite sample_pipeline. unfold Pipeline.sample.
  rewrite size_pipeline, dedup_pipeline, Hk. unfold truthy.
  destruct (Z.eqb_spec k 0) as [|_]; [done|].
  destruct (dedup_of s) as [column|]; cbn [and_then].
  - destruct (DataFrame.drop_duplicates column df0) as [d|]; [|done].
    intros [= <-]. by exists d.
  - intros [= <-]. by exists df0.
Qed.

(** X11.  A positive sample size bounds what a run costs: with
    [--sample_size k], [k > 0], a script sends at most [2 * k] requests to
    the service, and the randomized script at most [k]. *)
Theorem sample_size_bounds_requests (s : script) (e : env)
  (df0 : DataFrame.t) (w : world) (r : result unit) (k : Z) :
  size_of s = Some k -> (0 < k)%Z ->
  csv e (input_of s) = Ok df0 ->
  DataFrame.rectangular df0 ->
  main_of s e world0 = (w, r) ->
  length (prompts (trace w))
    <= (match s with Randomly _ => 1 | _ => 2 end) * Z.to_nat k.
Proof.
  intros Hk Hpos Hcsv Hrect0 Hmain.
  destruct (main_cases _ _ _ _ Hmain)
    as [[Htr _]|(_ & df0' & df & Hcsv' & Hs & Hout)].
  { rewrite Htr. cbn. lia. }
  rewrite Hcsv in Hcsv'. injection Hcsv' as <-.
  assert (Hrect : DataFrame.rectangular df).
  { rewrite sample_pipeline in Hs. by eapply rectangular_sample. }
  pose proof (outcome_prompts_bound _ _ _ _ _ Hrect Hout) as Hle.
  destruct (sample_of_size s k df0 df Hk) as (d & -> & _); [lia|done|].
  pose proof (nrows_head_le k d) as Hrows.
  assert ((if masks_by_service s (DataFrame.head k d) then 2 else 1)
          <= match s with Randomly _ => 1 | _ => 2 end) as Hfactor.
  { destruct s; cbn [masks_by_service];
      try destruct (negb _); lia. }
  nia.
Qed.

Lemma select_first_occurrences seen keys :
  NoDup (DataFrame.select (DataFrame.first_occurrences seen keys) keys) ∧
  (∀ x, x ∈ DataFrame.select (DataFrame.first_occurrences seen keys) keys ->
        x ∉ seen) ∧
  sublist (DataFrame.select (DataFrame.first_occurrences seen keys) keys)
    keys ∧
  (∀ x, x ∈ keys ->
        x ∈ seen ∨
        x ∈ DataFrame.select (DataFrame.first_occurrences seen keys) keys).
Proof.
  revert seen. induction keys as [|k keys IH]; intros seen.
  - cbn. split; [constructor|]. split; [by intros x ?%elem_of_nil|].
    split; [constructor|]. by intros x ?%elem_of_nil.
  - cbn [DataFrame.first_occurrences].
    destruct (decide (k ∈ seen)) as [Hin|Hnin]; cbn [DataFrame.select].
    + destruct (IH seen) as (Hnd & Hseen & Hsub & Hall).
      split; [done|]. split; [done|]. split; [by constructor|].
      intros x [->|Hx]%elem_of_cons; [by left|by apply Hall].
    + destruct (IH (k :: seen)) as (Hnd & Hseen & Hsub & Hall).
      split.
      { constructor; [|done]. intros Hk.
        apply (Hseen _ Hk), list_elem_of_here. }
      split.
      { intros x [->|Hx]%elem_of_cons; [done|].
        intros Hs. apply (Hseen _ Hx), list_elem_of_further, Hs. }
      split; [by constructor|].
      intros x [->|Hx]%elem_of_cons; [right; apply list_elem_of_here|].
      destruct (Hall x Hx) as [[->|Hs]%elem_of_cons|Hr].
      * right. apply list_elem_of_here.
      * by left.
      * right. by apply list_elem_of_further.
Qed.

Lemma key_of_dedup s key :
  dedup_of s = Some key -> Pipeline.key (pipeline_of s) = key.
Proof. destruct s; cbn; congruence. Qed.

(** X12.  No text is processed twice.  With a sample size other than 0,
    the linguistically motivated, the reverse and the multi-language
    script process rows whose key texts are pairwise different; the texts
    are those of the input in the order of the input, at most [k] of them
    for a positive size [k], and every text of the input is among them
    when [k] is at least the number of rows. *)
Theorem sample_has_no_repeats (s : script) (df0 : DataFrame.t)
  (key : str) (keys0 : list cell) (k : Z) :
  size_of s = Some k -> k ≠ 0%Z ->
  dedup_of s = Some key ->
  DataFrame.find key df0 = Some keys0 ->
  ∃ df,
    sample_of s df0 = Ok df ∧
    DataFrame.find key df = Some (key_cells s df) ∧
    NoDup (key_cells s df) ∧
    sublist (key_cells s df) keys0 ∧
    ((0 < k)%Z -> length (key_cells s df) <= Z.to_nat k) ∧
    ((Z.of_nat (length keys0) <= k)%Z ->
     ∀ x, x ∈ keys0 -> x ∈ key_cells s df).
Proof.
  intros Hk Hne Hdedup Hkeys.
  rewrite sample_pipeline. unfold Pipeline.sample, key_cells.
  rewrite size_pipeline, dedup_pipeline, Hk, Hdedup, (key_of_dedup _ _ Hdedup).
  unfold truthy. destruct (Z.eqb_spec k 0) as [|_]; [done|].
  unfold DataFrame.drop_duplicates. rewrite Hkeys. cbn [and_then].
  eexists. split; [reflexivity|].
  unfold DataFrame.head. rewrite !find_map, Hkeys.
  cbn [fmap option_fmap option_map default from_option]. unfold id.
  set (kept := DataFrame.select (DataFrame.first_occurrences [] keys0) keys0).
  destruct (select_first_occurrences [] keys0)
    as (Hnd & _ & Hsub & Hall). fold kept in Hnd, Hsub, Hall.
  split; [done|].
  split; [eapply sublist_NoDup; [done|apply sublist_take]|].
  split; [etrans; [apply sublist_take|done]|].
  split.
  - intros Hpos. destruct (Z.leb_spec 0 k); [|lia].
    rewrite length_take. lia.
  - intros Hlen x Hx. destruct (Z.leb_spec 0 k); [|lia].
    rewrite take_ge.
    + destruct (Hall x Hx) as [?%elem_of_nil|]; done.
    + apply sublist_length in Hsub. lia.
Qed.

End sample_sizes.

(** ** The columns of the output *)

Section output_columns.

Local Open Scope nat_scope.

Lemma names_set_with name v (df : DataFrame.t) :
  DataFrame.names (DataFrame.set name v df)
    = with_column (DataFrame.names df) name.
Proof. apply names_set. Qed.

(** X13.  The columns of the CSV a script writes are those of its input,
    followed by the intermediate column and the result column where the
    input does not have a column of that name; a column of that name is
    overwritten where it stands.  Every other column holds what it held
    in the retained rows, and so does the intermediate column when the
    multi-language script finds it in the input. *)
Theorem columns_of_the_output (s : script) (e : env) (df0 : DataFrame.t)
  (w : world) (r : result unit) (path : str) (out : DataFrame.t) :
  csv e (input_of s) = Ok df0 ->
  main_of s e world0 = (w, r) ->
  EWrite path out ∈ trace w ->
  ∃ df,
    sample_of s df0 = Ok df ∧
    DataFrame.names out
      = with_column (with_column (DataFrame.names df0) (intermediate_of s))
          (csw_of s) ∧
    (∀ name, name ≠ intermediate_of s -> name ≠ csw_of s ->
       DataFrame.find name out = DataFrame.find name df) ∧
    (Pipeline.skips (pipeline_of s) df = true ->
     intermediate_of s ≠ csw_of s ->
     DataFrame.find (intermediate_of s) out
       = DataFrame.find (intermediate_of s) df).
Proof.
  intros Hcsv Hmain Hin.
  destruct (main_cases _ _ _ _ Hmain)
    as [[Htr _]|(_ & df0' & df & Hcsv' & Hs & Hout)].
  { rewrite Htr in Hin. by apply elem_of_nil in Hin. }
  rewrite Hcsv in Hcsv'. injection Hcsv' as <-.
  assert (Hnames : DataFrame.names df = DataFrame.names df0).
  { rewrite sample_pipeline in Hs. by eapply names_sample. }
  destruct (outcome_written _ _ _ _ _ _ _ Hout Hin)
    as (_ & df1 & T1 & T2 & filled & Hdone & _ & _ & _ & -> & _).
  rewrite output_pipeline. exists df. split; [done|].
  rewrite names_set_with.
  destruct Hdone as [(Hskip & _ & ->)|(Hskip & src & masked & _ & _ & _ & ->)].
  - split.
    { rewrite Hnames. f_equal. unfold with_column.
      rewrite decide_True; [done|].
      apply andb_true_iff in Hskip as [_ Hhas].
      unfold DataFrame.has_column in Hhas.
      apply bool_decide_eq_true in Hhas.
      by rewrite intermediate_pipeline, Hnames in Hhas. }
    split.
    + intros name _ Hne. by rewrite find_set_ne.
    + intros _ Hne. by rewrite find_set_ne.
  - rewrite intermediate_pipeline. split.
    { by rewrite names_set_with, Hnames. }
    split.
    + intros name Hne1 Hne2. by rewrite !find_set_ne.
    + rewrite Hskip. discriminate.
Qed.

End output_columns.

(** ** The prompt of the multi-language script *)

Section multi_language_prompts.

Local Open Scope nat_scope.

Lemma lookups_Ok row cols ts :
  Extreme.lookups row cols = Ok ts ->
  Forall2 (fun col t => row col = Ok t) cols ts.
Proof.
  revert ts. induction cols as [|c cols IH]; intros ts; cbn.
  - intros [= <-]. constructor.
  - destruct (row c) as [v|] eqn:Hc; [|done].
    destruct (Extreme.lookups row cols) as [vs|]; [|done].
    intros [= <-]. constructor; [done|]. by apply IH.
Qed.

Lemma join_block (blocks : list str) i block :
  blocks !! i = Some block ->
  ∃ pre post, join [10%N] blocks = pre ++ block ++ post.
Proof.
  revert i. induction blocks as [|b blocks IH]; intros i; [done|].
  destruct i as [|i]; cbn [lookup list_lookup].
  - intros [= ->]. exists []. destruct blocks; cbn [join].
    + exists []. by rewrite app_nil_r.
    + by eexists.
  - intros Hi. destruct (IH _ Hi) as (pre & post & Heq).
    destruct blocks as [|b' blocks]; [done|].
    cbn [join] in *. rewrite Heq.
    exists (b ++ [10%N] ++ pre), post. by rewrite <- !app_assoc.
Qed.

Lemma concat5 {T} (A P B S C : list T) :
  concat [A; P; B; S; C] = (A ++ P ++ B) ++ S ++ C.
Proof. cbn [concat]. by rewrite app_nil_r, <- !app_assoc. Qed.

Lemma multi_prompt_section p section :
  ∃ head tail,
    Extreme.code_switch_multi_prompt p section = head ++ section ++ tail.
Proof.
  unfold Extreme.code_switch_multi_prompt. rewrite concat5.
  eexists _, _. reflexivity.
Qed.

(** X14.  The prompt of the multi-language script names every language
    with the text of its column.  When the command line is accepted and
    the prompt of stage 2 can be made for a row, the prompt holds, for
    the [i]-th target column and the [i]-th language, the block
    [[<language> text]] followed by a line break and the text the row
    has in that column. *)
Theorem multi_prompt_has_every_language (a : Extreme.args)
  (row : DataFrame.row) (q : str) (i : nat) (col lang : str) :
  rejected (Extremely a) = false ->
  fill_of (Extremely a) row = Ok q ->
  Extreme.parse_list (Extreme.target_columns a) !! i = Some col ->
  Extreme.parse_list (Extreme.target_languages a) !! i = Some lang ->
  ∃ text pre post,
    row col = Ok text ∧
    q = pre ++ (lit "[" ++ lang ++ lit " text]" ++ [10%N] ++ format text)
          ++ post.
Proof.
  intros Hrej Hq Hcol Hlang. cbn [fill_of] in Hq.
  destruct (row (lit "placeholder_text")) as [p|]; [|done].
  cbn [and_then] in Hq.
  destruct (Extreme.lookups row _) as [ts|] eqn:Hts; [|done].
  cbn [and_then] in Hq. injection Hq as <-.
  apply lookups_Ok in Hts.
  destruct (Forall2_lookup_l _ _ _ _ _ Hts Hcol) as (text & Htext & Hrow).
  exists text.
  destruct (multi_prompt_section (format p)
              (Extreme.parallel_section ts
                 (Extreme.parse_list (Extreme.target_languages a))))
    as (head & tail & ->).
  unfold Extreme.parallel_section.
  edestruct (join_block
              (map (fun '(lang, text) =>
                      lit "[" ++ lang ++ lit " text]" ++ [10%N] ++ format text)
                 (zip (Extreme.parse_list (Extreme.target_languages a)) ts))
              i) as (pre & post & ->).
  { rewrite list_lookup_fmap, lookup_zip_with, Hlang. cbn [mbind option_bind].
    rewrite Htext. reflexivity. }
  exists (head ++ pre), (post ++ tail). split; [exact Hrow|].
  rewrite <- !app_assoc. reflexivity.
Qed.

End multi_language_prompts.

(** ** The MMLU frame *)

Section mmlu.

Local Open Scope nat_scope.
Import Prepare.

Lemma length_pad n v : length (DataFrame.pad n v) = Nat.max n (length v).
Proof. unfold DataFrame.pad. rewrite length_app, length_replicate. lia. Qed.

Lemma length_aligned n v : length (take n (DataFrame.pad n v)) = n.
Proof. rewrite length_take, length_pad. lia. Qed.

Lemma lookup_aligned n v i :
  i < n -> take n (DataFrame.pad n v) !! i = Some (default CNaN (v !! i)).
Proof.
  intros Hi. rewrite lookup_take_lt by done. unfold DataFrame.pad.
  destruct (v !! i) as [x|] eqn:Hx.
  - by apply lookup_app_l_Some.
  - apply lookup_ge_None in Hx. rewrite lookup_app_r by done.
    apply lookup_replicate. split; [done|lia].
Qed.

Lemma assign_series_new name series df :
  DataFrame.nrows df ≠ 0 -> name ∉ DataFrame.names df ->
  assign_series name series df
    = df ++ [(name, take (DataFrame.nrows df)
                      (DataFrame.pad (DataFrame.nrows df) series))].
Proof.
  intros Hn Hnin. unfold assign_series.
  destruct (Nat.eqb_spec (DataFrame.nrows df) 0) as [|_]; [done|].
  cbn [andb]. by apply set_new.
Qed.

Lemma find_cons {C} name n (v : list C) (df : DataFrame.frame C) :
  DataFrame.find name ((n, v) :: df)
    = if decide (n = name) then Some v else DataFrame.find name df.
Proof. reflexivity. Qed.

(** X15.  The frame written to [mmlu.csv].  When the English test split
    has rows, the frame has the columns [eng_mmlu_question],
    [fra_mmlu_question], [deu_mmlu_question], [arb_mmlu_question] and
    [zho_mmlu_question], in this order, and as many rows as the English
    split; the English column is the column [question] of the English
    split, and row [i] of each other column is row [i] of the column
    [Question] of its split, or the missing value when that split has
    fewer rows; rows of a longer split are dropped. *)
Theorem mmlu_questions_aligned
  (eng_mmlu fra_mmlu deu_mmlu arb_mmlu zho_mmlu : DataFrame.t)
  (eng fra deu arb zho : list cell) :
  DataFrame.find (lit "question") eng_mmlu = Some eng ->
  DataFrame.find (lit "Question") fra_mmlu = Some fra ->
  DataFrame.find (lit "Question") deu_mmlu = Some deu ->
  DataFrame.find (lit "Question") arb_mmlu = Some arb ->
  DataFrame.find (lit "Question") zho_mmlu = Some zho ->
  eng ≠ [] ->
  ∃ out,
    mmlu eng_mmlu fra_mmlu deu_mmlu arb_mmlu zho_mmlu = Ok out ∧
    DataFrame.names out
      = [ lit "eng_mmlu_question"; lit "fra_mmlu_question";
          lit "deu_mmlu_question"; lit "arb_mmlu_question";
          lit "zho_mmlu_question" ] ∧
    DataFrame.rectangular out ∧
    DataFrame.nrows out = length eng ∧
    DataFrame.find (lit "eng_mmlu_question") out = Some eng ∧
    ∀ name questions,
      (name, questions) ∈
        [ (lit "fra_mmlu_question", fra); (lit "deu_mmlu_question", deu);
          (lit "arb_mmlu_question", arb); (lit "zho_mmlu_question", zho) ] ->
      ∃ column,
        DataFrame.find name out = Some column ∧
        ∀ i, i < length eng ->
          column !! i = Some (default CNaN (questions !! i)).
Proof.
  intros Heng Hfra Hdeu Harb Hzho Hne.
  assert (Hrows : length eng ≠ 0) by (by destruct eng).
  unfold mmlu, DataFrame.get.
  rewrite Heng, Hfra, Hdeu, Harb, Hzho. cbn [and_then]. cbv zeta.
  assert (assign_series (lit "eng_mmlu_question") eng []
          = [(lit "eng_mmlu_question", eng)]) as ->.
  { unfold assign_series. cbn [DataFrame.nrows Nat.eqb andb].
    destruct (Nat.eqb_spec (length eng) 0); [done|]. reflexivity. }
  rewrite (assign_series_new _ fra); [|exact Hrows|compute_done].
  cbn [app DataFrame.nrows].
  rewrite (assign_series_new _ deu); [|exact Hrows|compute_done].
  cbn [app DataFrame.nrows].
  rewrite (assign_series_new _ arb); [|exact Hrows|compute_done].
  cbn [app DataFrame.nrows].
  rewrite (assign_series_new _ zho); [|exact Hrows|compute_done].
  cbn [app DataFrame.nrows].
  eexists. split; [reflexivity|].
  split; [reflexivity|].
  split.
  { unfold DataFrame.rectangular. cbn [DataFrame.nrows].
    repeat (constructor; [cbn [snd]; by rewrite ?length_aligned|]).
    constructor. }
  split; [reflexivity|].
  split.
  { rewrite find_cons, decide_True by reflexivity. reflexivity. }
  intros name questions Hin.
  repeat (apply elem_of_cons in Hin as [[= -> ->]|Hin];
          [eexists; split;
           [repeat first
              [ rewrite find_cons, decide_False by compute_done
              | rewrite find_cons, decide_True by reflexivity ];
            reflexivity
           |intros i Hi; by apply lookup_aligned]|]).
  by apply elem_of_nil in Hin.
Qed.

End mmlu.

(** ** A hypothesis of XNLI as two lists *)

Section translations.

Local Open Scope nat_scope.
Import Prepare.

Lemma lookup_store k k' v items :
  lookup_key k (store_key k' v items)
    = if decide (k' = k) then Some v else lookup_key k items.
Proof.
  induction items as [|[k0 v0] items IH]; cbn.
  - reflexivity.
  - destruct (decide (k0 = k')) as [->|Hne]; cbn.
    + by destruct (decide (k' = k)).
    + rewrite IH. destruct (decide (k0 = k)) as [->|]; [|done].
      by rewrite decide_False.
Qed.

Lemma lookup_key_app k (l1 l2 : list (key * value)) :
  lookup_key k (l1 ++ l2)
    = match lookup_key k l1 with
      | Some v => Some v
      | None => lookup_key k l2
      end.
Proof.
  induction l1 as [|[k0 v0] l1 IH]; cbn; [done|].
  by destruct (decide (k0 = k)).
Qed.

(** [dict(zip(keys, values))] on top of the items of a dictionary: of two
    pairs with the same key the later one counts. *)
Lemma dict_of_zip ls ks ts items :
  map_result as_key ls = Ok ks ->
  ∃ zipped,
    dict_of (zip ls ts) items = Ok zipped ∧
    ∀ k, lookup_key k zipped
         = match lookup_key k (reverse (zip ks ts)) with
           | Some v => Some v
           | None => lookup_key k items
           end.
Proof.
  revert ks ts items. induction ls as [|l ls IH]; intros ks ts items.
  - intros [= <-]. by exists items.
  - cbn [map_result]. destruct (as_key l) as [k0|] eqn:Hl; [|done].
    cbn [and_then].
    destruct (map_result as_key ls) as [ks'|] eqn:Hls; [|done].
    intros [= <-]. destruct ts as [|t ts]; [by exists items|].
    cbn [zip zip_with dict_of]. rewrite Hl. cbn [and_then].
    destruct (IH ks' ts (store_key k0 t items) eq_refl)
      as (zipped & -> & Hzipped).
    exists zipped. split; [done|]. intros k.
    rewrite Hzipped, reverse_cons, lookup_key_app, lookup_store.
    destruct (lookup_key k (reverse (zip ks' ts))); [done|].
    cbn. by destruct (decide (k0 = k)).
Qed.

Lemma lookup_key_none k (ks : list key) (ts : list value) :
  k ∉ take (length ts) ks -> lookup_key k (reverse (zip ks ts)) = None.
Proof.
  revert ts. induction ks as [|k0 ks IH]; intros ts; [done|].
  destruct ts as [|t0 ts]; [done|].
  cbn [length take zip zip_with]. rewrite not_elem_of_cons.
  intros [Hne Hnin]. rewrite reverse_cons, lookup_key_app, IH by done.
  cbn. by rewrite decide_False.
Qed.

(** The last pair with the key [k]. *)
Lemma lookup_key_last k (ks : list key) (ts : list value) i t :
  ks !! i = Some k -> ts !! i = Some t ->
  (∀ j, i < j -> j < length ts -> ks !! j ≠ Some k) ->
  lookup_key k (reverse (zip ks ts)) = Some t.
Proof.
  revert ts i. induction ks as [|k0 ks IH]; intros ts i; [done|].
  destruct ts as [|t0 ts]; [done|].
  cbn [zip zip_with]. rewrite reverse_cons, lookup_key_app.
  destruct i as [|i]; cbn [lookup list_lookup].
  - intros [= ->] [= ->] Hlast. rewrite lookup_key_none.
    + cbn. by rewrite decide_True.
    + intros [j Hj]%list_elem_of_lookup.
      apply lookup_take_Some in Hj as [Hj Hlt].
      apply (Hlast (S j)); [lia|cbn; lia|done].
  - intros Hk Ht Hlast.
    rewrite (IH ts i Hk Ht); [done|].
    intros j Hij Hj. apply (Hlast (S j)); cbn; lia.
Qed.

(** X16.  A hypothesis stored as two parallel lists.  For a dictionary
    with a list of languages under ['language'] and a list of texts under
    ['translation'], [process_translation] builds the dictionary from
    language to text, and the extraction for a language then gives the
    text at the position of the language (the last such position, and
    only positions that both lists have), or [None] when the language is
    not there. *)
Theorem hypothesis_from_parallel_lists (items : list (key * value))
  (ls ts : list value) (ks : list key) (lang : str) :
  lookup_key (KStr (lit "language")) items = Some (VList ls) ->
  lookup_key (KStr (lit "translation")) items = Some (VList ts) ->
  map_result as_key ls = Ok ks ->
  ∃ zipped,
    process_translation (VDict items) = Ok (VDict zipped) ∧
    (∀ i t,
       ks !! i = Some (KStr lang) -> ts !! i = Some t ->
       (∀ j, i < j -> j < length ts -> ks !! j ≠ Some (KStr lang)) ->
       extract lang (VDict zipped) = Ok t) ∧
    (KStr lang ∉ take (length ts) ks ->
     extract lang (VDict zipped) = Ok VNone).
Proof.
  intros Hl Ht Hks. unfold process_translation. rewrite Hl, Ht.
  cbn [iterate and_then].
  destruct (dict_of_zip ls ks ts [] Hks) as (zipped & -> & Hzipped).
  cbn [and_then]. exists zipped. split; [done|].
  rewrite extract_translation. unfold translation. rewrite Hzipped.
  split.
  - intros i t Hi Hti Hlast. by rewrite (lookup_key_last _ _ _ i t).
  - intros Hnin. by rewrite lookup_key_none.
Qed.

End translations.

(** ** The columns of the XNLI frame *)

Section xnli_columns.

Local Open Scope nat_scope.
Import Prepare.

Lemma apply_column_existing {f name xnli out} :
  apply_column name f name xnli = Ok out ->
  DataFrame.names out = DataFrame.names xnli ∧
  ∀ other, other ≠ name ->
    DataFrame.find other out = DataFrame.find other xnli.
Proof.
  unfold apply_column, DataFrame.get.
  destruct (DataFrame.find name xnli) as [column|] eqn:Hf; [|done].
  cbn [and_then]. destruct (map_result f column) as [values|]; [|done].
  cbn [and_then]. intros [= <-]. split.
  - rewrite names_set, decide_True; [done|].
    destruct (decide (name ∈ DataFrame.names xnli)) as [|Hnin]; [done|].
    apply find_None in Hnin. congruence.
  - intros other Hne. by rewrite find_set_ne.
Qed.

Lemma parse_fields_frame literal_eval raw parsed :
  parse_fields literal_eval raw = Ok parsed ->
  DataFrame.names parsed = DataFrame.names raw ∧
  (∀ other, other ≠ lit "premise" -> other ≠ lit "hypothesis" ->
     DataFrame.find other parsed = DataFrame.find other raw) ∧
  ∃ premise hypothesis,
    DataFrame.find (lit "premise") parsed = Some premise ∧
    DataFrame.find (lit "hypothesis") parsed = Some hypothesis.
Proof.
  unfold parse_fields.
  destruct (apply_column (lit "premise") _ _ raw) as [x1|] eqn:H1; [|done].
  cbn [and_then].
  destruct (apply_column (lit "hypothesis") _ _ x1) as [x2|] eqn:H2; [|done].
  cbn [and_then]. intros H3.
  destruct (apply_column_existing H1) as [Hn1 Hf1].
  destruct (apply_column_existing H2) as [Hn2 Hf2].
  destruct (apply_column_existing H3) as [Hn3 Hf3].
  split; [congruence|]. split.
  { intros other Hp Hh. by rewrite Hf3, Hf2, Hf1. }
  unfold apply_column, DataFrame.get in H1, H3.
  destruct (DataFrame.find (lit "premise") raw) as [c1|]; [|done].
  cbn [and_then] in H1.
  destruct (map_result _ c1) as [v1|]; [|done].
  injection H1 as <-.
  destruct (DataFrame.find (lit "hypothesis") x2) as [c3|]; [|done].
  cbn [and_then] in H3.
  destruct (map_result _ c3) as [v3|]; [|done].
  injection H3 as <-.
  exists v1, v3. split.
  - rewrite find_set_ne by compute_done. rewrite Hf2 by compute_done.
    apply find_set_eq.
  - apply find_set_eq.
Qed.

(** X17.  The columns of the frame written to [xnli.csv].  When none of
    the ten names [{prefix}_premise], [{prefix}_hypothesis] is a column
    of the input, the loop over the language map appends them in the
    order of the map, the premise of a language before its hypothesis;
    every column of the input stays where it is, and every column other
    than [premise] and [hypothesis] holds what it held. *)
Theorem xnli_columns_appended (literal_eval : str -> result value)
  (raw parsed : DataFrame.frame value) :
  parse_fields literal_eval raw = Ok parsed ->
  Forall (fun name => name ∉ DataFrame.names raw) xnli_columns ->
  ∃ out,
    xnli_frame literal_eval raw = Ok out ∧
    DataFrame.names out = DataFrame.names raw ++ xnli_columns ∧
    (∀ name, name ∈ DataFrame.names raw ->
       DataFrame.find name out = DataFrame.find name parsed) ∧
    (∀ name, name ≠ lit "premise" -> name ≠ lit "hypothesis" ->
       name ∈ DataFrame.names raw ->
       DataFrame.find name out = DataFrame.find name raw).
Proof.
  intros Hparsed Hfresh.
  destruct (parse_fields_frame _ _ _ Hparsed)
    as (Hnames & Hsame & premise & hypothesis & Hp & Hh).
  unfold xnli_frame. rewrite Hparsed. cbn [and_then].
  unfold language_map. cbn [extract_languages].
  assert (xnli_columns
          = [ lit "eng_premise"; lit "eng_hypothesis"; lit "fra_premise";
              lit "fra_hypothesis"; lit "deu_premise"; lit "deu_hypothesis";
              lit "arb_premise"; lit "arb_hypothesis"; lit "zho_premise";
              lit "zho_hypothesis" ]) as Hcolumns
    by (vm_compute; reflexivity).
  rewrite Hcolumns in *. rewrite <- Hnames in Hfresh.
  repeat match goal with
         | H : Forall _ (_ :: _) |- _ =>
             let Hx := fresh "Hx" in apply Forall_cons in H as [Hx H]
         end.
  repeat
    (rewrite (apply_extract _ _ _ _ premise);
     [|repeat first [ exact Hp | rewrite find_app, Hp | rewrite find_app ];
       reflexivity];
     cbn [and_then];
     rewrite set_new;
     [|unfold DataFrame.names in *;
       rewrite ?map_app, ?not_elem_of_app; repeat split;
       first [assumption|compute_done]];
     rewrite (apply_extract _ _ _ _ hypothesis);
     [|repeat first [ exact Hh | rewrite find_app, Hh | rewrite find_app ];
       reflexivity];
     cbn [and_then];
     rewrite set_new;
     [|unfold DataFrame.names in *;
       rewrite ?map_app, ?not_elem_of_app; repeat split;
       first [assumption|compute_done]]).
  eexists. split; [reflexivity|].
  rewrite <- !app_assoc. cbn [app].
  split.
  { unfold DataFrame.names in *. rewrite map_app, Hnames. reflexivity. }
  assert (∀ extra name, name ∈ DataFrame.names raw ->
            DataFrame.find name (parsed ++ extra)
              = DataFrame.find name parsed) as Hkeep.
  { intros extra name Hin. rewrite find_app.
    destruct (DataFrame.find name parsed) eqn:Hf; [done|].
    apply find_None in Hf. by rewrite Hnames in Hf. }
  split; [apply Hkeep|].
  intros name Hp' Hh' Hin. rewrite Hkeep by done. by apply Hsame.
Qed.

End xnli_columns.

(** ** The rows of the Belebele frame *)

Section belebele_rows.

Local Open Scope nat_scope.
Import Prepare.

Lemma missing_from_pad m n v :
  missing_from m v -> missing_from m (DataFrame.pad n v).
Proof.
  intros Hv i Hm Hi. unfold DataFrame.pad in *.
  destruct (decide (i < length v)) as [Hlt|Hge].
  - rewrite lookup_app_l by done. by apply Hv.
  - rewrite lookup_app_r by lia. apply lookup_replicate.
    rewrite length_app, length_replicate in Hi. split; [done|lia].
Qed.

Lemma missing_from_length v : missing_from (length v) v.
Proof. intros i Hm Hi. lia. Qed.

Lemma nrows_cons name v (df : DataFrame.t) :
  DataFrame.nrows ((name, v) :: df) = length v.
Proof. reflexivity. Qed.

Lemma rectangular_concat a b :
  DataFrame.rectangular a -> DataFrame.rectangular b ->
  DataFrame.rectangular (DataFrame.concat_columns a b) ∧
  DataFrame.nrows (DataFrame.concat_columns a b)
    = Nat.max (DataFrame.nrows a) (DataFrame.nrows b).
Proof.
  intros Ha Hb.
  assert (Forall (fun c : str * list cell =>
                    length c.2
                      <= Nat.max (DataFrame.nrows a) (DataFrame.nrows b))
            (a ++ b)) as Hle.
  { apply Forall_app. split; (eapply Forall_impl; [eassumption|]);
      intros c Hc; cbn beta in Hc |- *; rewrite Hc; lia. }
  unfold DataFrame.concat_columns.
  remember (Nat.max (DataFrame.nrows a) (DataFrame.nrows b)) as n eqn:Hmax.
  assert (Forall (fun c : str * list cell => length c.2 = n)
            (map (fun '(name, v) => (name, DataFrame.pad n v)) (a ++ b)))
    as Hall.
  { apply Forall_fmap. eapply Forall_impl; [exact Hle|].
    intros [name v] Hv. cbn in *. rewrite length_pad. lia. }
  assert (DataFrame.nrows
            (map (fun '(name, v) => (name, DataFrame.pad n v)) (a ++ b)) = n)
    as Hn.
  { destruct a as [|[name v] a]; [destruct b as [|[name v] b]|].
    - by subst n.
    - cbn [app map]. rewrite nrows_cons, length_pad.
      apply Forall_cons in Hle as [Hv _]. cbn in Hv. lia.
    - cbn [app map]. rewrite nrows_cons, length_pad.
      apply Forall_cons in Hle as [Hv _]. cbn in Hv. lia. }
  split; [|exact Hn]. unfold DataFrame.rectangular. by rewrite Hn.
Qed.

Lemma continues_concat_l a b name v :
  continues a name v -> continues (DataFrame.concat_columns a b) name v.
Proof.
  intros (column & Hf & Hm). unfold continues.
  rewrite find_concat, find_app, Hf.
  eexists. split; [reflexivity|]. by apply missing_from_pad.
Qed.

Lemma continues_concat_r a b name v :
  name ∉ DataFrame.names a -> continues b name v ->
  continues (DataFrame.concat_columns a b) name v.
Proof.
  intros Hnin (column & Hf & Hm).
  apply find_None in Hnin.
  unfold continues. rewrite find_concat, find_app, Hnin, Hf.
  eexists. split; [reflexivity|]. by apply missing_from_pad.
Qed.

Lemma continues_find df name v :
  DataFrame.find name df = Some v -> continues df name v.
Proof. intros Hf. exists v. split; [done|apply missing_from_length]. Qed.

End belebele_rows.

Section belebele_shape.

Local Open Scope nat_scope.
Import Prepare.

Lemma rectangular_columns (df : DataFrame.t) n :
  df ≠ [] -> Forall (fun c : str * list cell => length c.2 = n) df ->
  DataFrame.rectangular df ∧ DataFrame.nrows df = n.
Proof.
  intros Hne Hall. destruct df as [|[name v] df]; [done|].
  pose proof (Forall_inv Hall) as Hv. cbn in Hv.
  split; [|exact Hv]. unfold DataFrame.rectangular.
  rewrite nrows_cons, Hv. exact Hall.
Qed.

Lemma length_sorted argsort test :
  sorts argsort -> length (sort_values_by_link argsort test) = length test.
Proof.
  intros Hsorts. by apply Permutation_length, sort_values_permutation.
Qed.

Ltac continued :=
  first
    [ apply continues_concat_r;
      [ compute_done | apply continues_find; vm_compute; reflexivity ]
    | apply continues_concat_l; continued ].

(** X18.  The rows of the frame written to [belebele.csv].  The frame has
    as many rows as the largest of the five test splits and every column
    has a value in every row; the columns of a smaller split hold the
    missing value in the rows beyond its size (nothing is raised when the
    splits differ in size). *)
Theorem belebele_rows (argsort : list str -> list nat)
  (load_test : str -> list passage) :
  sorts argsort ->
  ∃ df,
    belebele argsort load_test = Ok df ∧
    DataFrame.rectangular df ∧
    DataFrame.nrows df
      = max_list (map (fun subset => length (load_test subset)) subsets) ∧
    ∀ subset name i,
      subset ∈ subsets ->
      name ∈ [ prefix_of subset ++ lit "_flores_passage";
               prefix_of subset ++ lit "_question" ] ->
      length (load_test subset) <= i -> i < DataFrame.nrows df ->
      DataFrame.find name df ≫= (.!! i) = Some CNaN.
Proof.
  intros Hsorts.
  rewrite belebele_eq. eexists. split; [reflexivity|].
  unfold subsets. cbn [map foldl max_list foldr].
  rewrite subset_frame_english.
  rewrite !subset_frame_other by compute_done.
  cbv zeta.
  pose proof (length_sorted argsort (load_test (lit "eng_Latn")) Hsorts)
    as Leng.
  pose proof (length_sorted argsort (load_test (lit "fra_Latn")) Hsorts)
    as Lfra.
  pose proof (length_sorted argsort (load_test (lit "deu_Latn")) Hsorts)
    as Ldeu.
  pose proof (length_sorted argsort (load_test (lit "arb_Arab")) Hsorts)
    as Larb.
  pose proof (length_sorted argsort (load_test (lit "zho_Hans")) Hsorts)
    as Lzho.
  revert Leng Lfra Ldeu Larb Lzho.
  generalize (sort_values_by_link argsort (load_test (lit "eng_Latn")))
    as eng.
  generalize (sort_values_by_link argsort (load_test (lit "fra_Latn")))
    as fra.
  generalize (sort_values_by_link argsort (load_test (lit "deu_Latn")))
    as deu.
  generalize (sort_values_by_link argsort (load_test (lit "arb_Arab")))
    as arb.
  generalize (sort_values_by_link argsort (load_test (lit "zho_Hans")))
    as zho.
  intros zho arb deu fra eng Leng Lfra Ldeu Larb Lzho.
  match goal with
  | |- context [DataFrame.concat_columns
                  (DataFrame.concat_columns
                     (DataFrame.concat_columns
                        (DataFrame.concat_columns
                           (DataFrame.concat_columns [] ?f1) ?f2) ?f3) ?f4)
                  ?f5] =>
      destruct (rectangular_columns f1 (length eng)) as [R1 N1];
        [done|repeat constructor; apply length_map|];
      destruct (rectangular_columns f2 (length fra)) as [R2 N2];
        [done|repeat constructor; apply length_map|];
      destruct (rectangular_columns f3 (length deu)) as [R3 N3];
        [done|repeat constructor; apply length_map|];
      destruct (rectangular_columns f4 (length arb)) as [R4 N4];
        [done|repeat constructor; apply length_map|];
      destruct (rectangular_columns f5 (length zho)) as [R5 N5];
        [done|repeat constructor; apply length_map|];
      assert (DataFrame.rectangular []) as R0 by constructor;
      destruct (rectangular_concat _ _ R0 R1) as [Q1 M1];
      destruct (rectangular_concat _ _ Q1 R2) as [Q2 M2];
      destruct (rectangular_concat _ _ Q2 R3) as [Q3 M3];
      destruct (rectangular_concat _ _ Q3 R4) as [Q4 M4];
      destruct (rectangular_concat _ _ Q4 R5) as [Q5 M5]
  end.
  split; [exact Q5|].
  split.
  { rewrite M5, M4, M3, M2, M1, N1, N2, N3, N4, N5. cbn [DataFrame.nrows].
    unfold id. clear -Leng Lfra Ldeu Larb Lzho. lia. }
  intros subset name i Hin Hname Hle Hlt.
  match goal with
  | |- DataFrame.find name ?df ≫= _ = _ =>
      assert (∃ v, length v <= i ∧ continues df name v)
        as (v & Hv & column & Hf & Hm)
  end.
  { repeat (apply elem_of_cons in Hin as [->|Hin];
            [repeat (apply elem_of_cons in Hname as [->|Hname];
                     [eexists (map _ _); split;
                      [|continued]; rewrite length_map; lia|]);
             by apply elem_of_nil in Hname|]).
    by apply elem_of_nil in Hin. }
  rewrite Hf. cbn [mbind option_bind].
  apply Hm; [exact Hv|].
  by rewrite (rectangular_find _ _ _ Q5 Hf).
Qed.

End belebele_shape.

(** ** The text of the random masking *)

Section normal_form.

Local Open Scope nat_scope.

Lemma join_head (sep x : str) ws :
  x ≠ [] -> head (join sep (x :: ws)) = head x.
Proof. intros Hx. destruct ws; cbn [join]; [done|]. by destruct x. Qed.

Lemma join_last (sep : str) ws y :
  Forall (fun w => w ≠ []) ws -> last ws = Some y ->
  last (join sep ws) = last y.
Proof.
  induction ws as [|x ws IH]; [done|].
  destruct ws as [|x' ws]; [by intros _ [= ->]|].
  intros [_ Hall]%Forall_cons Hy. rewrite last_cons_cons in Hy.
  change (join sep (x :: x' :: ws)) with (x ++ sep ++ join sep (x' :: ws)).
  rewrite !last_app, (IH Hall Hy).
  assert (y ≠ []) as Hne.
  { apply last_Some_elem_of in Hy. rewrite Forall_forall in Hall.
    by apply Hall. }
  destruct (last y) eqn:Hl; [done|]. by apply last_None in Hl.
Qed.

Lemma join_words_stripped ws :
  Forall word ws -> stripped (join (lit " ") ws).
Proof.
  intros Hwords. destruct ws as [|x ws]; [split; intros c [=]|].
  assert (Forall (fun w : str => w ≠ []) (x :: ws)) as Hne.
  { eapply Forall_impl; [exact Hwords|]. by intros w [? _]. }
  split; intros c.
  - rewrite join_head by (by apply Forall_cons in Hne as [? _]).
    apply Forall_cons in Hwords as [[_ Hsp] _].
    destruct x as [|c' x]; [done|]. intros [= <-].
    by apply Forall_cons in Hsp as [? _].
  - destruct (last (x :: ws)) as [y|] eqn:Hy; [|by apply last_None in Hy].
    rewrite (join_last _ _ y) by done. intros Hc.
    apply last_Some_elem_of in Hy, Hc.
    rewrite Forall_forall in Hwords. destruct (Hwords y Hy) as [_ Hsp].
    rewrite Forall_forall in Hsp. by apply Hsp.
Qed.

(** X20.  The text [insert_placeholders_random] returns is the list of
    its words joined by single spaces: whatever whitespace the sentence
    had between its words and at its ends is not kept.  It has as many
    words as the sentence, and at least one of them is the placeholder. *)
Theorem masked_text_is_normalised (text : cell) (rate : Float.float)
  (e : env) (w w' : world) (out : str) :
  insert_placeholders_random text rate e w = (w', Ok out) ->
  out = join (lit " ") (split out) ∧
  stripped out ∧
  placeholder ∈ split out ∧
  ∃ sentence, text = CStr sentence ∧
              length (split out) = length (split sentence).
Proof.
  intros (ev & _ & sentence & indices & -> & _ & -> & Hne & _ & Hin)
    %random_mask_Ok.
  assert (Hwords : Forall word (mask_words (split sentence) indices))
    by apply mask_words_words, split_words.
  rewrite split_join by done.
  split; [done|]. split; [by apply join_words_stripped|]. split.
  - destruct indices as [|i indices]; [done|].
    apply list_elem_of_lookup. exists i.
    rewrite lookup_mask_words, decide_True by apply list_elem_of_here.
    destruct (lookup_lt_is_Some_2 (split sentence) i) as [x ->]; [|done].
    apply Hin, list_elem_of_here.
  - exists sentence. split; [done|apply length_mask_words].
Qed.

End normal_form.

(** ** A missing key column *)

Section early_failures.

Local Open Scope nat_scope.

Lemma key_of_random s :
  dedup_of s = None -> Pipeline.reuse (pipeline_of s) = false.
Proof. by destruct s. Qed.

(** X21.  A key column that is not in the input is found out before any
    request.  When the column stage 1 reads is missing, [main] raises
    [KeyError] and has sent no request and written nothing; the one
    exception is the multi-language script run without a sample size on
    an input that brings the placeholders, which does not read the
    column. *)
Theorem missing_key_column (s : script) (e : env) (df0 : DataFrame.t)
  (w : world) (r : result unit) :
  rejected s = false ->
  csv e (input_of s) = Ok df0 ->
  Pipeline.key (pipeline_of s) ∉ DataFrame.names df0 ->
  (truthy (size_of s) = None ->
   Pipeline.skips (pipeline_of s) df0 = false) ->
  main_of s e world0 = (w, r) ->
  r = Raise KeyError ∧ trace w = [].
Proof.
  intros Hrej Hcsv Hkey Hskip. rewrite main_pipeline, Hrej.
  apply find_None in Hkey.
  assert (Hstage1 : ∀ df,
    DataFrame.find (Pipeline.key (pipeline_of s)) df = None ->
    Pipeline.skips (pipeline_of s) df = false ->
    Pipeline.stage1 (pipeline_of s) df e world0 = (world0, Raise KeyError)).
  { intros df Hf Hsk. unfold Pipeline.stage1. rewrite Hsk.
    unfold bind, lift, DataFrame.get. by rewrite Hf. }
  destruct (Pipeline.sample (pipeline_of s) df0) as [df|z] eqn:Hs.
  - assert (DataFrame.find (Pipeline.key (pipeline_of s)) df = None
            ∧ Pipeline.skips (pipeline_of s) df = false) as [Hf Hsk].
    { unfold Pipeline.sample in Hs. rewrite size_pipeline in Hs.
      destruct (truthy (size_of s)) as [n|] eqn:Hn.
      - rewrite dedup_pipeline in Hs.
        destruct (dedup_of s) as [column|] eqn:Hd.
        + rewrite <- (key_of_dedup _ _ Hd) in Hs.
          unfold DataFrame.drop_duplicates in Hs. by rewrite Hkey in Hs.
        + cbn [and_then] in Hs. injection Hs as <-. split.
          * unfold DataFrame.head. by rewrite find_map, Hkey.
          * unfold Pipeline.skips. by rewrite key_of_random.
      - injection Hs as <-. split; [done|by apply Hskip]. }
    rewrite (run_stage1_raises _ _ _ df0 df world0 KeyError);
      [|by rewrite input_pipeline|done|by apply Hstage1].
    by intros [= <- <-].
  - rewrite (run_unsampled _ _ _ df0 z); [|by rewrite input_pipeline|done].
    intros [= <- <-]. split; [|done].
    unfold Pipeline.sample in Hs. rewrite size_pipeline in Hs.
    destruct (truthy (size_of s)) as [n|]; [|done].
    rewrite dedup_pipeline in Hs.
    destruct (dedup_of s) as [column|] eqn:Hd; [|done].
    unfold DataFrame.drop_duplicates in Hs.
    destruct (DataFrame.find column df0); [done|].
    cbn [and_then] in Hs. congruence.
Qed.

End early_failures.

(** ** Placeholders that the input brings *)

Section reused_placeholders.

Local Open Scope nat_scope.

(** X22.  Placeholders that the input brings are used as they are.  When
    the input of the multi-language script has the column
    [placeholder_text] and the run on a frame with rows ends well, every
    request is a filling request, made from the retained row of the input
    in the order of the rows, and the CSV written is the frame of the
    retained rows with the result column set to the answers without the
    whitespace at their ends. *)
Theorem placeholders_of_the_input_are_used (a : Extreme.args) (e : env)
  (df0 df : DataFrame.t) (w : world) :
  csv e (Extreme.input_csv a) = Ok df0 ->
  DataFrame.rectangular df0 ->
  sample_of (Extremely a) df0 = Ok df ->
  DataFrame.nrows df ≠ 0 ->
  DataFrame.has_column (lit "placeholder_text") df0 = true ->
  main_of (Extremely a) e world0 = (w, Ok tt) ->
  Forall2 (fun row q => fill_of (Extremely a) row = Ok q)
    (DataFrame.rows df) (prompts (trace w)) ∧
  length (answers (trace w)) = DataFrame.nrows df ∧
  last (trace w)
    = Some (EWrite (Pipeline.path (pipeline_of (Extremely a)))
              (DataFrame.set (Extreme.csw_column_name a)
                 (map (fun x => CStr (strip x)) (answers (trace w))) df)).
Proof.
  intros Hcsv Hrect0 Hs Hn Hhas Hmain.
  destruct (main_steps (Extremely a) _ _ _ _ Hcsv Hrect0 Hs Hn Hmain)
    as (w1 & df1 & T2 & filled & H1 & Hrows & HT2 & Htr).
  assert (Hnames : DataFrame.names df = DataFrame.names df0).
  { rewrite sample_pipeline in Hs. by eapply names_sample. }
  apply stage1_Ok in H1 as [(_ & -> & ->)|(Hskip & _)].
  2:{ rewrite skips_pipeline in Hskip. unfold DataFrame.has_column in *.
      rewrite Hnames in Hskip. congruence. }
  cbn [trace world0 app] in Htr.
  destruct (filled_rows _ _ _ _ HT2) as (Hreq & Hlen & ->).
  rewrite Htr, prompts_app, answers_app, prompts_write, answers_write,
    !app_nil_r.
  split; [done|]. split; [by rewrite Hlen, length_rows|].
  rewrite last_snoc. cbn [csw_of]. by rewrite map_map.
Qed.

End reused_placeholders.

(** ** All or nothing *)

Section all_or_nothing.

Local Open Scope nat_scope.

Lemma outcome_writes p e df T r :
  outcome p e df T r ->
  match r with
  | Ok _ =>
      ∃ before out,
        T = before ++ [EWrite (Pipeline.path p) out] ∧
        Forall succeeds before ∧
        write_error e (Pipeline.path p) out = None
  | Raise z =>
      Forall (fun ev => is_write ev = false) T ∨
      ∃ before out,
        T = before ++ [EWrite (Pipeline.path p) out] ∧
        Forall succeeds before ∧
        write_error e (Pipeline.path p) out = Some z
  end.
Proof.
  intros [Hskip Hkey|src T1 z' Hskip Hkey Hrun|df1 T1 T2 z' Hdone Hrun
         |df1 T1 T2 filled z' Hdone Hrun Hlen Hwe
         |df1 T1 T2 filled Hdone Hrun Hlen Hwe].
  - left. constructor.
  - left. by eapply Run_no_write.
  - left. apply Forall_app. split; [by eapply stage1_done_no_write|].
    by eapply Run_no_write.
  - right. eexists (T1 ++ T2), _. split; [by rewrite <- app_assoc|].
    split; [|done].
    apply Forall_app. split; [by eapply stage1_done_succeeds|].
    by eapply Run_succeeds.
  - eexists (T1 ++ T2), _. split; [by rewrite <- app_assoc|].
    split; [|done].
    apply Forall_app. split; [by eapply stage1_done_succeeds|].
    by eapply Run_succeeds.
Qed.

(** X23.  [to_csv] is called at most once, as the last thing a run does,
    after every request before it was answered.  A run that returns has
    called it, and the call returned.  A run that raises has not called
    it, so that no file was created or touched and the answers received
    are lost, or has called it as its last step, and it is this call that
    raised. *)
Theorem to_csv_is_called_last (s : script) (e : env) (w : world)
  (r : result unit) :
  main_of s e world0 = (w, r) ->
  match r with
  | Ok _ =>
      ∃ before out,
        trace w = before ++ [EWrite (Pipeline.path (pipeline_of s)) out] ∧
        Forall succeeds before ∧
        write_error e (Pipeline.path (pipeline_of s)) out = None
  | Raise z =>
      Forall (fun ev => is_write ev = false) (trace w) ∨
      ∃ before out,
        trace w = before ++ [EWrite (Pipeline.path (pipeline_of s)) out] ∧
        Forall succeeds before ∧
        write_error e (Pipeline.path (pipeline_of s)) out = Some z
  end.
Proof.
  intros Hmain.
  destruct (main_cases _ _ _ _ Hmain)
    as [[Htr [z Hz]]|(_ & df0 & df & _ & _ & Hout)].
  - destruct r as [[]|z']; [done|]. left. rewrite Htr. constructor.
  - by apply outcome_writes in Hout.
Qed.

End all_or_nothing.

(** ** Fields of XNLI that are parsed already *)

Section parsed_already.

Local Open Scope nat_scope.
Import Prepare.

Lemma set_same {C} name (v : list C) (df : DataFrame.frame C) :
  DataFrame.find name df = Some v -> DataFrame.set name v df = df.
Proof.
  induction df as [|[n c] df IH]; cbn; [done|].
  destruct (decide (n = name)) as [->|Hne].
  - by intros [= ->].
  - intros Hf. by rewrite IH.
Qed.

Lemma parse_not_strings literal_eval l :
  Forall (fun x => isinstance_str x = false) l ->
  map_result (parse literal_eval) l = Ok l.
Proof.
  induction 1 as [|x l Hx _ IH]; [done|].
  cbn [map_result]. rewrite IH.
  by destruct x.
Qed.

(** X24.  [ast.literal_eval] is applied to strings only.  When no premise
    and no hypothesis of the frame is a string, the parsing step calls
    [literal_eval] for no field and leaves the frame as it is: what the
    script does with the frame is to bring its hypotheses to the form of
    a dictionary with [process_translation]. *)
Theorem parsed_fields_pass_through (literal_eval : str -> result value)
  (raw : DataFrame.frame value) (premise hypothesis : list value) :
  DataFrame.find (lit "premise") raw = Some premise ->
  DataFrame.find (lit "hypothesis") raw = Some hypothesis ->
  Forall (fun x => isinstance_str x = false) premise ->
  Forall (fun x => isinstance_str x = false) hypothesis ->
  parse_fields literal_eval raw
    = apply_column (lit "hypothesis") process_translation
        (lit "hypothesis") raw.
Proof.
  intros Hp Hh Hpremise Hhypothesis.
  unfold parse_fields.
  unfold apply_column at 1, DataFrame.get. rewrite Hp. cbn [and_then].
  rewrite parse_not_strings by done. cbn [and_then].
  rewrite (set_same _ _ _ Hp).
  unfold apply_column at 1, DataFrame.get. rewrite Hh. cbn [and_then].
  rewrite parse_not_strings by done. cbn [and_then].
  by rewrite (set_same _ _ _ Hh).
Qed.

End parsed_already.

(** ** The further properties at the small inputs *)

Section further_witnesses.

Local Open Scope nat_scope.

Lemma output_path_of_file_name_witness :
  output_path (lit "out")
    (lit "data/" ++ lit "parallel" ++ OsPath.extsep :: lit "csv")
    (lit "_with_") (lit "csw")
  = OsPath.join (lit "out")
      (lit "parallel" ++ lit "_with_" ++ lit "csw" ++ lit ".csv").
Proof.
  apply output_path_of_file_name.
  - right. vm_compute. reflexivity.
  - compute_done.
  - exists 112%N. split; compute_done.
  - compute_done.
  - compute_done.
Defined.

Lemma input_not_overwritten_witness :
  Demo.written.1 ≠ input_of Demo.linguistic.
Proof.
  apply (input_not_overwritten Demo.linguistic Demo.plain_env
           (Cases.left_by Demo.linguistic Demo.plain_env) (Ok tt)
           Demo.written.1 Demo.written.2).
  - compute_done.
  - vm_compute. reflexivity.
  - vm_compute.
    repeat first [apply list_elem_of_here | apply list_elem_of_further].
Defined.

Lemma result_column_holds_answers_witness :
  ∃ out masks fills,
    last (trace (Cases.left_by Demo.linguistic Demo.plain_env))
      = Some (EWrite (Pipeline.path (pipeline_of Demo.linguistic)) out) ∧
    answers (trace (Cases.left_by Demo.linguistic Demo.plain_env))
      = masks ++ fills ∧
    length masks
      = (if masks_by_service Demo.linguistic Demo.frame
         then DataFrame.nrows Demo.frame else 0) ∧
    length fills = DataFrame.nrows Demo.frame ∧
    DataFrame.find (csw_of Demo.linguistic) out
      = Some (map (fun a => CStr (strip a)) fills) ∧
    Forall (fun a => stripped (strip a)) fills.
Proof.
  apply (result_column_holds_answers Demo.linguistic Demo.plain_env
           Demo.frame).
  - reflexivity.
  - repeat constructor.
  - reflexivity.
  - discriminate.
  - vm_compute. reflexivity.
Defined.

Lemma fill_requests_use_mask_answers_witness :
  ∃ masks fills requests,
    answers (trace (Cases.left_by Demo.linguistic Demo.plain_env))
      = masks ++ fills ∧
    length masks = DataFrame.nrows Demo.frame ∧
    prompts (trace (Cases.left_by Demo.linguistic Demo.plain_env))
      = map (fun c => Linguistic.get_switching_points_prompt (format c))
          (key_cells Demo.linguistic Demo.frame) ++ requests ∧
    Forall2 (fun row q => fill_of Demo.linguistic row = Ok q)
      (DataFrame.rows
         (DataFrame.set (intermediate_of Demo.linguistic)
            (map (fun a => CStr (strip a)) masks) Demo.frame))
      requests.
Proof.
  apply (fill_requests_use_mask_answers Demo.linguistic Demo.plain_env
           Demo.frame).
  - reflexivity.
  - repeat constructor.
  - reflexivity.
  - discriminate.
  - reflexivity.
  - reflexivity.
  - vm_compute. reflexivity.
Defined.

Lemma random_placeholders_written_witness :
  ∃ out src masked,
    last (trace (Cases.left_by Demo.randomized Demo.plain_env))
      = Some (EWrite (Pipeline.path (pipeline_of Demo.randomized)) out) ∧
    DataFrame.find (lit "en") Demo.frame = Some src ∧
    DataFrame.find (lit "placeholder_text") out = Some (map CStr masked) ∧
    length (prompts (trace (Cases.left_by Demo.randomized Demo.plain_env)))
      = DataFrame.nrows Demo.frame ∧
    Forall2
      (fun c y =>
         ∃ text indices,
           c = CStr text ∧ indices ≠ [] ∧ NoDup indices ∧
           length (split y) = length (split text) ∧
           (∀ i, i ∈ indices ->
              i < length (split text) ∧ split y !! i = Some placeholder) ∧
           (∀ i, i ∉ indices -> split y !! i = split text !! i))
      src masked.
Proof.
  apply (random_placeholders_written (Demo.arguments None) Demo.plain_env
           Demo.frame).
  - reflexivity.
  - repeat constructor.
  - reflexivity.
  - discriminate.
  - compute_done.
  - vm_compute. reflexivity.
Defined.

Lemma missing_parallel_column_witness :
  Cases.result_of Cases.german Demo.plain_env ≠ Ok tt ∧
  Forall (fun ev => is_write ev = false)
    (trace (Cases.left_by Cases.german Demo.plain_env)) ∧
  Forall (fun q => startswith mask_prefix q = true)
    (prompts (trace (Cases.left_by Cases.german Demo.plain_env))) ∧
  ∀ prompt,
    Pipeline.masking (pipeline_of Cases.german) = Pipeline.ByService prompt ->
    (∀ i q, ∃ a, claude Demo.plain_env i q = Ok a) ->
    rejected Cases.german = false ->
    Pipeline.key (pipeline_of Cases.german) ∈ DataFrame.names Demo.frame ->
    Cases.result_of Cases.german Demo.plain_env = Raise KeyError ∧
    length (prompts (trace (Cases.left_by Cases.german Demo.plain_env)))
      = (if masks_by_service Cases.german Demo.frame
         then DataFrame.nrows Demo.frame else 0).
Proof.
  apply (missing_parallel_column Cases.german Demo.plain_env Demo.frame
           Demo.frame _ _ (lit "de")).
  - reflexivity.
  - repeat constructor.
  - reflexivity.
  - discriminate.
  - apply list_elem_of_here.
  - compute_done.
  - compute_done.
  - apply surjective_pairing.
Defined.

Lemma random_needs_words_witness :
  (Cases.result_of Demo.randomized Cases.blank_env = Raise AttributeError ∨
   Cases.result_of Demo.randomized Cases.blank_env = Raise ValueError) ∧
  prompts (trace (Cases.left_by Demo.randomized Cases.blank_env)) = [] ∧
  Forall (fun ev => is_write ev = false)
    (trace (Cases.left_by Demo.randomized Cases.blank_env)).
Proof.
  apply (random_needs_words (Demo.arguments None) Cases.blank_env
           Cases.blank_frame Cases.blank_frame
           [ CStr (lit "the cat sat on the mat"); CStr (lit "   ") ]
           (CStr (lit "   "))).
  - reflexivity.
  - reflexivity.
  - vm_compute. reflexivity.
  - apply list_elem_of_further, list_elem_of_here.
  - intros text [= <-]. vm_compute. reflexivity.
  - apply surjective_pairing.
Defined.

Lemma sample_size_bounds_requests_witness :
  length (prompts (trace (Cases.left_by Cases.first_row Demo.plain_env)))
    <= 2 * Z.to_nat 1.
Proof.
  apply (sample_size_bounds_requests Cases.first_row Demo.plain_env
           Demo.frame _ (Cases.result_of Cases.first_row Demo.plain_env)).
  - reflexivity.
  - lia.
  - reflexivity.
  - repeat constructor.
  - apply surjective_pairing.
Defined.

Lemma sample_has_no_repeats_witness :
  ∃ df,
    sample_of Cases.first_row Demo.frame = Ok df ∧
    DataFrame.find (lit "en") df = Some (key_cells Cases.first_row df) ∧
    NoDup (key_cells Cases.first_row df) ∧
    sublist (key_cells Cases.first_row df)
      [ CStr (lit "the cat sat on the mat"); CStr (lit "a dog barked") ] ∧
    ((0 < 1)%Z -> length (key_cells Cases.first_row df) <= Z.to_nat 1) ∧
    ((Z.of_nat
        (length [ CStr (lit "the cat sat on the mat");
                  CStr (lit "a dog barked") ]) <= 1)%Z ->
     ∀ x, x ∈ [ CStr (lit "the cat sat on the mat");
                CStr (lit "a dog barked") ] ->
          x ∈ key_cells Cases.first_row df).
Proof.
  apply (sample_has_no_repeats Cases.first_row Demo.frame (lit "en")).
  - reflexivity.
  - lia.
  - reflexivity.
  - vm_compute. reflexivity.
Defined.

Lemma columns_of_the_output_witness :
  ∃ df,
    sample_of Demo.linguistic Demo.frame = Ok df ∧
    DataFrame.names Demo.written.2
      = with_column
          (with_column (DataFrame.names Demo.frame)
             (intermediate_of Demo.linguistic))
          (csw_of Demo.linguistic) ∧
    (∀ name, name ≠ intermediate_of Demo.linguistic ->
       name ≠ csw_of Demo.linguistic ->
       DataFrame.find name Demo.written.2 = DataFrame.find name df) ∧
    (Pipeline.skips (pipeline_of Demo.linguistic) df = true ->
     intermediate_of Demo.linguistic ≠ csw_of Demo.linguistic ->
     DataFrame.find (intermediate_of Demo.linguistic) Demo.written.2
       = DataFrame.find (intermediate_of Demo.linguistic) df).
Proof.
  apply (columns_of_the_output Demo.linguistic Demo.plain_env Demo.frame
           (Cases.left_by Demo.linguistic Demo.plain_env) (Ok tt)
           Demo.written.1).
  - reflexivity.
  - vm_compute. reflexivity.
  - vm_compute.
    repeat first [apply list_elem_of_here | apply list_elem_of_further].
Defined.

Lemma multi_prompt_has_every_language_witness :
  ∃ text pre post,
    DataFrame.get_row Demo.masked_frame 0 (lit "fr") = Ok text ∧
    Cases.multi_prompt
      = pre ++ (lit "[" ++ lit "French" ++ lit " text]" ++ [10%N]
                ++ format text) ++ post.
Proof.
  apply (multi_prompt_has_every_language Demo.extreme_arguments _ _ 0).
  - vm_compute. reflexivity.
  - vm_compute. reflexivity.
  - vm_compute. reflexivity.
  - vm_compute. reflexivity.
Defined.

Lemma mmlu_questions_aligned_witness :
  ∃ out,
    Prepare.mmlu Cases.eng_mmlu Cases.fra_mmlu Cases.deu_mmlu Cases.fra_mmlu
      Cases.deu_mmlu = Ok out ∧
    DataFrame.names out
      = [ lit "eng_mmlu_question"; lit "fra_mmlu_question";
          lit "deu_mmlu_question"; lit "arb_mmlu_question";
          lit "zho_mmlu_question" ] ∧
    DataFrame.rectangular out ∧
    DataFrame.nrows out
      = length [ CStr (lit "What is 2 + 2?"); CStr (lit "What is 3 + 3?") ] ∧
    DataFrame.find (lit "eng_mmlu_question") out
      = Some [ CStr (lit "What is 2 + 2?"); CStr (lit "What is 3 + 3?") ] ∧
    ∀ name questions,
      (name, questions) ∈
        [ (lit "fra_mmlu_question", [ CStr (lit "Combien font 2 + 2 ?") ]);
          (lit "deu_mmlu_question",
             [ CStr (lit "Was ist 2 + 2?"); CStr (lit "Was ist 3 + 3?");
               CStr (lit "Was ist 4 + 4?") ]);
          (lit "arb_mmlu_question", [ CStr (lit "Combien font 2 + 2 ?") ]);
          (lit "zho_mmlu_question",
             [ CStr (lit "Was ist 2 + 2?"); CStr (lit "Was ist 3 + 3?");
               CStr (lit "Was ist 4 + 4?") ]) ] ->
      ∃ column,
        DataFrame.find name out = Some column ∧
        ∀ i, i < length [ CStr (lit "What is 2 + 2?");
                          CStr (lit "What is 3 + 3?") ] ->
          column !! i = Some (default CNaN (questions !! i)).
Proof.
  apply mmlu_questions_aligned.
  - vm_compute. reflexivity.
  - vm_compute. reflexivity.
  - vm_compute. reflexivity.
  - vm_compute. reflexivity.
  - vm_compute. reflexivity.
  - discriminate.
Defined.

Lemma hypothesis_from_parallel_lists_witness :
  ∃ zipped,
    Prepare.process_translation (Prepare.VDict Cases.hypothesis_items)
      = Ok (Prepare.VDict zipped) ∧
    (∀ i t,
       [ Prepare.KStr (lit "en"); Prepare.KStr (lit "fr") ] !! i
         = Some (Prepare.KStr (lit "fr")) ->
       [ Prepare.VStr (lit "It is wet.");
         Prepare.VStr (lit "C'est mouille.") ] !! i = Some t ->
       (∀ j, i < j ->
          j < length [ Prepare.VStr (lit "It is wet.");
                       Prepare.VStr (lit "C'est mouille.") ] ->
          [ Prepare.KStr (lit "en"); Prepare.KStr (lit "fr") ] !! j
            ≠ Some (Prepare.KStr (lit "fr"))) ->
       Prepare.extract (lit "fr") (Prepare.VDict zipped) = Ok t) ∧
    (Prepare.KStr (lit "fr")
       ∉ take (length [ Prepare.VStr (lit "It is wet.");
                        Prepare.VStr (lit "C'est mouille.") ])
           [ Prepare.KStr (lit "en"); Prepare.KStr (lit "fr") ] ->
     Prepare.extract (lit "fr") (Prepare.VDict zipped) = Ok Prepare.VNone).
Proof.
  apply (hypothesis_from_parallel_lists Cases.hypothesis_items
           [ Prepare.VStr (lit "en"); Prepare.VStr (lit "fr") ]).
  - vm_compute. reflexivity.
  - vm_compute. reflexivity.
  - vm_compute. reflexivity.
Defined.

Lemma xnli_columns_appended_witness :
  ∃ out,
    Prepare.xnli_frame Demo.literal_eval Demo.xnli = Ok out ∧
    DataFrame.names out = DataFrame.names Demo.xnli ++ xnli_columns ∧
    (∀ name, name ∈ DataFrame.names Demo.xnli ->
       DataFrame.find name out = DataFrame.find name Demo.parsed_xnli) ∧
    (∀ name, name ≠ lit "premise" -> name ≠ lit "hypothesis" ->
       name ∈ DataFrame.names Demo.xnli ->
       DataFrame.find name out = DataFrame.find name Demo.xnli).
Proof.
  apply xnli_columns_appended.
  - vm_compute. reflexivity.
  - compute_done.
Defined.

Lemma masked_text_is_normalised_witness :
  Cases.masked_text = join (lit " ") (split Cases.masked_text) ∧
  stripped Cases.masked_text ∧
  placeholder ∈ split Cases.masked_text ∧
  ∃ sentence,
    CStr (lit "the cat sat on the mat") = CStr sentence ∧
    length (split Cases.masked_text) = length (split sentence).
Proof.
  apply (masked_text_is_normalised _ Float.rate_0_2 Demo.plain_env world0
           Cases.masked.1).
  vm_compute. reflexivity.
Defined.

Lemma missing_key_column_witness :
  Cases.result_of Cases.spanish Demo.plain_env = Raise KeyError ∧
  trace (Cases.left_by Cases.spanish Demo.plain_env) = [].
Proof.
  apply (missing_key_column Cases.spanish Demo.plain_env Demo.frame).
  - reflexivity.
  - reflexivity.
  - compute_done.
  - intros _. reflexivity.
  - apply surjective_pairing.
Defined.

Lemma placeholders_of_the_input_are_used_witness :
  Forall2 (fun row q => fill_of Demo.extreme row = Ok q)
    (DataFrame.rows Demo.masked_frame)
    (prompts (trace (Cases.left_by Demo.extreme Demo.masked_env))) ∧
  length (answers (trace (Cases.left_by Demo.extreme Demo.masked_env)))
    = DataFrame.nrows Demo.masked_frame ∧
  last (trace (Cases.left_by Demo.extreme Demo.masked_env))
    = Some (EWrite (Pipeline.path (pipeline_of Demo.extreme))
              (DataFrame.set (Extreme.csw_column_name Demo.extreme_arguments)
                 (map (fun x => CStr (strip x))
                    (answers
                       (trace (Cases.left_by Demo.extreme Demo.masked_env))))
                 Demo.masked_frame)).
Proof.
  apply (placeholders_of_the_input_are_used Demo.extreme_arguments
           Demo.masked_env Demo.masked_frame).
  - reflexivity.
  - repeat constructor.
  - reflexivity.
  - discriminate.
  - compute_done.
  - vm_compute. reflexivity.
Defined.

Lemma belebele_rows_witness :
  ∃ df,
    Prepare.belebele Cases.argsort Cases.splits = Ok df ∧
    DataFrame.rectangular df ∧
    DataFrame.nrows df
      = max_list
          (map (fun subset => length (Cases.splits subset))
             Prepare.subsets) ∧
    ∀ subset name i,
      subset ∈ Prepare.subsets ->
      name ∈ [ Prepare.prefix_of subset ++ lit "_flores_passage";
               Prepare.prefix_of subset ++ lit "_question" ] ->
      length (Cases.splits subset) <= i -> i < DataFrame.nrows df ->
      DataFrame.find name df ≫= (.!! i) = Some CNaN.
Proof.
  apply (belebele_rows Cases.argsort Cases.splits). exact argsort_sorts.
Defined.

(** The theorem of X23 on a run that returns and on a run in which a
    request raises. *)
Lemma to_csv_is_called_last_witness :
  (∃ before out,
     trace (Cases.left_by Demo.linguistic Demo.plain_env)
       = before
         ++ [EWrite (Pipeline.path (pipeline_of Demo.linguistic)) out] ∧
     Forall succeeds before ∧
     write_error Demo.plain_env
       (Pipeline.path (pipeline_of Demo.linguistic)) out = None) ∧
  (Forall (fun ev => is_write ev = false)
     (trace (Cases.left_by Demo.linguistic Demo.overloaded_env)) ∨
   ∃ before out,
     trace (Cases.left_by Demo.linguistic Demo.overloaded_env)
       = before
         ++ [EWrite (Pipeline.path (pipeline_of Demo.linguistic)) out] ∧
     Forall succeeds before ∧
     write_error Demo.overloaded_env
       (Pipeline.path (pipeline_of Demo.linguistic)) out
       = Some (ServiceError 529)).
Proof.
  split.
  - apply (to_csv_is_called_last Demo.linguistic Demo.plain_env
             (Cases.left_by Demo.linguistic Demo.plain_env) (Ok tt)).
    vm_compute. reflexivity.
  - apply (to_csv_is_called_last Demo.linguistic Demo.overloaded_env
             (Cases.left_by Demo.linguistic Demo.overloaded_env)
             (Raise (ServiceError 529))).
    vm_compute. reflexivity.
Defined.

Lemma parsed_fields_pass_through_witness :
  Prepare.parse_fields Demo.literal_eval Demo.xnli
    = Prepare.apply_column (lit "hypothesis") Prepare.process_translation
        (lit "hypothesis") Demo.xnli.
Proof.
  eapply parsed_fields_pass_through.
  - vm_compute. reflexivity.
  - vm_compute. reflexivity.
  - repeat constructor.
  - repeat constructor.
Defined.

End further_witnesses.
